(** * cppdep: component model and include resolver

    A shallow embedding of [cppdep.py] (the physical dependency analyzer
    for C/C++ projects): the include scanner, file pairing, the resolver
    and the top-level error shell, followed by the properties of the
    specification that concern them.

    Conventions of the embedding:
    - a Python [str] is a [string]: a sequence of characters with code
      points below 256, each character standing for its code point;
    - a Python [dict] that the program iterates over is an association
      list kept in insertion order ([odict]); a [dict] that is only
      looked up is a [gmap]; a Python [set] is a [gset], or the list of
      its elements in iteration order where the program iterates over it;
    - Python objects that are mutated and shared (components) live in a
      store and are referred to by their key in that store;
    - the file system is an explicit record of oracles ([FileSystem]);
    - exceptions and the standard error stream are threaded explicitly
      (the monad [M]). *)

From Stdlib Require Import String Ascii List Bool Arith Lia.
From stdpp Require Import base option gmap strings list.

Local Open Scope string_scope.
Local Open Scope list_scope.

(** ** Characters and strings *)

Definition ch_sep : ascii := "/"%char.
Definition ch_dot : ascii := "."%char.
Definition ch_nl : ascii := "010"%char.
Definition ch_dquote : ascii := "034"%char.

Definition ch_eqb (a b : ascii) : bool := Ascii.eqb a b.

(** [s[n:]] *)
Fixpoint str_drop (n : nat) (s : string) : string :=
  match n, s with
  | O, _ => s
  | S n', String _ s' => str_drop n' s'
  | S _, EmptyString => EmptyString
  end.

(** [s[:n]] *)
Fixpoint str_take (n : nat) (s : string) : string :=
  match n, s with
  | O, _ => EmptyString
  | S n', String c s' => String c (str_take n' s')
  | S _, EmptyString => EmptyString
  end.

(** [s[n]] when [n] is in range *)
Definition str_nth (n : nat) (s : string) : option ascii := String.get n s.

(** [s.rfind(c)]: index of the last occurrence; [None] stands for -1 *)
Fixpoint str_rfind (c : ascii) (s : string) : option nat :=
  match s with
  | EmptyString => None
  | String a s' =>
      match str_rfind c s' with
      | Some i => Some (S i)
      | None => if ch_eqb a c then Some 0 else None
      end
  end.

Definition str_startswith (p s : string) : bool := String.prefix p s.

Fixpoint str_last (s : string) : option ascii :=
  match s with
  | EmptyString => None
  | String c EmptyString => Some c
  | String _ s' => str_last s'
  end.

Definition str_endswith_ch (c : ascii) (s : string) : bool :=
  match str_last s with Some a => ch_eqb a c | None => false end.

Definition str_is_empty (s : string) : bool :=
  match s with EmptyString => true | _ => false end.

Fixpoint str_all (p : ascii -> bool) (s : string) : bool :=
  match s with
  | EmptyString => true
  | String c s' => p c && str_all p s'
  end.

(** [s.split('/')] *)
Fixpoint str_split (c : ascii) (s : string) : list string :=
  match s with
  | EmptyString => [EmptyString]
  | String a s' =>
      if ch_eqb a c then EmptyString :: str_split c s'
      else match str_split c s' with
           | w :: ws => String a w :: ws
           | [] => [String a EmptyString]
           end
  end.

(** [sep.join(parts)] *)
Fixpoint str_join (sep : string) (parts : list string) : string :=
  match parts with
  | [] => EmptyString
  | [w] => w
  | w :: ws => w +:+ sep +:+ str_join sep ws
  end.

(** White space among the code points below 256, as [str.isspace()]
    has it: tab, line feed, vertical tab, form feed and carriage return
    (9 to 13), the four separators U+001C to U+001F (28 to 31), space
    (32), next line U+0085 (133) and no-break space U+00A0 (160).  It is
    the class [\s] of the patterns, which are [str] patterns, and what
    [str.strip()] removes. *)
Definition is_space (c : ascii) : bool :=
  let n := nat_of_ascii c in
  (Nat.leb 9 n && Nat.leb n 13) || (Nat.leb 28 n && Nat.leb n 32)
  || Nat.eqb n 133 || Nat.eqb n 160.

Fixpoint str_lstrip (s : string) : string :=
  match s with
  | String c s' => if is_space c then str_lstrip s' else s
  | EmptyString => EmptyString
  end.

Fixpoint str_rstrip (s : string) : string :=
  match s with
  | EmptyString => EmptyString
  | String c s' =>
      match str_rstrip s' with
      | EmptyString => if is_space c then EmptyString else String c EmptyString
      | r => String c r
      end
  end.

(** [s.strip()] *)
Definition str_strip (s : string) : string := str_rstrip (str_lstrip s).

(** Python truthiness of an optional string: [None] and [''] are false. *)
Definition truthy (o : option string) : bool :=
  match o with
  | Some s => negb (str_is_empty s)
  | None => false
  end.

(** ** [os.path] (POSIX flavour) *)

Definition os_path_sep : string := "/".

(** [os.path.isabs] *)
Definition isabs (p : string) : bool := str_startswith os_path_sep p.

(** [os.path.join(a, b)] *)
Definition join (a b : string) : string :=
  if str_startswith os_path_sep b then b
  else if str_is_empty a || str_endswith_ch ch_sep a then a +:+ b
  else a +:+ os_path_sep +:+ b.

(** [os.path.basename(p)]: [p[p.rfind('/') + 1:]] *)
Definition basename (p : string) : string :=
  match str_rfind ch_sep p with
  | Some i => str_drop (S i) p
  | None => p
  end.

(** [s.rstrip('/')] *)
Fixpoint str_rstrip_sep (s : string) : string :=
  match s with
  | EmptyString => EmptyString
  | String c s' =>
      match str_rstrip_sep s' with
      | EmptyString => if ch_eqb c ch_sep then EmptyString else String c EmptyString
      | r => String c r
      end
  end.

(** [os.path.dirname(p)] *)
Definition dirname (p : string) : string :=
  let head := match str_rfind ch_sep p with
              | Some i => str_take (S i) p
              | None => EmptyString
              end in
  if negb (str_is_empty head) && negb (str_all (ch_eqb ch_sep) head)
  then str_rstrip_sep head
  else head.

(** [os.path.splitext(p)]: the extension starts at the last dot of the
    last path segment, leading dots of that segment not counting. *)
Fixpoint only_dots_upto (n : nat) (s : string) : bool :=
  match n, s with
  | O, _ => true
  | S n', String c s' => ch_eqb c ch_dot && only_dots_upto n' s'
  | S _, EmptyString => true
  end.

Definition splitext (p : string) : string * string :=
  let filename_index := match str_rfind ch_sep p with
                        | Some i => S i
                        | None => 0
                        end in
  match str_rfind ch_dot p with
  | Some dot_index =>
      if Nat.leb filename_index dot_index
         && negb (only_dots_upto (dot_index - filename_index)
                                 (str_drop filename_index p))
      then (str_take dot_index p, str_drop dot_index p)
      else (p, EmptyString)
  | None => (p, EmptyString)
  end.

(** [os.path.commonprefix]: the longest string that is a prefix of every
    element (character-wise); [''] for the empty list. *)
Fixpoint common_prefix2 (a b : string) : string :=
  match a, b with
  | String x a', String y b' =>
      if ch_eqb x y then String x (common_prefix2 a' b') else EmptyString
  | _, _ => EmptyString
  end.

Definition commonprefix (m : list string) : string :=
  match m with
  | [] => EmptyString
  | x :: xs => fold_left common_prefix2 xs x
  end.

(** [os.path.normpath] *)
Definition normpath_step (initial_slashes : nat) (new_comps : list string)
    (comp : string) : list string :=
  if str_is_empty comp || String.eqb comp "." then new_comps
  else if negb (String.eqb comp "..")
          || (Nat.eqb initial_slashes 0 && Nat.eqb (length new_comps) 0)
          || match last new_comps with
             | Some l => String.eqb l ".."
             | None => false
             end
       then new_comps ++ [comp]
       else removelast new_comps.

Definition normpath (path : string) : string :=
  if str_is_empty path then "."
  else
    let initial_slashes :=
      if str_startswith "/" path then
        if str_startswith "//" path && negb (str_startswith "///" path)
        then 2 else 1
      else 0 in
    let comps := fold_left (normpath_step initial_slashes)
                           (str_split ch_sep path) [] in
    let body := str_join "/" comps in
    let res := match initial_slashes with
               | 0 => body
               | 1 => "/" +:+ body
               | _ => "//" +:+ body
               end in
    if str_is_empty res then "." else res.

(** [os.path.abspath], relative to the process's working directory *)
Definition abspath (cwd path : string) : string :=
  normpath (if isabs path then path else join cwd path).

(** ** Helpers of the module *)

(** [strip_ext]: strips the extension from a filename. *)
Definition strip_ext (filename : string) : string := fst (splitext filename).

(** ** Exceptions *)

(** The exceptions that can reach the top-level guard.  [IOError] stands
    for [OSError] and its subclasses, which the handler of [IOError]
    catches; [ParseError] is what [ElementTree.parse] raises on malformed
    XML (a subclass of [SyntaxError]); [XmlError] and
    [InvalidArgumentError] are the two classes the module declares;
    [OtherError] is an exception of any other class, given by the name of
    its class and its message, such as the [UnicodeDecodeError] that
    reading a source file raises when the file is not valid UTF-8. *)
Inductive exn : Type :=
| AssertionError
| IOError (msg : string)
| XmlError (msg : string)
| InvalidArgumentError (msg : string)
| ParseError (msg : string)
| OtherError (cls msg : string).

Inductive result (A : Type) : Type :=
| Ok (a : A)
| Raise (e : exn).
Arguments Ok {A} a.
Arguments Raise {A} e.

Definition is_ok {A} (r : result A) : bool :=
  match r with Ok _ => true | Raise _ => false end.

(** [common_path]: common prefix path of absolute normalized paths. *)
Definition common_path (paths : list string) : result string :=
  let path := commonprefix paths in
  if negb (isabs path) then Raise AssertionError
  else if str_endswith_ch ch_sep path
       then Ok (str_take (String.length path - 1) path)
       else
         let sep_pos := String.length path in
         if forallb (fun x => Nat.eqb (String.length x) sep_pos
                              || match str_nth sep_pos x with
                                 | Some c => ch_eqb c ch_sep
                                 | None => false
                                 end) paths
         then Ok path
         else Ok (dirname path).

(** ** Regular expressions

    The fragment of Python's [re] that the module's three patterns use,
    with the semantics of a backtracking matcher: alternatives are tried
    left to right, a starred class is greedy and gives characters back
    one at a time.  A continuation receives the text consumed, the new
    position, the rest of the subject and the groups set so far. *)

Inductive regex : Type :=
| REmpty
| RBol                                   (* ^ *)
| REol                                   (* $ *)
| RClass (p : ascii -> bool)             (* one character of a class *)
| RStar (p : ascii -> bool)              (* class*, greedy *)
| RSeq (r1 r2 : regex)
| RAlt (r1 r2 : regex)
| RGroup (name : string) (r : regex).

(** Groups that took part in the match, most recent first. *)
Definition captures : Type := list (string * string).

Fixpoint re_star (p : ascii -> bool) (pos : nat) (s : string)
    (k : string -> nat -> string -> option captures) : option captures :=
  match s with
  | String c s' =>
      if p c then
        match re_star p (S pos) s' (fun consumed => k (String c consumed)) with
        | Some r => Some r
        | None => k EmptyString pos s
        end
      else k EmptyString pos s
  | EmptyString => k EmptyString pos s
  end.

Fixpoint re_run (r : regex) (pos : nat) (s : string) (cs : captures)
    (k : string -> nat -> string -> captures -> option captures)
    : option captures :=
  match r with
  | REmpty => k EmptyString pos s cs
  | RBol => if Nat.eqb pos 0 then k EmptyString pos s cs else None
  | REol =>
      if str_is_empty s || String.eqb s (String ch_nl EmptyString)
      then k EmptyString pos s cs else None
  | RClass p =>
      match s with
      | String c s' =>
          if p c then k (String c EmptyString) (S pos) s' cs else None
      | EmptyString => None
      end
  | RStar p => re_star p pos s (fun consumed pos' s' => k consumed pos' s' cs)
  | RSeq r1 r2 =>
      re_run r1 pos s cs (fun c1 pos1 s1 cs1 =>
        re_run r2 pos1 s1 cs1 (fun c2 pos2 s2 cs2 =>
          k (c1 +:+ c2) pos2 s2 cs2))
  | RAlt r1 r2 =>
      match re_run r1 pos s cs k with
      | Some res => Some res
      | None => re_run r2 pos s cs k
      end
  | RGroup name r1 =>
      re_run r1 pos s cs (fun c pos' s' cs' => k c pos' s' ((name, c) :: cs'))
  end.

(** [pattern.match(s)]: a match starting at position 0. *)
Definition re_match (r : regex) (s : string) : option captures :=
  re_run r 0 s [] (fun _ _ _ cs => Some cs).

(** [pattern.search(s)]: the first position, left to right, at which the
    pattern matches. *)
Fixpoint re_search_from (r : regex) (pos : nat) (s : string)
    : option captures :=
  match re_run r pos s [] (fun _ _ _ cs => Some cs) with
  | Some cs => Some cs
  | None =>
      match s with
      | String _ s' => re_search_from r (S pos) s'
      | EmptyString => None
      end
  end.

Definition re_search (r : regex) (s : string) : option captures :=
  re_search_from r 0 s.

(** [m.group(name)]: [None] for a group that did not take part. *)
Fixpoint group (cs : captures) (name : string) : option string :=
  match cs with
  | [] => None
  | (n, v) :: cs' => if String.eqb n name then Some v else group cs' name
  end.

(** Pattern pieces. *)
Definition cls_any (c : ascii) : bool := negb (ch_eqb c ch_nl).   (* . *)
Definition cls_space : ascii -> bool := is_space.                 (* \s *)
Definition cls_lit (a : ascii) (c : ascii) : bool := ch_eqb c a.

(** Letters of a pattern compiled with [(?i)]. *)
Definition to_lower (c : ascii) : ascii :=
  let n := nat_of_ascii c in
  if Nat.leb 65 n && Nat.leb n 90 then ascii_of_nat (n + 32) else c.
Definition cls_lit_i (a : ascii) (c : ascii) : bool :=
  ch_eqb (to_lower c) (to_lower a).

Fixpoint re_lit (s : string) : regex :=
  match s with
  | EmptyString => REmpty
  | String a EmptyString => RClass (cls_lit a)
  | String a s' => RSeq (RClass (cls_lit a)) (re_lit s')
  end.

Fixpoint re_lit_i (s : string) : regex :=
  match s with
  | EmptyString => REmpty
  | String a EmptyString => RClass (cls_lit_i a)
  | String a s' => RSeq (RClass (cls_lit_i a)) (re_lit_i s')
  end.

Definition re_plus (p : ascii -> bool) : regex := RSeq (RClass p) (RStar p).

Fixpoint re_seq (rs : list regex) : regex :=
  match rs with
  | [] => REmpty
  | [r] => r
  | r :: rs' => RSeq r (re_seq rs')
  end.

Fixpoint re_alt (rs : list regex) : regex :=
  match rs with
  | [] => REmpty
  | [r] => r
  | r :: rs' => RAlt r (re_alt rs')
  end.

(** [_RE_HFILE = re.compile(r'(?i).*\.h(xx|\+\+|h|pp|)$')] *)
Definition _RE_HFILE : regex :=
  re_seq [RStar cls_any; re_lit_i ".h";
          RGroup "1" (re_alt [re_lit_i "xx"; re_lit_i "++"; re_lit_i "h";
                              re_lit_i "pp"; REmpty]);
          REol].

(** [_RE_CFILE = re.compile(r'(?i).*\.c(xx|\+\+|c|pp|)$')] *)
Definition _RE_CFILE : regex :=
  re_seq [RStar cls_any; re_lit_i ".c";
          RGroup "1" (re_alt [re_lit_i "xx"; re_lit_i "++"; re_lit_i "c";
                              re_lit_i "pp"; REmpty]);
          REol].

(** [fnmatcher.match(filename)] used as a condition *)
Definition fnmatch (fnmatcher : regex) (filename : string) : bool :=
  match re_match fnmatcher filename with Some _ => true | None => false end.

(** ** Insertion-ordered dictionaries

    [d[k] = v] keeps the position of a key that is already present and
    appends a new key at the end; iteration ([items()], [values()])
    follows the list. *)

Definition odict (V : Type) : Type := list (string * V).

Fixpoint od_get {V} (k : string) (d : odict V) : option V :=
  match d with
  | [] => None
  | (k', v) :: d' => if String.eqb k' k then Some v else od_get k d'
  end.

Definition od_mem {V} (k : string) (d : odict V) : bool :=
  match od_get k d with Some _ => true | None => false end.

Fixpoint od_set {V} (k : string) (v : V) (d : odict V) : odict V :=
  match d with
  | [] => [(k, v)]
  | (k', v') :: d' =>
      if String.eqb k' k then (k', v) :: d' else (k', v') :: od_set k v d'
  end.

Fixpoint od_del {V} (k : string) (d : odict V) : odict V :=
  match d with
  | [] => []
  | (k', v') :: d' =>
      if String.eqb k' k then od_del k d' else (k', v') :: od_del k d'
  end.

Definition od_keys {V} (d : odict V) : list string := map fst d.
Definition od_values {V} (d : odict V) : list V := map snd d.

(** ** The configuration document *)

(** What [ElementTree] gives for a well-formed configuration: the
    [<package-group>] elements of the root with their attributes, their
    [<package>] children (attribute [name], texts of the [<path>]
    children) and the texts of their own [<path>] children.  The
    embedding covers the documents in which every [<package-group>] has
    the attributes [name] and [path] and every [<path>] element has a
    text; for a missing attribute or an empty element [ElementTree]
    gives [None], which is outside these records. *)
Record package_element : Type := {
  pkg_name : option string;
  pkg_path_texts : list string
}.

Record package_group_element : Type := {
  grp_role : option string;
  grp_name : string;
  grp_path : string;
  grp_packages : list package_element;
  grp_path_texts : list string
}.

(** ** The file system *)

(** What the program asks of its environment: [os.path.isfile],
    [os.path.isdir], [os.walk] (the triples [(root, dirs, files)] in the
    order the enumeration yields them), the lines of a text file as
    iteration over the open file yields them (or the exception that
    opening or reading the file raises: an [IOError] from [open], or
    another one, such as the [UnicodeDecodeError] of a file that is not
    valid UTF-8), [os.getcwd], and [ElementTree.parse(path).getroot()],
    which raises [IOError] for a file that cannot be read and
    [ParseError] for one that is not well-formed XML. *)
Record FileSystem : Type := {
  fs_isfile : string -> bool;
  fs_isdir : string -> bool;
  fs_walk : string -> list (string * list string * list string);
  fs_open : string -> result (list string);
  fs_getcwd : string;
  fs_xml : string -> result (list package_group_element)
}.

(** ** File discovery *)

(** [find]: the basename and full path of the files whose names match. *)
Definition find (fs : FileSystem) (path : string) (fnmatcher : regex)
    : list (string * string) :=
  if fs_isfile fs path then
    let filename := basename path in
    if fnmatch fnmatcher filename then [(filename, path)] else []
  else
    flat_map (fun '(root, _, files) =>
                flat_map (fun entry =>
                            if fnmatch fnmatcher entry
                            then [(entry, join root entry)] else [])
                         files)
             (fs_walk fs path).

(** The body of the loop of [find_hfiles]. *)
Definition find_hfiles_step (acc : odict string * odict string)
    (found : string * string) : odict string * odict string :=
  let '(hbases, hfiles) := acc in
  let '(hfile, hpath) := found in
  let hfiles := if negb (od_mem hfile hfiles)
                then od_set hfile hpath hfiles else hfiles in
  let hbase := strip_ext hfile in
  (od_set hbase hpath hbases, hfiles).

(** [find_hfiles]: finds package header files; returns the two
    destination containers as updated. *)
Definition find_hfiles (fs : FileSystem) (path : string)
    (hbases hfiles : odict string) : odict string * odict string :=
  fold_left find_hfiles_step (find fs path _RE_HFILE) (hbases, hfiles).

(** The loop of [find_cfiles] over what [find] yields. *)
Fixpoint find_cfiles_loop (found : list (string * string))
    (cbases : odict string) : result (odict string) :=
  match found with
  | [] => Ok cbases
  | (cfile, cpath) :: rest =>
      let cbase := strip_ext cfile in
      if od_mem cbase cbases then Raise AssertionError
      else find_cfiles_loop rest (od_set cbase cpath cbases)
  end.

(** [find_cfiles]: finds package implementation files. *)
Definition find_cfiles (fs : FileSystem) (path : string)
    (cbases : odict string) : result (odict string) :=
  find_cfiles_loop (find fs path _RE_CFILE) cbases.

(** ** Include directives *)

Module Include.

Record t : Type := mk {
  hfile : string;
  with_quotes : bool;
  hpath : option string
}.

(** [Include.__init__] *)
Definition init (hfile : string) (with_quotes : bool) : t :=
  mk hfile with_quotes None.

(** [Include.__str__]: the original include with quotes or brackets. *)
Definition str (self : t) : string :=
  if with_quotes self
  then String ch_dquote (hfile self +:+ String ch_dquote EmptyString)
  else "<" +:+ hfile self +:+ ">".

(** [_RE_INCLUDE = re.compile(r'^\s*#include\s*'
                              '(<(?P<brackets>.+)>|"(?P<quotes>.+)")')] *)
Definition _RE_INCLUDE : regex :=
  re_seq [RBol; RStar cls_space; re_lit "#include"; RStar cls_space;
          RGroup "1"
            (RAlt (re_seq [re_lit "<"; RGroup "brackets" (re_plus cls_any);
                           re_lit ">"])
                  (re_seq [RClass (cls_lit ch_dquote);
                           RGroup "quotes" (re_plus cls_any);
                           RClass (cls_lit ch_dquote)]))].

(** The body of the loop of [Include.grep] for one line.  When the
    pattern matches, one of the two named groups took part; the default
    of the last line stands for the [None] that [group("quotes")] would
    otherwise give and is never reached ([grep_line_group]). *)
Definition grep_line (line : string) : option t :=
  match re_search _RE_INCLUDE line with
  | None => None
  | Some include =>
      if truthy (group include "brackets")
      then Some (init (default EmptyString (group include "brackets")) false)
      else Some (init (default EmptyString (group include "quotes")) true)
  end.

(** [Include.grep]: the include directives of a source file, in order. *)
Definition grep (fs : FileSystem) (file_path : string) : result (list t) :=
  match fs_open fs file_path with
  | Raise e => Raise e
  | Ok lines => Ok (omap grep_line lines)
  end.

End Include.

(** ** The object model *)

(** A package is referred to by the name of its group and its own name. *)
Definition package_ref : Type := string * string.

Module ExternalComponent.

Record t : Type := mk {
  hpath : string;
  package : package_ref
}.

Global Instance eq_dec : EqDecision t.
Proof. solve_decision. Defined.

Global Instance countable : Countable t :=
  inj_countable' (fun x => (hpath x, package x))
                 (fun p => mk (fst p) (snd p))
                 (fun x => match x with mk _ _ => eq_refl end).

End ExternalComponent.

Module Component.

(** [dep_internal_components] holds the keys, in
    [DependencyAnalysis.components], of the components depended on. *)
Record t : Type := mk {
  name : string;
  hpath : option string;
  hfile : option string;
  cpath : option string;
  package : package_ref;
  dep_internal_components : gset string;
  dep_external_components : gset ExternalComponent.t;
  includes_in_h : list Include.t;
  includes_in_c : list Include.t
}.

Definition add_dep_internal (dep : string) (c : t) : t :=
  mk (name c) (hpath c) (hfile c) (cpath c) (package c)
     ({[dep]} ∪ dep_internal_components c) (dep_external_components c)
     (includes_in_h c) (includes_in_c c).

Definition add_dep_external (dep : ExternalComponent.t) (c : t) : t :=
  mk (name c) (hpath c) (hfile c) (cpath c) (package c)
     (dep_internal_components c) ({[dep]} ∪ dep_external_components c)
     (includes_in_h c) (includes_in_c c).

Definition set_includes (in_h in_c : list Include.t) (c : t) : t :=
  mk (name c) (hpath c) (hfile c) (cpath c) (package c)
     (dep_internal_components c) (dep_external_components c) in_h in_c.

End Component.

Module Package.

(** [paths] lists the directory set in the order its iteration yields;
    [components] holds keys of [DependencyAnalysis.components]. *)
Record t : Type := mk {
  name : string;
  paths : list string;
  group : string;
  root : string;
  components : list string
}.

Definition append_component (key : string) (p : t) : t :=
  mk (name p) (paths p) (group p) (root p) (components p ++ [key]).

End Package.

Module PackageGroup.

Record t : Type := mk {
  name : string;
  path : string;
  packages : odict Package.t
}.

Definition set_packages (ps : odict Package.t) (g : t) : t :=
  mk (name g) (path g) ps.

End PackageGroup.

(** ** Standard error *)

Inductive message : Type :=
| WarnIncompleteComponent (name package group : string)
| WarnMissingInclude (cpath hfile : string)
| WarnIncludeOrder (hfile cpath : string)
| WarnHeaderNotFound (include : Include.t)   (* from [analyze] *)
| WarnHeaderNotFoundIn (hfile : string)      (* from [Include.locate] *)
| Diagnostic (category text : string)
| Traceback (e : exn).

Definition exn_str (e : exn) : string :=
  match e with
  | AssertionError => EmptyString
  | IOError m | XmlError m | InvalidArgumentError m | ParseError m => m
  | OtherError _ m => m
  end.

Definition exn_class (e : exn) : string :=
  match e with
  | AssertionError => "AssertionError"
  | IOError _ => "IOError"
  | XmlError _ => "XmlError"
  | InvalidArgumentError _ => "InvalidArgumentError"
  | ParseError _ => "xml.etree.ElementTree.ParseError"
  | OtherError cls _ => cls
  end.

(** The text written for each message. *)
Definition render (m : message) : string :=
  match m with
  | WarnIncompleteComponent n p g =>
      "warning: incomplete component: missing header: "
      +:+ n +:+ " in " +:+ p +:+ "." +:+ g
  | WarnMissingInclude cpath hfile =>
      "warning: include issues: missing include: "
      +:+ cpath +:+ " does not include " +:+ hfile +:+ "."
  | WarnIncludeOrder hfile cpath =>
      "warning: include issues: include order: "
      +:+ hfile +:+ " should be the first include in " +:+ cpath +:+ "."
  | WarnHeaderNotFound include =>
      "warning: include issues: header not found: " +:+ Include.str include
  | WarnHeaderNotFoundIn hfile =>
      "warning: include issues: header not found: " +:+ hfile
  | Diagnostic category text =>
      category +:+ String ch_nl text
  | Traceback e =>
      "Traceback (most recent call last):" +:+ String ch_nl
        (exn_class e +:+ ": " +:+ exn_str e)
  end.

(** [Include.locate]: locates the included header file path, in the
    working directory first for a quoted include, then in the include
    directories.  Returns the include as updated and what it printed. *)
Definition Include_find_in (fs : FileSystem) (self : Include.t)
    (include_dir : string) : option string :=
  let file_hpath := join include_dir (Include.hfile self) in
  if fs_isfile fs file_hpath then Some file_hpath else None.

Definition Include_locate (fs : FileSystem) (self : Include.t)
    (cwd : string) (include_dirs : list string)
    : result (Include.t * list message) :=
  match Include.hpath self with
  | Some _ => Raise AssertionError
  | None =>
      let dirs := (if Include.with_quotes self then [cwd] else [])
                  ++ include_dirs in
      match omap (Include_find_in fs self) dirs with
      | file_hpath :: _ =>
          Ok (Include.mk (Include.hfile self) (Include.with_quotes self)
                         (Some file_hpath), [])
      | [] => Ok (self, [WarnHeaderNotFoundIn (Include.hfile self)])
      end
  end.

(** ** The analysis *)

Module DependencyAnalysis.

(** The attributes of the analysis object, together with the standard
    error stream of the process.  [internal_components] maps a header
    basename to the key of its component in [components]. *)
Record t : Type := mk {
  config_file : string;
  components : odict Component.t;
  external_components : gmap string ExternalComponent.t;
  internal_components : gmap string string;
  internal_hfiles : gmap string string;
  external_groups : odict PackageGroup.t;
  internal_groups : odict PackageGroup.t;
  stderr : list message
}.

Definition set_components (v : odict Component.t) (s : t) : t :=
  mk (config_file s) v (external_components s) (internal_components s)
     (internal_hfiles s) (external_groups s) (internal_groups s) (stderr s).

Definition set_external_components (v : gmap string ExternalComponent.t)
    (s : t) : t :=
  mk (config_file s) (components s) v (internal_components s)
     (internal_hfiles s) (external_groups s) (internal_groups s) (stderr s).

Definition set_internal_components (v : gmap string string) (s : t) : t :=
  mk (config_file s) (components s) (external_components s) v
     (internal_hfiles s) (external_groups s) (internal_groups s) (stderr s).

Definition set_internal_hfiles (v : gmap string string) (s : t) : t :=
  mk (config_file s) (components s) (external_components s)
     (internal_components s) v (external_groups s) (internal_groups s)
     (stderr s).

Definition set_external_groups (v : odict PackageGroup.t) (s : t) : t :=
  mk (config_file s) (components s) (external_components s)
     (internal_components s) (internal_hfiles s) v (internal_groups s)
     (stderr s).

Definition set_internal_groups (v : odict PackageGroup.t) (s : t) : t :=
  mk (config_file s) (components s) (external_components s)
     (internal_components s) (internal_hfiles s) (external_groups s) v
     (stderr s).

Definition set_stderr (v : list message) (s : t) : t :=
  mk (config_file s) (components s) (external_components s)
     (internal_components s) (internal_hfiles s) (external_groups s)
     (internal_groups s) v.

End DependencyAnalysis.

(** ** Computations that mutate the analysis and may raise *)

Definition M (A : Type) : Type :=
  DependencyAnalysis.t -> DependencyAnalysis.t * result A.

Definition ret {A} (a : A) : M A := fun s => (s, Ok a).

Definition bind {A B} (m : M A) (f : A -> M B) : M B :=
  fun s => match m s with
           | (s', Ok a) => f a s'
           | (s', Raise e) => (s', Raise e)
           end.

Definition raise {A} (e : exn) : M A := fun s => (s, Raise e).

Definition lift {A} (r : result A) : M A := fun s => (s, r).

Definition get_self : M DependencyAnalysis.t := fun s => (s, Ok s).

Definition modify (f : DependencyAnalysis.t -> DependencyAnalysis.t)
    : M unit := fun s => (f s, Ok tt).

Notation "'do' x <- m ; k" := (bind m (fun x => k))
  (at level 10, x name, m at level 100, k at level 200,
   format "'[v' 'do'  x  <-  m ; '/' k ']'").
Notation "'do' ' p <- m ; k" := (bind m (fun x => let 'p := x in k))
  (at level 10, p pattern, m at level 100, k at level 200,
   format "'[v' 'do'  ' p  <-  m ; '/' k ']'").
Notation "'run' m ; k" := (bind m (fun _ => k))
  (at level 10, m at level 100, k at level 200,
   format "'[v' 'run'  m ; '/' k ']'").

(** [assert cond] *)
Definition assert (cond : bool) : M unit :=
  if cond then ret tt else raise AssertionError.

(** [warn]: prints a warning message into the standard error. *)
Definition warn (m : message) : M unit :=
  modify (fun s => DependencyAnalysis.set_stderr
                     (DependencyAnalysis.stderr s ++ [m]) s).

(** ** Constructors of the object model *)

Definition od_alter {V} (f : V -> V) (k : string) (d : odict V) : odict V :=
  map (fun kv => if String.eqb (fst kv) k then (fst kv, f (snd kv)) else kv) d.

(** [a or b] on optional strings *)
Definition py_or (a b : option string) : option string :=
  if truthy a then a else b.

(** [package.components.append(self)] for an internal package *)
Definition register_component (ref : package_ref) (key : string) : M unit :=
  modify (fun s =>
    DependencyAnalysis.set_internal_groups
      (od_alter (fun g =>
                   PackageGroup.set_packages
                     (od_alter (Package.append_component key) (snd ref)
                               (PackageGroup.packages g)) g)
                (fst ref) (DependencyAnalysis.internal_groups s)) s).

(** [[] if not path else list(Include.grep(path))] *)
Definition grep_if (fs : FileSystem) (path : option string)
    : M (list Include.t) :=
  match path with
  | Some p => if str_is_empty p then ret [] else lift (Include.grep fs p)
  | None => ret []
  end.

(** [Component.__init__]: initialization of a free-standing component;
    registers the component in the package and warns about an incomplete
    component.  [key] is the identity of the object being constructed:
    the key under which the caller stores it. *)
Definition Component_init (fs : FileSystem) (key : string)
    (hpath cpath : option string) (package : Package.t) : M Component.t :=
  run assert (truthy hpath || truthy cpath);
  let name :=
    strip_ext (str_drop (String.length (Package.root package) + 1)
                        (default EmptyString (py_or hpath cpath))) in
  run (if negb (truthy hpath)
       then warn (WarnIncompleteComponent name (Package.name package)
                                          (Package.group package))
       else ret tt);
  let hfile := if negb (truthy hpath) then None else basename <$> hpath in
  do includes_in_h <- grep_if fs hpath;
  do includes_in_c <- grep_if fs cpath;
  run register_component (Package.group package, Package.name package) key;
  ret (Component.mk name hpath hfile cpath
                    (Package.group package, Package.name package)
                    ∅ ∅ includes_in_h includes_in_c).

(** [Component.check_include_issues]: what the check prints. *)
Definition check_include_issues (self : Component.t) : list message :=
  if negb (truthy (Component.hpath self)) || negb (truthy (Component.cpath self))
  then []
  else
    let cpath := default EmptyString (Component.cpath self) in
    let hfile := default EmptyString (Component.hfile self) in
    if negb (bool_decide
               (Component.hfile self ∈
                  map (fun x => Some (basename (Include.hfile x)))
                      (Component.includes_in_c self)))
    then [WarnMissingInclude cpath hfile]
    else
      match Component.includes_in_c self with
      | first :: _ =>
          if negb (bool_decide (Component.hfile self
                                = Some (basename (Include.hfile first))))
          then [WarnIncludeOrder hfile cpath]
          else []
      | [] => []
      end.

(** [PackageGroup.__init__] *)
Definition PackageGroup_init (fs : FileSystem) (name path : string)
    : result PackageGroup.t :=
  if negb (fs_isdir fs path)
  then Raise (InvalidArgumentError (path +:+ " is not a directory."))
  else Ok (PackageGroup.mk name (abspath (fs_getcwd fs) (normpath path)) []).

(** [PackageGroup.add_package] *)
Definition add_package (self : PackageGroup.t) (package : Package.t)
    : result PackageGroup.t :=
  if od_mem (Package.name package) (PackageGroup.packages self)
  then Raise (InvalidArgumentError
                (Package.name package +:+ " is a duplicate package in "
                 +:+ PackageGroup.name self +:+ " group."))
  else Ok (PackageGroup.set_packages
             (od_set (Package.name package) package
                     (PackageGroup.packages self)) self).

(** The loop of [Package.__init__] over the argument paths: the set of
    absolute paths collected and the last normalized relative path. *)
Fixpoint Package_init_paths (fs : FileSystem) (group : PackageGroup.t)
    (name : option string) (paths : list string)
    (self_paths : list string) (path : option string)
    : result (list string * option string) :=
  match paths with
  | [] => Ok (self_paths, path)
  | p :: rest =>
      let path := normpath p in
      let abs_path := join (PackageGroup.path group) path in
      if negb (fs_isdir fs abs_path)
      then Raise (InvalidArgumentError
                    (path +:+ " is not a directory in "
                     +:+ PackageGroup.path group +:+ " (group "
                     +:+ PackageGroup.name group +:+ ")."))
      else if bool_decide (abs_path ∈ self_paths)
      then if truthy name
           then Raise (InvalidArgumentError
                         (abs_path +:+ " is duplicated in "
                          +:+ default EmptyString name +:+ "."
                          +:+ PackageGroup.name group))
           else Raise AssertionError
      else Package_init_paths fs group name rest
                              (self_paths ++ [abs_path]) (Some path)
  end.

(** [Package.__init__]: constructs an empty package and registers it in
    the package group, which is returned as updated. *)
Definition Package_init (fs : FileSystem) (paths : list string)
    (group : PackageGroup.t) (name : option string)
    : result (Package.t * PackageGroup.t) :=
  match Package_init_paths fs group name paths [] None with
  | Raise e => Raise e
  | Ok (self_paths, path) =>
      if Nat.eqb (length self_paths) 0 then Raise AssertionError
      else if negb (truthy name || Nat.eqb (length self_paths) 1)
      then Raise AssertionError
      else
        let self_name :=
          if truthy name then default EmptyString name
          else str_join "_"
                 (filter (fun x => negb (str_is_empty x) = true)
                         (str_split ch_sep (default EmptyString path))) in
        match common_path self_paths with
        | Raise e => Raise e
        | Ok root =>
            let self := Package.mk self_name self_paths
                                   (PackageGroup.name group) root [] in
            match add_package group self with
            | Raise e => Raise e
            | Ok group' => Ok (self, group')
            end
        end
  end.

(** [DependencyAnalysis.__add_package_group]: the body of a
    [<package-group>] element. *)
Fixpoint add_named_packages (fs : FileSystem) (els : list package_element)
    (package_group : PackageGroup.t) : result PackageGroup.t :=
  match els with
  | [] => Ok package_group
  | el :: rest =>
      match Package_init fs (map str_strip (pkg_path_texts el))
                         package_group (pkg_name el) with
      | Raise e => Raise e
      | Ok (_, g) => add_named_packages fs rest g
      end
  end.

Fixpoint add_path_packages (fs : FileSystem) (texts : list string)
    (package_group : PackageGroup.t) : result PackageGroup.t :=
  match texts with
  | [] => Ok package_group
  | text :: rest =>
      match Package_init fs [str_strip text] package_group None with
      | Raise e => Raise e
      | Ok (_, g) => add_path_packages fs rest g
      end
  end.

Definition add_package_group (fs : FileSystem)
    (pkg_group_element : package_group_element)
    (pkg_groups : odict PackageGroup.t) : result (odict PackageGroup.t) :=
  let group_name := grp_name pkg_group_element in
  let group_path := grp_path pkg_group_element in
  if od_mem group_name pkg_groups
  then Raise (InvalidArgumentError
                ("Redefinition of " +:+ group_name +:+ " group"))
  else
    match PackageGroup_init fs group_name group_path with
    | Raise e => Raise e
    | Ok package_group =>
        match add_named_packages fs (grp_packages pkg_group_element)
                                 package_group with
        | Raise e => Raise e
        | Ok g1 =>
            match add_path_packages fs (grp_path_texts pkg_group_element)
                                    g1 with
            | Raise e => Raise e
            | Ok g2 => Ok (od_set group_name g2 pkg_groups)
            end
        end
    end.

(** The loop of [DependencyAnalysis.__parse_xml_config] over the
    [<package-group>] elements. *)
Fixpoint parse_groups (fs : FileSystem) (els : list package_group_element)
    : M unit :=
  match els with
  | [] => ret tt
  | el :: rest =>
      let pkg_role := grp_role el in
      run assert (match pkg_role with
                  | None => true
                  | Some r => String.eqb r "external" || String.eqb r "internal"
                  end);
      do self <- get_self;
      run (if bool_decide (pkg_role = Some "external")
           then do gs <- lift (add_package_group fs el
                                 (DependencyAnalysis.external_groups self));
                modify (DependencyAnalysis.set_external_groups gs)
           else do gs <- lift (add_package_group fs el
                                 (DependencyAnalysis.internal_groups self));
                modify (DependencyAnalysis.set_internal_groups gs));
      parse_groups fs rest
  end.

(** [DependencyAnalysis.__parse_xml_config] *)
Definition parse_xml_config (fs : FileSystem) (config_file : string)
    : M unit :=
  do root <- lift (fs_xml fs config_file);
  parse_groups fs root.

(** [DependencyAnalysis.__init__]: the containers start empty, then the
    configuration is parsed. *)
Definition DependencyAnalysis_new (config_file : string)
    : DependencyAnalysis.t :=
  DependencyAnalysis.mk config_file [] ∅ ∅ ∅ [] [] [].

Definition DependencyAnalysis_init (fs : FileSystem) (config_file : string)
    : M unit :=
  parse_xml_config fs config_file.

(** ** The resolver *)

(** [_find_in] of [DependencyAnalysis.locate]: the path of the first file
    named [hfile] that the walk of [dir_path] meets. *)
Definition find_in (fs : FileSystem) (hfile : string) (dir_path : string)
    : option string :=
  head (omap (fun '(root, _, files) =>
                if bool_decide (hfile ∈ files) then Some (join root hfile)
                else None)
             (fs_walk fs dir_path)).

(** [_find_external_component] of [DependencyAnalysis.locate]: the first
    directory of an external package under which the file is found gives
    the path assigned to the include and the new external component. *)
Definition find_external_component (fs : FileSystem) (hfile : string)
    (external_groups : odict PackageGroup.t)
    : option (string * ExternalComponent.t) :=
  head (flat_map (fun group =>
          flat_map (fun package =>
            omap (fun dir_path =>
                    match find_in fs hfile dir_path with
                    | Some found =>
                        Some (found,
                              ExternalComponent.mk hfile
                                (Package.group package, Package.name package))
                    | None => None
                    end)
                 (Package.paths package))
            (od_values (PackageGroup.packages group)))
          (od_values external_groups)).

Definition set_hpath (hpath : option string) (include : Include.t)
    : Include.t :=
  Include.mk (Include.hfile include) (Include.with_quotes include) hpath.

(** [DependencyAnalysis.locate]: locates the dependency component.
    Returns whether the include is found, with the include and the
    dependent component as updated. *)
Definition locate (fs : FileSystem) (include : Include.t)
    (component : Component.t) : M (bool * Include.t * Component.t) :=
  fun self =>
  let hfile := basename (Include.hfile include) in
  if bool_decide (Some hfile = Component.hfile component) then
    (self, Ok (true, set_hpath (Component.hpath component) include, component))
  else
    match DependencyAnalysis.internal_components self !! hfile with
    | Some dep_component =>
        (self,
         Ok (true,
             set_hpath (od_get dep_component (DependencyAnalysis.components self)
                          ≫= Component.hpath) include,
             Component.add_dep_internal dep_component component))
    | None =>
        match DependencyAnalysis.external_components self !! hfile with
        | Some dep_component =>
            (self,
             Ok (true,
                 set_hpath (Some (ExternalComponent.hpath dep_component)) include,
                 Component.add_dep_external dep_component component))
        | None =>
            match find_external_component fs hfile
                    (DependencyAnalysis.external_groups self) with
            | Some (found, dep_component) =>
                (DependencyAnalysis.set_external_components
                   (<[hfile := dep_component]>
                      (DependencyAnalysis.external_components self)) self,
                 Ok (true, set_hpath (Some found) include,
                     Component.add_dep_external dep_component component))
            | None => (self, Ok (false, include, component))
            end
        end
    end.

(** ** File pairing *)

(** The loop of [make_components] over the paths of one package. *)
Fixpoint collect_files (fs : FileSystem) (paths : list string)
    (hbases cbases hfiles : odict string)
    : result (odict string * odict string * odict string) :=
  match paths with
  | [] => Ok (hbases, cbases, hfiles)
  | src_path :: rest =>
      let '(hbases, hfiles) := find_hfiles fs src_path hbases hfiles in
      match find_cfiles fs src_path cbases with
      | Raise e => Raise e
      | Ok cbases => collect_files fs rest hbases cbases hfiles
      end
  end.

(** The loop of [make_components] that merges the headers of a package
    into [internal_hfiles]. *)
Definition merge_hfiles (hfiles : odict string)
    (internal_hfiles : gmap string string) : gmap string string :=
  fold_left (fun acc '(hfile, hpath) =>
               match acc !! hfile with
               | Some _ => acc
               | None => <[hfile := hpath]> acc
               end)
            hfiles internal_hfiles.

Definition store_component (key : string) (component : Component.t) : M unit :=
  modify (fun s => DependencyAnalysis.set_components
                     (od_set key component (DependencyAnalysis.components s)) s).

(** First loop of [__construct_components], over the header base names;
    returns the implementation base names left unpaired.  The component
    is indexed in [internal_components] under its header basename (a
    component built from a header path always has one). *)
Fixpoint construct_paired (fs : FileSystem) (package : Package.t)
    (hbases : list (string * string)) (cbases : odict string)
    : M (odict string) :=
  match hbases with
  | [] => ret cbases
  | (key, hpath) :: rest =>
      let cpath := od_get key cbases in
      let cbases := if od_mem key cbases then od_del key cbases else cbases in
      do self <- get_self;
      run assert (negb (od_mem key (DependencyAnalysis.components self)));
      do component <- Component_init fs key (Some hpath) cpath package;
      run store_component key component;
      run (match Component.hfile component with
           | Some hfile =>
               modify (fun s =>
                 DependencyAnalysis.set_internal_components
                   (<[hfile := key]> (DependencyAnalysis.internal_components s)) s)
           | None => ret tt
           end);
      construct_paired fs package rest cbases
  end.

(** Second loop of [__construct_components], over the unpaired
    implementation base names. *)
Fixpoint construct_unpaired (fs : FileSystem) (package : Package.t)
    (cbases : list (string * string)) : M unit :=
  match cbases with
  | [] => ret tt
  | (key, cpath) :: rest =>
      do self <- get_self;
      run assert (negb (od_mem key (DependencyAnalysis.components self)));
      do component <- Component_init fs key None (Some cpath) package;
      run store_component key component;
      construct_unpaired fs package rest
  end.

(** [DependencyAnalysis.__construct_components]: pairs header and
    implementation files into components. *)
Definition construct_components (fs : FileSystem) (package : Package.t)
    (hbases cbases : odict string) : M unit :=
  do cbases <- construct_paired fs package hbases cbases;
  construct_unpaired fs package cbases.

(** The body of the loops of [make_components] for one package. *)
Definition make_package_components (fs : FileSystem) (package : Package.t)
    : M unit :=
  do '(hbases, cbases, hfiles) <-
     lift (collect_files fs (Package.paths package) [] [] []);
  run modify (fun s => DependencyAnalysis.set_internal_hfiles
                         (merge_hfiles hfiles
                            (DependencyAnalysis.internal_hfiles s)) s);
  construct_components fs package hbases cbases.

Fixpoint for_each {A} (body : A -> M unit) (l : list A) : M unit :=
  match l with
  | [] => ret tt
  | x :: rest => run body x; for_each body rest
  end.

(** [DependencyAnalysis.make_components]: pairs hfiles and cfiles. *)
Definition make_components (fs : FileSystem) : M unit :=
  do self <- get_self;
  for_each (fun group =>
              for_each (make_package_components fs)
                       (od_values (PackageGroup.packages group)))
           (od_values (DependencyAnalysis.internal_groups self)).

(** ** Resolution *)

(** The body of the inner loop of [analyze] for one include. *)
Definition analyze_include (fs : FileSystem) (include : Include.t)
    (component : Component.t) : M (Include.t * Component.t) :=
  do '(found, include', component') <- locate fs include component;
  run (if negb found then warn (WarnHeaderNotFound include') else ret tt);
  ret (include', component').

(** The inner loop of [analyze] over a list of includes. *)
Fixpoint analyze_includes (fs : FileSystem) (includes : list Include.t)
    (component : Component.t) : M (list Include.t * Component.t) :=
  match includes with
  | [] => ret ([], component)
  | include :: rest =>
      do '(include', component') <- analyze_include fs include component;
      do '(rest', component'') <- analyze_includes fs rest component';
      ret (include' :: rest', component'')
  end.

(** The body of the outer loop of [analyze]: the includes of the header,
    then those of the implementation file, then the hygiene check. *)
Definition analyze_component (fs : FileSystem) (entry : string * Component.t)
    : M unit :=
  let '(key, component) := entry in
  do '(in_h, c1) <- analyze_includes fs (Component.includes_in_h component)
                                     component;
  do '(in_c, c2) <- analyze_includes fs (Component.includes_in_c component) c1;
  let component' := Component.set_includes in_h in_c c2 in
  run store_component key component';
  for_each warn (check_include_issues component').

(** [DependencyAnalysis.analyze]: runs the analysis.  The loop goes over
    the components as they are when it starts: a component is changed
    only by its own iteration. *)
Definition analyze (fs : FileSystem) : M unit :=
  do self <- get_self;
  for_each (analyze_component fs) (DependencyAnalysis.components self).

(** ** The program *)

(** [main] up to the end of the analysis (the reports that follow print
    to the standard output and write the graphs). *)
Definition main (fs : FileSystem) (config : string) : M unit :=
  run DependencyAnalysis_init fs config;
  run make_components fs;
  analyze fs.

(** How the process ends: its exit status and everything it wrote to the
    standard error. *)
Record outcome : Type := {
  exit_code : nat;
  err_stream : list message
}.

(** The guard around [main]: the three handled classes print a diagnostic
    prefixed with their category and exit with 1; any other exception
    leaves the interpreter, which prints the traceback and exits with 1. *)
Definition main_guard (fs : FileSystem) (config : string) : outcome :=
  match main fs config (DependencyAnalysis_new config) with
  | (s, Ok _) => Build_outcome 0 (DependencyAnalysis.stderr s)
  | (s, Raise e) =>
      let diag :=
        match e with
        | IOError m => Diagnostic "IO Error:" m
        | XmlError m => Diagnostic "Configuration XML Error:" m
        | InvalidArgumentError m => Diagnostic "Invalid Argument Error:" m
        | _ => Traceback e
        end in
      Build_outcome 1 (DependencyAnalysis.stderr s ++ [diag])
  end.

(** ** Concrete file systems

    A directory tree given as the list of [(root, dirs, files)] triples
    of its top-down walk, the text of some of its files, and the parsed
    configuration documents. *)

Definition tree_walk (tree : list (string * list string * list string))
    (top : string) : list (string * list string * list string) :=
  filter (fun t => (String.eqb (fst (fst t)) top
                    || str_startswith (top +:+ "/") (fst (fst t))) = true)
         tree.

Definition tree_isfile (tree : list (string * list string * list string))
    (path : string) : bool :=
  existsb (fun t => existsb (fun f => String.eqb (join (fst (fst t)) f) path)
                            (snd t))
          tree.

Definition tree_isdir (tree : list (string * list string * list string))
    (path : string) : bool :=
  existsb (fun t => String.eqb (fst (fst t)) path) tree.

Definition nl (s : string) : string := s +:+ String ch_nl EmptyString.

Definition quoted (s : string) : string :=
  String ch_dquote (s +:+ String ch_dquote EmptyString).

Definition mkfs (tree : list (string * list string * list string))
    (texts : list (string * list string))
    (configs : list (string * result (list package_group_element)))
    : FileSystem :=
  {| fs_isfile := tree_isfile tree;
     fs_isdir := tree_isdir tree;
     fs_walk := tree_walk tree;
     fs_open := fun path =>
       match od_get path texts with
       | Some lines => Ok lines
       | None => if tree_isfile tree path then Ok []
                 else Raise (IOError ("No such file or directory: " +:+ path))
       end;
     fs_getcwd := "/";
     fs_xml := fun path =>
       match od_get path configs with
       | Some r => r
       | None => Raise (IOError ("No such file or directory: " +:+ path))
       end |}.

(** A project with one internal group of two packages and one external
    group: [widget.c] includes its own header second, [gadget.h] includes
    [widget.h] and a header of the external package, [main.c] has no
    header and includes a header found nowhere. *)
Definition demo_tree : list (string * list string * list string) :=
  [ ("/proj", ["src"; "ext"], []);
    ("/proj/src", ["ui"; "app"], []);
    ("/proj/src/ui", [], ["widget.h"; "widget.c"; "gadget.h"]);
    ("/proj/src/app", [], ["main.c"]);
    ("/proj/ext", ["boost"], []);
    ("/proj/ext/boost", ["detail"], ["any.hpp"]);
    ("/proj/ext/boost/detail", [], ["impl.hpp"]) ].

Definition demo_texts : list (string * list string) :=
  [ ("/proj/src/ui/widget.h", [nl "#pragma once"]);
    ("/proj/src/ui/widget.c",
       [nl ("#include " +:+ quoted "gadget.h");
        nl ("#include " +:+ quoted "widget.h")]);
    ("/proj/src/ui/gadget.h",
       [nl ("#include " +:+ quoted "widget.h");
        nl "  #include <boost/detail/impl.hpp>"]);
    ("/proj/src/app/main.c",
       [nl "#include <gadget.h>";
        nl ("#include " +:+ quoted "nowhere.h");
        nl "int main() { return 0; }"]) ].

Definition demo_config : list package_group_element :=
  [ {| grp_role := None; grp_name := "core"; grp_path := "/proj/src";
       grp_packages := [ {| pkg_name := Some "ui";
                            pkg_path_texts := [" ui "] |} ];
       grp_path_texts := ["app"] |};
    {| grp_role := Some "external"; grp_name := "third";
       grp_path := "/proj/ext";
       grp_packages := [];
       grp_path_texts := ["boost"] |} ].

Definition demo_fs : FileSystem :=
  mkfs demo_tree demo_texts
       [ ("cppdep.xml", Ok demo_config);
         ("broken.xml", Raise (ParseError "unclosed token: line 1, column 0")) ].

Definition demo_run : DependencyAnalysis.t * result unit :=
  main demo_fs "cppdep.xml" (DependencyAnalysis_new "cppdep.xml").

Definition deps_of (key : string) (s : DependencyAnalysis.t)
    : option (list string * list ExternalComponent.t) :=
  c ← od_get key (DependencyAnalysis.components s);
  Some (elements (Component.dep_internal_components c),
        elements (Component.dep_external_components c)).

(** ** Predicates used in the statements *)

(** The includes of the implementation file contain the component's own
    header basename. *)
Definition includes_own_header (c : Component.t) : Prop :=
  Component.hfile c ∈ map (fun x => Some (basename (Include.hfile x)))
                          (Component.includes_in_c c).

(** The first include of the implementation file is the component's own
    header. *)
Definition own_header_first (c : Component.t) : Prop :=
  match Component.includes_in_c c with
  | first :: _ => Component.hfile c = Some (basename (Include.hfile first))
  | [] => False
  end.

(** The extensionless base names of what [find] yields, in order. *)
Definition bases (found : list (string * string)) : list string :=
  map (fun x => strip_ext (fst x)) found.

(** Everything the walks of a package's paths yield, in the order the
    pairing meets it. *)
Definition all_hfiles (fs : FileSystem) (paths : list string)
    : list (string * string) :=
  flat_map (fun path => find fs path _RE_HFILE) paths.

Definition all_cfiles (fs : FileSystem) (paths : list string)
    : list (string * string) :=
  flat_map (fun path => find fs path _RE_CFILE) paths.

(** What [Component.__init__] establishes for a component of a package. *)
Definition constructed_for (package : Package.t) (c : Component.t) : Prop :=
  Component.name c
  = strip_ext (str_drop (String.length (Package.root package) + 1)
                 (default EmptyString
                    (py_or (Component.hpath c) (Component.cpath c))))
  /\ Component.hfile c
     = (if truthy (Component.hpath c) then basename <$> Component.hpath c
        else None)
  /\ Component.package c = (Package.group package, Package.name package)
  /\ Component.dep_internal_components c = ∅
  /\ Component.dep_external_components c = ∅
  /\ truthy (Component.hpath c) || truthy (Component.cpath c) = true.

(** The listed files can be opened and read. *)
Definition readable (fs : FileSystem) (paths : list string) : Prop :=
  forall path, path ∈ paths -> is_ok (fs_open fs path) = true.

(** The references of [internal_components] are live and lead to the
    component whose header basename is the key. *)
Definition internal_components_ok (s : DependencyAnalysis.t) : Prop :=
  forall hfile key,
    DependencyAnalysis.internal_components s !! hfile = Some key ->
    exists c, od_get key (DependencyAnalysis.components s) = Some c
              /\ Component.hfile c = Some hfile.

(** How file pairing for a set of packages extends the component store:
    what was stored stays, and what is new was constructed for one of the
    packages. *)
Definition store_extends (pkgs : Package.t -> Prop)
    (s s' : DependencyAnalysis.t) : Prop :=
  (forall k c, od_get k (DependencyAnalysis.components s) = Some c ->
               od_get k (DependencyAnalysis.components s') = Some c)
  /\ (forall k c, od_get k (DependencyAnalysis.components s') = Some c ->
                  od_get k (DependencyAnalysis.components s) = Some c
                  \/ exists package, pkgs package /\ constructed_for package c)
  /\ (NoDup (od_keys (DependencyAnalysis.components s)) ->
      NoDup (od_keys (DependencyAnalysis.components s')))
  /\ (internal_components_ok s -> internal_components_ok s')
  /\ DependencyAnalysis.external_groups s' = DependencyAnalysis.external_groups s
  /\ DependencyAnalysis.external_components s'
     = DependencyAnalysis.external_components s.

(** The analysis after one iteration of the first loop of
    [__construct_components] has stored the component [c] under [key]. *)
Definition paired_store (key : string) (c : Component.t)
    (s : DependencyAnalysis.t) : DependencyAnalysis.t :=
  let s1 := DependencyAnalysis.set_components
              (od_set key c (DependencyAnalysis.components s)) s in
  match Component.hfile c with
  | Some hfile =>
      DependencyAnalysis.set_internal_components
        (<[hfile := key]> (DependencyAnalysis.internal_components s1)) s1
  | None => s1
  end.

(** The same for the second loop. *)
Definition unpaired_store (key : string) (c : Component.t)
    (s : DependencyAnalysis.t) : DependencyAnalysis.t :=
  DependencyAnalysis.set_components
    (od_set key c (DependencyAnalysis.components s)) s.

(** The packages of the internal groups of an analysis. *)
Definition internal_package (s : DependencyAnalysis.t) (p : Package.t) : Prop :=
  exists g, g ∈ od_values (DependencyAnalysis.internal_groups s)
            /\ p ∈ od_values (PackageGroup.packages g).

(** The demonstration project after the configuration is parsed, and
    after file pairing. *)
Definition demo_parsed : DependencyAnalysis.t * result unit :=
  DependencyAnalysis_init demo_fs "cppdep.xml"
    (DependencyAnalysis_new "cppdep.xml").

Definition demo_made : DependencyAnalysis.t * result unit :=
  make_components demo_fs (fst demo_parsed).


(** The component of [widget.h] and [widget.c] of the demonstration
    project, as file pairing builds it. *)
Definition demo_widget : Component.t :=
  Component.mk "widget" (Some "/proj/src/ui/widget.h") (Some "widget.h")
    (Some "/proj/src/ui/widget.c") ("core", "ui") ∅ ∅ []
    [Include.init "gadget.h" true; Include.init "widget.h" true].

(** A package with two implementation files of the same base name. *)
Definition dupc_fs : FileSystem :=
  mkfs [ ("/p", ["a"; "b"], []);
         ("/p/a", [], ["x.c"; "y.h"]);
         ("/p/b", [], ["x.cpp"]) ]
       [] [].

Definition dupc_package : Package.t :=
  Package.mk "p" ["/p"] "g" "/p" [].

(** The reading of the header collision policy under which the component
    built for a base name holds the first header path met by the walks
    of the package. *)
Definition component_holds_first_header (fs : FileSystem)
    (package : Package.t) : Prop :=
  forall s s' hfile hpath,
    make_package_components fs package s = (s', Ok tt) ->
    od_get hfile (all_hfiles fs (Package.paths package)) = Some hpath ->
    exists c, od_get (strip_ext hfile) (DependencyAnalysis.components s') = Some c
              /\ Component.hpath c = Some hpath.

(** Header paths met by the walks, keyed by extensionless base name,
    latest first. *)
Definition latest_by_base (found : list (string * string))
    : list (string * string) :=
  rev (map (fun x => (strip_ext (fst x), snd x)) found).

(** A package with two headers of the same name. *)
Definition duph_fs : FileSystem :=
  mkfs [ ("/q", ["a"; "b"], []);
         ("/q/a", [], ["x.h"]);
         ("/q/b", [], ["x.h"]) ]
       [] [].

Definition duph_package : Package.t :=
  Package.mk "q" ["/q"] "g" "/q" [].

(** Two internal packages with a component of the same base name:
    [a.h] in package [p], [a.cpp] in package [q]. *)
Definition xpkg_fs : FileSystem :=
  mkfs [ ("/r", ["p"; "q"], []);
         ("/r/p", [], ["a.h"]);
         ("/r/q", [], ["a.cpp"]) ]
       []
       [ ("cppdep.xml",
          Ok [ {| grp_role := Some "internal"; grp_name := "g";
                  grp_path := "/r"; grp_packages := [];
                  grp_path_texts := ["p"; "q"] |} ]) ].

Definition xpkg_p : Package.t := Package.mk "p" ["/r/p"] "g" "/r/p" [].
Definition xpkg_q : Package.t := Package.mk "q" ["/r/q"] "g" "/r/q" [].

(** Every file named [hfile] under the directories of the external
    packages, in the order the search of [locate] meets them: the path
    of the file and the external component it would create. *)
Definition external_hits (fs : FileSystem) (hfile : string)
    (external_groups : odict PackageGroup.t)
    : list (string * ExternalComponent.t) :=
  flat_map (fun group =>
    flat_map (fun package =>
      flat_map (fun dir_path =>
        omap (fun '(root, _, files) =>
                if bool_decide (hfile ∈ files)
                then Some (join root hfile,
                           ExternalComponent.mk hfile
                             (Package.group package, Package.name package))
                else None)
             (fs_walk fs dir_path))
        (Package.paths package))
      (od_values (PackageGroup.packages group)))
    (od_values external_groups).

(** The component of [gadget.h] of the demonstration project, as file
    pairing builds it. *)
Definition demo_gadget : Component.t :=
  Component.mk "gadget" (Some "/proj/src/ui/gadget.h") (Some "gadget.h")
    None ("core", "ui") ∅ ∅
    [Include.init "widget.h" true; Include.init "boost/detail/impl.hpp" false]
    [].

(** What the loop of [analyze] over the snapshot [todo] of the component
    store maintains. *)
Definition analysis_inv (todo : odict Component.t) (s : DependencyAnalysis.t)
    : Prop :=
  internal_components_ok s
  /\ (forall key c, (key, c) ∈ todo ->
        exists c0, od_get key (DependencyAnalysis.components s) = Some c0
                   /\ Component.hfile c0 = Component.hfile c)
  /\ (forall k c, od_get k (DependencyAnalysis.components s) = Some c ->
        k ∉ Component.dep_internal_components c).

(** ** Forgetting the delimiters of include directives *)

(** The same directive, component, message and analysis with every
    [with_quotes] flag reset: two analyses differ only in the flags of
    some directives exactly when their erasures are equal. *)
Definition erase_include (i : Include.t) : Include.t :=
  Include.mk (Include.hfile i) false (Include.hpath i).

Definition erase_component (c : Component.t) : Component.t :=
  Component.set_includes (map erase_include (Component.includes_in_h c))
                         (map erase_include (Component.includes_in_c c)) c.

Definition erase_entry (kc : string * Component.t) : string * Component.t :=
  (fst kc, erase_component (snd kc)).

Definition erase_message (m : message) : message :=
  match m with
  | WarnHeaderNotFound i => WarnHeaderNotFound (erase_include i)
  | _ => m
  end.

Definition erase_state (s : DependencyAnalysis.t) : DependencyAnalysis.t :=
  DependencyAnalysis.set_stderr
    (map erase_message (DependencyAnalysis.stderr s))
    (DependencyAnalysis.set_components
       (map erase_entry (DependencyAnalysis.components s)) s).

(** The dependency edges recorded for a component of the store. *)
Definition edges_of (key : string) (s : DependencyAnalysis.t)
    : option (gset string * gset ExternalComponent.t) :=
  (fun c => (Component.dep_internal_components c,
             Component.dep_external_components c))
  <$> od_get key (DependencyAnalysis.components s).

(** The standard error of [s'] holds no message of [Include.locate]
    that the standard error of [s] does not hold. *)
Definition no_new_locate_message (s s' : DependencyAnalysis.t) : Prop :=
  forall hfile,
    WarnHeaderNotFoundIn hfile ∈ DependencyAnalysis.stderr s' ->
    WarnHeaderNotFoundIn hfile ∈ DependencyAnalysis.stderr s.

(** The demonstration project after pairing, with every quoted include
    turned into an angled one, and a file system that differs from the
    demonstration one in what [os.path.isfile] answers. *)
Definition demo_angled : DependencyAnalysis.t := erase_state (fst demo_made).

Definition demo_fs_nofile : FileSystem :=
  {| fs_isfile := fun _ => false;
     fs_isdir := fs_isdir demo_fs;
     fs_walk := fs_walk demo_fs;
     fs_open := fs_open demo_fs;
     fs_getcwd := "/elsewhere";
     fs_xml := fs_xml demo_fs |}.

(** ** What a match tells

    The text a pattern consumes and the groups it sets, read off the
    pattern without regard to the order in which a backtracking matcher
    tries the alternatives. *)
Fixpoint den (r : regex) (consumed : string) (cs cs' : captures) : Prop :=
  match r with
  | REmpty | RBol | REol => consumed = EmptyString /\ cs' = cs
  | RClass p => exists a, consumed = String a EmptyString /\ p a = true /\ cs' = cs
  | RStar p => str_all p consumed = true /\ cs' = cs
  | RSeq r1 r2 =>
      exists c1 c2 cs1,
        consumed = c1 +:+ c2 /\ den r1 c1 cs cs1 /\ den r2 c2 cs1 cs'
  | RAlt r1 r2 => den r1 consumed cs cs' \/ den r2 consumed cs cs'
  | RGroup name r1 =>
      exists cs1, den r1 consumed cs cs1 /\ cs' = (name, consumed) :: cs1
  end.

(** The line that writes a directive back. *)
Definition synthesize (include : Include.t) : string :=
  "#include " +:+ Include.str include.

(** A file written back from the directives of [gadget.h]. *)
Definition synth_fs : FileSystem :=
  mkfs [ ("/s", [], ["synth.h"]) ]
       [ ("/s/synth.h",
          map (fun i => nl (synthesize i)) (Component.includes_in_h demo_gadget)) ]
       [].

(** ** The resolution phase, read declaratively *)

(** The header basename a directive refers to. *)
Definition include_base (i : Include.t) : string := basename (Include.hfile i).

(** The directive is neither the component's own header nor the header
    of an internal component, so it is looked up among the externals. *)
Definition resolves_outside (s : DependencyAnalysis.t) (c : Component.t)
    (i : Include.t) : bool :=
  negb (bool_decide (Some (include_base i) = Component.hfile c))
  && match DependencyAnalysis.internal_components s !! include_base i with
     | Some _ => false
     | None => true
     end.

(** The internal component a directive of [c] leads to, if any. *)
Definition internal_target (s : DependencyAnalysis.t) (c : Component.t)
    (i : Include.t) : option string :=
  if bool_decide (Some (include_base i) = Component.hfile c) then None
  else DependencyAnalysis.internal_components s !! include_base i.

(** The external component a directive of [c] leads to, if any: the one
    known under that basename, or else the one the search of the
    external packages creates. *)
Definition external_target (fs : FileSystem) (s : DependencyAnalysis.t)
    (c : Component.t) (i : Include.t) : option ExternalComponent.t :=
  if resolves_outside s c i then
    match DependencyAnalysis.external_components s !! include_base i with
    | Some e => Some e
    | None => snd <$> find_external_component fs (include_base i)
                        (DependencyAnalysis.external_groups s)
    end
  else None.

(** The directive leads nowhere: it is looked up among the externals,
    is not known there and no file of that name is under the
    directories of the external packages. *)
Definition unresolved (fs : FileSystem) (s : DependencyAnalysis.t)
    (c : Component.t) (i : Include.t) : bool :=
  resolves_outside s c i
  && match DependencyAnalysis.external_components s !! include_base i with
     | Some _ => false
     | None => true
     end
  && match find_external_component fs (include_base i)
             (DependencyAnalysis.external_groups s) with
     | Some _ => false
     | None => true
     end.

Definition opt_set `{Countable A} (o : option A) : gset A :=
  match o with Some x => {[x]} | None => ∅ end.

(** All the directives of a component, in the order [analyze] takes them. *)
Definition all_includes (c : Component.t) : list Include.t :=
  Component.includes_in_h c ++ Component.includes_in_c c.

(** The attributes of a component that resolution leaves alone. *)
Definition same_identity (c c' : Component.t) : Prop :=
  Component.name c' = Component.name c
  /\ Component.hpath c' = Component.hpath c
  /\ Component.hfile c' = Component.hfile c
  /\ Component.cpath c' = Component.cpath c
  /\ Component.package c' = Component.package c.

(** How the analysis may differ from an earlier one during resolution,
    the component store and the standard error apart: nothing changes
    but the cache of external components, which only gains entries, each
    of them the first hit of the search for its key. *)
Definition evolves (fs : FileSystem) (s s' : DependencyAnalysis.t) : Prop :=
  DependencyAnalysis.config_file s' = DependencyAnalysis.config_file s
  /\ DependencyAnalysis.internal_components s'
     = DependencyAnalysis.internal_components s
  /\ DependencyAnalysis.internal_hfiles s' = DependencyAnalysis.internal_hfiles s
  /\ DependencyAnalysis.external_groups s' = DependencyAnalysis.external_groups s
  /\ DependencyAnalysis.internal_groups s' = DependencyAnalysis.internal_groups s
  /\ (forall h e, DependencyAnalysis.external_components s !! h = Some e ->
        DependencyAnalysis.external_components s' !! h = Some e)
  /\ (forall h e, DependencyAnalysis.external_components s' !! h = Some e ->
        DependencyAnalysis.external_components s !! h = Some e
        \/ (DependencyAnalysis.external_components s !! h = None
            /\ exists found,
                 find_external_component fs h
                   (DependencyAnalysis.external_groups s) = Some (found, e))).

(** The header path of component [k] of the store, if any. *)
Definition store_hpath (s : DependencyAnalysis.t) (k : string) : option string :=
  od_get k (DependencyAnalysis.components s) ≫= Component.hpath.

(** What resolution leaves in a directive [i] of [c]: the text and the
    flag as they were; the path untouched when the directive leads
    nowhere, and otherwise the header path of the component itself, the
    header path of the internal component it leads to, or some path for
    an external header. *)
Definition include_outcome (fs : FileSystem) (s : DependencyAnalysis.t)
    (c : Component.t) (i i' : Include.t) : Prop :=
  Include.hfile i' = Include.hfile i
  /\ Include.with_quotes i' = Include.with_quotes i
  /\ if unresolved fs s c i then Include.hpath i' = Include.hpath i
     else if bool_decide (Some (include_base i) = Component.hfile c)
     then Include.hpath i' = Component.hpath c
     else match DependencyAnalysis.internal_components s !! include_base i with
          | Some dep => Include.hpath i' = store_hpath s dep
          | None => is_Some (Include.hpath i')
          end.

(** The messages of the inner loop of [analyze] for one component. *)
Definition not_found_messages (fs : FileSystem) (s : DependencyAnalysis.t)
    (c : Component.t) (includes : list Include.t) : list message :=
  map WarnHeaderNotFound (filter (fun i => unresolved fs s c i = true) includes).

(** A component [c] of the analysis [s] as resolution leaves it. *)
Definition analyzed (fs : FileSystem) (s : DependencyAnalysis.t)
    (c c' : Component.t) : Prop :=
  same_identity c c'
  /\ Forall2 (include_outcome fs s c) (Component.includes_in_h c)
                                      (Component.includes_in_h c')
  /\ Forall2 (include_outcome fs s c) (Component.includes_in_c c)
                                      (Component.includes_in_c c')
  /\ Component.dep_internal_components c'
     = Component.dep_internal_components c
       ∪ list_to_set (omap (internal_target s c) (all_includes c))
  /\ Component.dep_external_components c'
     = Component.dep_external_components c
       ∪ list_to_set (omap (external_target fs s c) (all_includes c)).

(** Everything [analyze] prints for one component: the directives that
    lead nowhere, in order, then the hygiene warning. *)
Definition component_messages (fs : FileSystem) (s : DependencyAnalysis.t)
    (kc : string * Component.t) : list message :=
  not_found_messages fs s (snd kc) (all_includes (snd kc))
  ++ check_include_issues (snd kc).

(** The package [ui] of the demonstration project with the base names of
    its headers, and implementation base names of which one has no
    header; and its pairing from an empty analysis. *)
Definition demo_ui : Package.t :=
  Package.mk "ui" ["/proj/src/ui"] "core" "/proj/src/ui" [].

Definition demo_hbases : odict string :=
  [("widget", "/proj/src/ui/widget.h"); ("gadget", "/proj/src/ui/gadget.h")].

Definition demo_cbases : odict string :=
  [("main", "/proj/src/app/main.c"); ("widget", "/proj/src/ui/widget.c")].

Definition demo_paired : DependencyAnalysis.t * result unit :=
  construct_components demo_fs demo_ui demo_hbases demo_cbases
    (DependencyAnalysis_new "cppdep.xml").

(** The package [app] of the demonstration project. *)
Definition demo_app : Package.t :=
  Package.mk "app" ["/proj/src/app"] "core" "/proj/src/app" [].

(** ** What a match tells, with its context

    [matches r pos consumed rest cs cs']: the pattern matches the text
    [consumed] at position [pos] of the subject, followed by [rest], and
    turns the groups [cs] into [cs'].  Unlike [den] it keeps what the
    anchors look at. *)
Fixpoint matches (r : regex) (pos : nat) (consumed rest : string)
    (cs cs' : captures) : Prop :=
  match r with
  | REmpty => consumed = EmptyString /\ cs' = cs
  | RBol => consumed = EmptyString /\ cs' = cs /\ pos = 0
  | REol =>
      consumed = EmptyString /\ cs' = cs
      /\ (rest = EmptyString \/ rest = String ch_nl EmptyString)
  | RClass p => exists a, consumed = String a EmptyString /\ p a = true /\ cs' = cs
  | RStar p => str_all p consumed = true /\ cs' = cs
  | RSeq r1 r2 =>
      exists c1 c2 cs1,
        consumed = c1 +:+ c2
        /\ matches r1 pos c1 (c2 +:+ rest) cs cs1
        /\ matches r2 (pos + String.length c1) c2 rest cs1 cs'
  | RAlt r1 r2 => matches r1 pos consumed rest cs cs'
                  \/ matches r2 pos consumed rest cs cs'
  | RGroup name r1 =>
      exists cs1, matches r1 pos consumed rest cs cs1
                  /\ cs' = (name, consumed) :: cs1
  end.

(** A string in lower case, as a pattern compiled with [(?i)] sees it. *)
Fixpoint str_lower (s : string) : string :=
  match s with
  | EmptyString => EmptyString
  | String c s' => String (to_lower c) (str_lower s')
  end.

(** The file names with one of the extensions [exts], whatever the case
    of its letters: a stem without line feed, a dot, the extension and
    nothing more than a final line feed. *)
Definition has_extension (exts : list string) (name : string) : Prop :=
  exists stem ext tail,
    name = stem +:+ "." +:+ ext +:+ tail
    /\ str_all cls_any stem = true
    /\ str_lower ext ∈ exts
    /\ (tail = EmptyString \/ tail = String ch_nl EmptyString).

(** The two file name patterns differ only by the letter [l] of the
    extension: [(?i).*\.l(xx|\+\+|l|pp|)$]. *)
Definition re_source_file (l : ascii) : regex :=
  re_seq [RStar cls_any;
          RSeq (RClass (cls_lit_i ch_dot)) (RClass (cls_lit_i l));
          RGroup "1" (re_alt [re_lit_i "xx"; re_lit_i "++";
                              RClass (cls_lit_i l); re_lit_i "pp"; REmpty]);
          REol].

(** ** Kinds of warnings *)

(** The warning of [Component.__init__]. *)
Definition is_incomplete_warning (m : message) : bool :=
  match m with
  | WarnIncompleteComponent _ _ _ => true
  | _ => false
  end.

(** The warnings of the resolution phase. *)
Definition is_include_warning (m : message) : bool :=
  match m with
  | WarnHeaderNotFound _ | WarnMissingInclude _ _ | WarnIncludeOrder _ _ => true
  | _ => false
  end.

(** [s'] has printed, after what [s] had, only messages of the kind [P]. *)
Definition prints_only (P : message -> bool) (s s' : DependencyAnalysis.t)
    : Prop :=
  exists l, DependencyAnalysis.stderr s' = DependencyAnalysis.stderr s ++ l
            /\ Forall (fun m => P m = true) l.

(** The implementation file of the package [app], which has no header,
    and the pairing of the package from an empty analysis. *)
Definition demo_app_cbases : odict string :=
  [("main", "/proj/src/app/main.c")].

Definition demo_app_paired : DependencyAnalysis.t * result unit :=
  construct_components demo_fs demo_app [] demo_app_cbases
    (DependencyAnalysis_new "cppdep.xml").

(** ** The source files of a package *)

(** The header and implementation files that [make_components] finds
    for a package, as [(basename, path)]: what [find] yields for its
    directories, the headers first. *)
Definition package_files (fs : FileSystem) (p : Package.t)
    : list (string * string) :=
  all_hfiles fs (Package.paths p) ++ all_cfiles fs (Package.paths p).

(** The packages of the internal groups, in the order in which
    [make_components] takes them. *)
Definition internal_packages (s : DependencyAnalysis.t) : list Package.t :=
  flat_map (fun g => od_values (PackageGroup.packages g))
           (od_values (DependencyAnalysis.internal_groups s)).



(** The configuration as parsed, before file pairing. *)
Definition parsed (fs : FileSystem) (config : string) : DependencyAnalysis.t :=
  fst (DependencyAnalysis_init fs config (DependencyAnalysis_new config)).

(** A project of two internal packages [p] and [q] in which [a.h] of [p]
    and [a.cpp] of [q] share the base name [a], and the header [0.h] of
    [q], which is found first, cannot be opened. *)
Definition xio_fs : FileSystem :=
  let fs := mkfs [ ("/r", ["p"; "q"], []);
                   ("/r/p", [], ["a.h"]);
                   ("/r/q", [], ["0.h"; "a.cpp"]) ]
                 []
                 [ ("cppdep.xml",
                    Ok [ {| grp_role := Some "internal"; grp_name := "g";
                            grp_path := "/r"; grp_packages := [];
                            grp_path_texts := ["p"; "q"] |} ]) ] in
  {| fs_isfile := fs_isfile fs;
     fs_isdir := fs_isdir fs;
     fs_walk := fs_walk fs;
     fs_open := fun path =>
       if String.eqb path "/r/q/0.h"
       then Raise (IOError "[Errno 13] Permission denied: '/r/q/0.h'")
       else fs_open fs path;
     fs_getcwd := fs_getcwd fs;
     fs_xml := fs_xml fs |}.

(** * Properties *)

(** ** Sanity checks of the library models *)

Example basename_ex : basename "/usr/include/a.h" = "a.h".
Proof. reflexivity. Qed.
Example basename_ex2 : basename "boost/any.hpp" = "any.hpp".
Proof. reflexivity. Qed.
Example dirname_ex : dirname "/g/src/ab" = "/g/src".
Proof. reflexivity. Qed.
Example strip_ext_ex : strip_ext "dir.d/a.tar.h" = "dir.d/a.tar".
Proof. reflexivity. Qed.
Example strip_ext_ex2 : strip_ext "dir.d/.hidden" = "dir.d/.hidden".
Proof. reflexivity. Qed.
Example strip_ext_ex3 : strip_ext "dir.d/noext" = "dir.d/noext".
Proof. reflexivity. Qed.
Example normpath_ex : normpath "a//b/./../c/" = "a/c".
Proof. reflexivity. Qed.
Example normpath_ex2 : normpath "/../x" = "/x".
Proof. reflexivity. Qed.
Example join_ex : join "/g" "src" = "/g/src".
Proof. reflexivity. Qed.
Example commonprefix_ex : commonprefix ["/g/src/a"; "/g/src/ab"] = "/g/src/a".
Proof. reflexivity. Qed.
Example common_path_ex1 : common_path ["/g/src"] = Ok "/g/src".
Proof. reflexivity. Qed.
Example common_path_ex2 : common_path ["/g/src/a"; "/g/src/ab"] = Ok "/g/src".
Proof. reflexivity. Qed.
Example common_path_ex3 : common_path ["/g/a/"; "/g/a/b"] = Ok "/g/a".
Proof. reflexivity. Qed.
Example common_path_ex4 : common_path ["/a"; "/b"] = Ok EmptyString.
Proof. reflexivity. Qed.
Example hfile_ex1 : fnmatch _RE_HFILE "a.h" = true. Proof. reflexivity. Qed.
Example hfile_ex2 : fnmatch _RE_HFILE "a.HPP" = true. Proof. reflexivity. Qed.
Example hfile_ex3 : fnmatch _RE_HFILE "a.h++" = true. Proof. reflexivity. Qed.
Example hfile_ex4 : fnmatch _RE_HFILE "a.hp" = false. Proof. reflexivity. Qed.
Example hfile_ex5 : fnmatch _RE_HFILE "a.cpp" = false. Proof. reflexivity. Qed.
Example hfile_ex6 : fnmatch _RE_HFILE "a.h.bak" = false. Proof. reflexivity. Qed.
Example cfile_ex1 : fnmatch _RE_CFILE "a.cc" = true. Proof. reflexivity. Qed.
Example cfile_ex2 : fnmatch _RE_CFILE "x.y.C" = true. Proof. reflexivity. Qed.
Example cfile_ex3 : fnmatch _RE_CFILE "a.h" = false. Proof. reflexivity. Qed.
Example grep_line_ex1 :
  Include.grep_line "#include <vector>" = Some (Include.mk "vector" false None).
Proof. reflexivity. Qed.
Example grep_line_ex2 :
  Include.grep_line ("  # include <a.h>" +:+ String ch_nl EmptyString) = None.
Proof. reflexivity. Qed.
Example grep_line_ex3 :
  Include.grep_line ("  #include<a/b.h> // <c>" +:+ String ch_nl EmptyString)
  = Some (Include.mk "a/b.h> // <c" false None).
Proof. reflexivity. Qed.
Example grep_line_ex4 :
  Include.grep_line (String ch_dquote "#include <a.h>") = None.
Proof. reflexivity. Qed.
Example grep_line_ex5 :
  Include.grep_line
    ("#include " +:+ String ch_dquote ("a.h" +:+ String ch_dquote " x"))
  = Some (Include.mk "a.h" true None).
Proof. reflexivity. Qed.
Example grep_line_ex6 : Include.grep_line "int x; #include <a.h>" = None.
Proof. reflexivity. Qed.

(** ** The monad *)

Lemma for_each_warn (msgs : list message) (s : DependencyAnalysis.t) :
  for_each warn msgs s
  = (DependencyAnalysis.set_stderr (DependencyAnalysis.stderr s ++ msgs) s,
     Ok tt).
Proof.
  revert s. induction msgs as [|m msgs IH]; intros s; simpl.
  - unfold ret. rewrite app_nil_r. now destruct s.
  - unfold bind, warn, modify. rewrite IH. simpl.
    now rewrite <- app_assoc.
Qed.

(** ** Include hygiene *)

(** C6: running the include hygiene check of a component from any state
    writes to the standard error, for a component with both files,
    exactly the missing-include warning when the implementation file
    does not include the component's own header, exactly the
    include-order warning when it does but not first, and nothing
    otherwise; for a component lacking either file it writes nothing.
    The check always returns normally, and it leaves the components, with
    their dependency edges, and the cache of external components as they
    were. *)
Theorem check_include_issues_spec (c : Component.t) :
  let emit := for_each warn (check_include_issues c) in
  (truthy (Component.hpath c) = true -> truthy (Component.cpath c) = true ->
   (~ includes_own_header c ->
      check_include_issues c
      = [WarnMissingInclude (default EmptyString (Component.cpath c))
                            (default EmptyString (Component.hfile c))]
      /\ forall s,
           DependencyAnalysis.stderr (fst (emit s))
           = DependencyAnalysis.stderr s
             ++ [WarnMissingInclude (default EmptyString (Component.cpath c))
                                    (default EmptyString (Component.hfile c))])
   /\ (includes_own_header c -> ~ own_header_first c ->
      check_include_issues c
      = [WarnIncludeOrder (default EmptyString (Component.hfile c))
                          (default EmptyString (Component.cpath c))]
      /\ forall s,
           DependencyAnalysis.stderr (fst (emit s))
           = DependencyAnalysis.stderr s
             ++ [WarnIncludeOrder (default EmptyString (Component.hfile c))
                                  (default EmptyString (Component.cpath c))])
   /\ (includes_own_header c -> own_header_first c ->
      check_include_issues c = []
      /\ forall s,
           DependencyAnalysis.stderr (fst (emit s))
           = DependencyAnalysis.stderr s))
  /\ (truthy (Component.hpath c) = false \/ truthy (Component.cpath c) = false ->
      check_include_issues c = []
      /\ forall s,
           DependencyAnalysis.stderr (fst (emit s))
           = DependencyAnalysis.stderr s)
  /\ (forall s : DependencyAnalysis.t,
        emit s
        = (DependencyAnalysis.set_stderr
             (DependencyAnalysis.stderr s ++ check_include_issues c) s, Ok tt)
        /\ snd (emit s) = Ok tt
        /\ DependencyAnalysis.stderr (fst (emit s))
           = DependencyAnalysis.stderr s ++ check_include_issues c
        /\ DependencyAnalysis.components (fst (emit s))
           = DependencyAnalysis.components s
        /\ DependencyAnalysis.external_components (fst (emit s))
           = DependencyAnalysis.external_components s
        /\ DependencyAnalysis.internal_components (fst (emit s))
           = DependencyAnalysis.internal_components s).
Proof.
  intros emit.
  assert (Herr : forall s, DependencyAnalysis.stderr (fst (emit s))
                           = DependencyAnalysis.stderr s
                             ++ check_include_issues c).
  { intros s. unfold emit. rewrite for_each_warn. now destruct s. }
  assert (Hcases :
    (truthy (Component.hpath c) = true -> truthy (Component.cpath c) = true ->
     (~ includes_own_header c ->
        check_include_issues c
        = [WarnMissingInclude (default EmptyString (Component.cpath c))
                              (default EmptyString (Component.hfile c))])
     /\ (includes_own_header c -> ~ own_header_first c ->
        check_include_issues c
        = [WarnIncludeOrder (default EmptyString (Component.hfile c))
                            (default EmptyString (Component.cpath c))])
     /\ (includes_own_header c -> own_header_first c ->
        check_include_issues c = []))
    /\ (truthy (Component.hpath c) = false
        \/ truthy (Component.cpath c) = false ->
        check_include_issues c = [])).
  { unfold check_include_issues, includes_own_header, own_header_first.
    split.
    - intros Hh Hc. rewrite Hh, Hc. simpl.
      repeat split.
      + intros Hn. now rewrite bool_decide_eq_false_2.
      + intros Hin Hnf. rewrite bool_decide_eq_true_2 by assumption. simpl.
        destruct (Component.includes_in_c c) as [|first rest].
        * now apply not_elem_of_nil in Hin.
        * now rewrite bool_decide_eq_false_2.
      + intros Hin Hf. rewrite bool_decide_eq_true_2 by assumption. simpl.
        destruct (Component.includes_in_c c) as [|first rest]; [reflexivity|].
        now rewrite bool_decide_eq_true_2.
    - intros [H|H]; rewrite H; simpl; [reflexivity|].
      now rewrite orb_true_r. }
  destruct Hcases as [Hboth Hlack].
  split; [|split].
  - intros Hh Hc. destruct (Hboth Hh Hc) as (Hmiss & Hord & Hnone).
    split_and!.
    + intros Hn. split; [now apply Hmiss|].
      intros s. now rewrite Herr, (Hmiss Hn).
    + intros Hin Hnf. split; [now apply Hord|].
      intros s. now rewrite Herr, (Hord Hin Hnf).
    + intros Hin Hf. split; [now apply Hnone|].
      intros s. now rewrite Herr, (Hnone Hin Hf), app_nil_r.
  - intros H. split; [now apply Hlack|].
    intros s. now rewrite Herr, (Hlack H), app_nil_r.
  - intros s. split_and!; [ | | apply Herr | | | ];
      unfold emit; rewrite for_each_warn; now destruct s.
Qed.

Lemma check_include_issues_witness :
  DependencyAnalysis.stderr
    (fst (for_each warn (check_include_issues demo_widget) (fst demo_made)))
  = DependencyAnalysis.stderr (fst demo_made)
    ++ [WarnIncludeOrder "widget.h" "/proj/src/ui/widget.c"].
Proof.
  destruct (check_include_issues_spec demo_widget) as [H _].
  destruct (H eq_refl eq_refl) as (_ & Horder & _).
  apply Horder.
  - apply (bool_decide_unpack _). vm_compute. exact I.
  - intros Hf. vm_compute in Hf. discriminate.
Defined.

(** ** Insertion-ordered dictionaries *)

Section odict_facts.
Context {V : Type}.
Implicit Types (d : odict V) (k : string) (v : V).

Lemma eqb_true k k' : String.eqb k k' = true <-> k = k'.
Proof. apply String.eqb_eq. Qed.

Lemma eqb_false k k' : String.eqb k k' = false <-> k <> k'.
Proof. apply String.eqb_neq. Qed.

Lemma od_mem_true k d : od_mem k d = true <-> k ∈ od_keys d.
Proof.
  unfold od_mem. induction d as [|[k' v'] d IH]; simpl.
  - split; [discriminate|]. intros H. now apply not_elem_of_nil in H.
  - destruct (String.eqb k' k) eqn:E.
    + apply eqb_true in E. subst. split; [|easy]. intros _. apply list_elem_of_here.
    + apply eqb_false in E. rewrite IH. split.
      * intros H. now apply list_elem_of_further.
      * intros H. apply elem_of_cons in H as [H|H]; [congruence|exact H].
Qed.

Lemma od_mem_false k d : od_mem k d = false <-> k ∉ od_keys d.
Proof.
  rewrite <- od_mem_true. destruct (od_mem k d); split; congruence.
Qed.

Lemma od_get_None k d : od_get k d = None <-> k ∉ od_keys d.
Proof.
  rewrite <- od_mem_false. unfold od_mem.
  destruct (od_get k d); split; congruence.
Qed.

Lemma od_get_set_eq k v d : od_get k (od_set k v d) = Some v.
Proof.
  induction d as [|[k' v'] d IH]; simpl.
  - now rewrite String.eqb_refl.
  - destruct (String.eqb k' k) eqn:E; simpl; now rewrite E.
Qed.

Lemma od_get_set_ne k k' v d : k <> k' -> od_get k' (od_set k v d) = od_get k' d.
Proof.
  intros Hne. induction d as [|[k0 v0] d IH]; simpl.
  - apply eqb_false in Hne. now rewrite Hne.
  - destruct (String.eqb k0 k) eqn:E; simpl.
    + apply eqb_true in E. subst k0. apply eqb_false in Hne. now rewrite Hne.
    + destruct (String.eqb k0 k'); [reflexivity|exact IH].
Qed.

Lemma od_keys_set_new k v d :
  k ∉ od_keys d -> od_keys (od_set k v d) = od_keys d ++ [k].
Proof.
  induction d as [|[k0 v0] d IH]; simpl; intros Hn; [reflexivity|].
  apply not_elem_of_cons in Hn as [Hne Hn].
  destruct (String.eqb k0 k) eqn:E.
  - apply eqb_true in E. congruence.
  - simpl. f_equal. now apply IH.
Qed.

Lemma od_keys_set_old k v d :
  k ∈ od_keys d -> od_keys (od_set k v d) = od_keys d.
Proof.
  induction d as [|[k0 v0] d IH]; simpl; intros Hin.
  - now apply not_elem_of_nil in Hin.
  - destruct (String.eqb k0 k) eqn:E; simpl; [reflexivity|].
    f_equal. apply IH. apply elem_of_cons in Hin as [Hin|Hin]; [|exact Hin].
    apply eqb_false in E. congruence.
Qed.

Lemma od_keys_set_NoDup k v d : NoDup (od_keys d) -> NoDup (od_keys (od_set k v d)).
Proof.
  intros Hnd. destruct (decide (k ∈ od_keys d)) as [Hin|Hn].
  - now rewrite od_keys_set_old.
  - rewrite od_keys_set_new by assumption.
    apply NoDup_app. repeat split; [assumption| |apply NoDup_singleton].
    intros x Hx Hx'. apply list_elem_of_singleton in Hx'. now subst.
Qed.

Lemma od_mem_set k k' v d :
  od_mem k' (od_set k v d) = if decide (k = k') then true else od_mem k' d.
Proof.
  unfold od_mem. destruct (decide (k = k')) as [->|Hne].
  - now rewrite od_get_set_eq.
  - now rewrite od_get_set_ne.
Qed.

Lemma od_get_del_ne k k' d : k <> k' -> od_get k' (od_del k d) = od_get k' d.
Proof.
  intros Hne. induction d as [|[k0 v0] d IH]; simpl; [reflexivity|].
  destruct (String.eqb k0 k) eqn:E; simpl.
  - apply eqb_true in E. subst k0. apply eqb_false in Hne. now rewrite Hne.
  - destruct (String.eqb k0 k'); [reflexivity|exact IH].
Qed.

Lemma od_get_elem_of k v d : od_get k d = Some v -> (k, v) ∈ d.
Proof.
  induction d as [|[k0 v0] d IH]; simpl; [discriminate|].
  destruct (String.eqb k0 k) eqn:E.
  - apply eqb_true in E. intros [= ->]. subst. apply list_elem_of_here.
  - intros H. apply list_elem_of_further. now apply IH.
Qed.

Lemma od_elem_of_get k v d : NoDup (od_keys d) -> (k, v) ∈ d -> od_get k d = Some v.
Proof.
  induction d as [|[k0 v0] d IH]; simpl; intros Hnd Hin.
  - now apply not_elem_of_nil in Hin.
  - apply NoDup_cons in Hnd as [Hn Hnd].
    apply elem_of_cons in Hin as [[= -> ->]|Hin].
    + now rewrite String.eqb_refl.
    + destruct (String.eqb k0 k) eqn:E; [|now apply IH].
      apply eqb_true in E. subst k0. exfalso. apply Hn.
      apply list_elem_of_fmap. now exists (k, v).
Qed.

End odict_facts.

(** ** Collecting the files of a package *)

Lemma find_cfiles_loop_exn found cbases e :
  find_cfiles_loop found cbases = Raise e -> e = AssertionError.
Proof.
  revert cbases. induction found as [|[cfile cpath] found IH]; intros cbases; simpl.
  - discriminate.
  - destruct (od_mem (strip_ext cfile) cbases); [now intros [= <-]|apply IH].
Qed.

Lemma find_cfiles_loop_keys found cbases cbases' :
  find_cfiles_loop found cbases = Ok cbases' ->
  od_keys cbases' = od_keys cbases ++ bases found.
Proof.
  revert cbases. induction found as [|[cfile cpath] found IH]; intros cbases; simpl.
  - intros [= <-]. now rewrite app_nil_r.
  - destruct (od_mem (strip_ext cfile) cbases) eqn:E; [discriminate|].
    intros H. apply IH in H. rewrite H.
    apply od_mem_false in E. rewrite (od_keys_set_new _ _ _ E).
    now rewrite <- app_assoc.
Qed.

Lemma find_cfiles_loop_NoDup found cbases cbases' :
  find_cfiles_loop found cbases = Ok cbases' ->
  NoDup (od_keys cbases) -> NoDup (od_keys cbases').
Proof.
  revert cbases. induction found as [|[cfile cpath] found IH]; intros cbases; simpl.
  - now intros [= <-].
  - destruct (od_mem (strip_ext cfile) cbases); [discriminate|].
    intros H Hnd. apply (IH _ H). now apply od_keys_set_NoDup.
Qed.

Lemma collect_files_exn fs paths hbases cbases hfiles e :
  collect_files fs paths hbases cbases hfiles = Raise e -> e = AssertionError.
Proof.
  revert hbases cbases hfiles.
  induction paths as [|p paths IH]; intros hbases cbases hfiles; simpl.
  - discriminate.
  - destruct (find_hfiles fs p hbases hfiles) as [hb hf].
    unfold find_cfiles.
    destruct (find_cfiles_loop (find fs p _RE_CFILE) cbases) eqn:E.
    + apply IH.
    + intros [= <-]. now apply find_cfiles_loop_exn in E.
Qed.

Lemma collect_files_ok fs paths hbases cbases hfiles hbases' cbases' hfiles' :
  collect_files fs paths hbases cbases hfiles = Ok (hbases', cbases', hfiles') ->
  od_keys cbases' = od_keys cbases ++ bases (all_cfiles fs paths)
  /\ (NoDup (od_keys cbases) -> NoDup (od_keys cbases'))
  /\ (hbases', hfiles')
     = fold_left find_hfiles_step (all_hfiles fs paths) (hbases, hfiles).
Proof.
  revert hbases cbases hfiles.
  induction paths as [|p paths IH]; intros hbases cbases hfiles; simpl.
  - intros [= <- <- <-]. now rewrite app_nil_r.
  - unfold find_hfiles at 1.
    destruct (fold_left find_hfiles_step (find fs p _RE_HFILE) (hbases, hfiles))
      as [hb hf] eqn:Eh.
    unfold find_cfiles.
    destruct (find_cfiles_loop (find fs p _RE_CFILE) cbases) as [cb|] eqn:Ec;
      [|discriminate].
    intros H. apply IH in H as (Hk & Hnd & Hh).
    split; [|split].
    + rewrite Hk, (find_cfiles_loop_keys _ _ _ Ec).
      unfold bases. now rewrite map_app, <- app_assoc.
    + intros Hn. apply Hnd. now apply (find_cfiles_loop_NoDup _ _ _ Ec).
    + now rewrite fold_left_app, Eh.
Qed.

(** C7: when the walks of a package's paths meet two implementation
    files with the same extensionless basename, collecting the files
    raises [AssertionError]; pairing for the package stops there, with no
    component built and the analysis untouched. *)
Theorem duplicate_cfiles_assertion (fs : FileSystem) (package : Package.t)
    (s : DependencyAnalysis.t) l1 l2 l3 f1 p1 f2 p2 :
  all_cfiles fs (Package.paths package)
  = l1 ++ (f1, p1) :: l2 ++ (f2, p2) :: l3 ->
  strip_ext f1 = strip_ext f2 ->
  collect_files fs (Package.paths package) [] [] [] = Raise AssertionError
  /\ make_package_components fs package s = (s, Raise AssertionError).
Proof.
  intros Hall Heq.
  assert (Hc : collect_files fs (Package.paths package) [] [] []
               = Raise AssertionError).
  { destruct (collect_files fs (Package.paths package) [] [] [])
      as [[[hb cb] hf]|e] eqn:E.
    - apply collect_files_ok in E as (Hk & Hnd & _). exfalso.
      specialize (Hnd (NoDup_nil_2)). rewrite Hk, Hall in Hnd. simpl in Hnd.
      unfold bases in Hnd. rewrite map_app in Hnd. simpl in Hnd.
      rewrite map_app in Hnd. simpl in Hnd.
      apply NoDup_app in Hnd as (_ & _ & Hnd).
      apply NoDup_cons in Hnd as [Hn _]. apply Hn.
      apply elem_of_app. right. rewrite Heq. apply list_elem_of_here.
    - f_equal. now apply collect_files_exn in E. }
  split; [exact Hc|].
  unfold make_package_components, bind, lift. now rewrite Hc.
Qed.

Lemma duplicate_cfiles_witness :
  collect_files dupc_fs (Package.paths dupc_package) [] [] []
  = Raise AssertionError
  /\ make_package_components dupc_fs dupc_package (DependencyAnalysis_new "c")
     = (DependencyAnalysis_new "c", Raise AssertionError).
Proof.
  apply (duplicate_cfiles_assertion dupc_fs dupc_package _
           [] [] [] "x.c" "/p/a/x.c" "x.cpp" "/p/b/x.cpp");
    vm_compute; reflexivity.
Defined.

(** ** Construction of components *)

Ltac unfold_M :=
  unfold bind, ret, assert, warn, modify, lift, raise, get_self,
         store_component, register_component in *.

Lemma grep_if_spec fs path s s' r :
  grep_if fs path s = (s', r) ->
  s' = s
  /\ (forall e, r = Raise e -> exists p, path = Some p /\ fs_open fs p = Raise e).
Proof.
  unfold grep_if. destruct path as [p|]; [destruct (str_is_empty p)|];
    unfold_M; intros [= <- <-]; (split; [reflexivity|]); try discriminate.
  intros e. unfold Include.grep.
  destruct (fs_open fs p) eqn:E; [discriminate|]. intros [= <-]. now exists p.
Qed.

Lemma Component_init_spec fs key hpath cpath package s s' r :
  Component_init fs key hpath cpath package s = (s', r) ->
  DependencyAnalysis.components s' = DependencyAnalysis.components s
  /\ DependencyAnalysis.internal_components s'
     = DependencyAnalysis.internal_components s
  /\ DependencyAnalysis.internal_hfiles s' = DependencyAnalysis.internal_hfiles s
  /\ DependencyAnalysis.external_groups s' = DependencyAnalysis.external_groups s
  /\ DependencyAnalysis.external_components s'
     = DependencyAnalysis.external_components s
  /\ (forall c, r = Ok c ->
        Component.hpath c = hpath /\ Component.cpath c = cpath
        /\ constructed_for package c)
  /\ (forall e, r = Raise e ->
        e = AssertionError
        \/ exists p, (hpath = Some p \/ cpath = Some p)
                     /\ fs_open fs p = Raise e).
Proof.
  unfold Component_init.
  destruct (truthy hpath || truthy cpath) eqn:Et; unfold_M; simpl.
  2:{ intros [= <- <-]. repeat split; try discriminate.
      intros e [= <-]. now left. }
  destruct (negb (truthy hpath)) eqn:Eneg; simpl;
    (match goal with
     | |- context [grep_if fs hpath ?sa] =>
         destruct (grep_if fs hpath sa) as [sb rb] eqn:Eh;
         apply grep_if_spec in Eh as [-> Hrb]
     end);
    (destruct rb as [in_h|e];
     [|intros [= <- <-]; repeat split; try discriminate;
       intros e' [= <-]; right;
       destruct (Hrb e eq_refl) as (p & -> & Hp); exists p; auto]);
    (match goal with
     | |- context [grep_if fs cpath ?sa] =>
         destruct (grep_if fs cpath sa) as [sc rc] eqn:Ec;
         apply grep_if_spec in Ec as [-> Hrc]
     end);
    (destruct rc as [in_c|e];
     [|intros [= <- <-]; repeat split; try discriminate;
       intros e' [= <-]; right;
       destruct (Hrc e eq_refl) as (p & -> & Hp); exists p; auto]);
    intros [= <- <-]; simpl; repeat split; try discriminate;
    (match goal with H : Ok _ = Ok _ |- _ => injection H as <- end);
    simpl; try reflexivity; try assumption;
    now destruct (truthy hpath).
Qed.

Lemma construct_paired_cons fs package key hpath rest cbases s s' r :
  construct_paired fs package ((key, hpath) :: rest) cbases s = (s', r) ->
  (od_mem key (DependencyAnalysis.components s) = true
   /\ s' = s /\ r = Raise AssertionError)
  \/ (od_mem key (DependencyAnalysis.components s) = false
      /\ exists e,
           Component_init fs key (Some hpath) (od_get key cbases) package s
           = (s', Raise e) /\ r = Raise e)
  \/ (od_mem key (DependencyAnalysis.components s) = false
      /\ exists s1 c,
           Component_init fs key (Some hpath) (od_get key cbases) package s
           = (s1, Ok c)
           /\ construct_paired fs package rest
                (if od_mem key cbases then od_del key cbases else cbases)
                (paired_store key c s1) = (s', r)).
Proof.
  simpl. unfold_M.
  destruct (od_mem key (DependencyAnalysis.components s)) eqn:Em; simpl.
  - intros [= <- <-]. now left.
  - destruct (Component_init fs key (Some hpath) (od_get key cbases) package s)
      as [s1 [c|e]] eqn:Ei.
    + intros H. right. right. split; [reflexivity|]. exists s1, c.
      split; [reflexivity|]. unfold paired_store.
      destruct (Component.hfile c); simpl in *; exact H.
    + intros [= <- <-]. right. left. split; [reflexivity|]. now exists e.
Qed.

Lemma construct_unpaired_cons fs package key cpath rest s s' r :
  construct_unpaired fs package ((key, cpath) :: rest) s = (s', r) ->
  (od_mem key (DependencyAnalysis.components s) = true
   /\ s' = s /\ r = Raise AssertionError)
  \/ (od_mem key (DependencyAnalysis.components s) = false
      /\ exists e,
           Component_init fs key None (Some cpath) package s = (s', Raise e)
           /\ r = Raise e)
  \/ (od_mem key (DependencyAnalysis.components s) = false
      /\ exists s1 c,
           Component_init fs key None (Some cpath) package s = (s1, Ok c)
           /\ construct_unpaired fs package rest (unpaired_store key c s1)
              = (s', r)).
Proof.
  simpl. unfold_M.
  destruct (od_mem key (DependencyAnalysis.components s)) eqn:Em; simpl.
  - intros [= <- <-]. now left.
  - destruct (Component_init fs key None (Some cpath) package s)
      as [s1 [c|e]] eqn:Ei.
    + intros H. right. right. split; [reflexivity|]. exists s1, c.
      split; [reflexivity|]. exact H.
    + intros [= <- <-]. right. left. split; [reflexivity|]. now exists e.
Qed.

Lemma store_extends_refl pkgs s : store_extends pkgs s s.
Proof. unfold store_extends. repeat split; auto. Qed.

Lemma store_extends_trans pkgs s1 s2 s3 :
  store_extends pkgs s1 s2 -> store_extends pkgs s2 s3 ->
  store_extends pkgs s1 s3.
Proof.
  intros (A1 & B1 & C1 & D1 & E1 & F1) (A2 & B2 & C2 & D2 & E2 & F2).
  unfold store_extends. repeat split; auto; try congruence.
  intros k c H. apply B2 in H as [H|H]; [|now right]. now apply B1.
Qed.

Lemma store_extends_mono (pkgs pkgs' : Package.t -> Prop) s s' :
  (forall p, pkgs p -> pkgs' p) ->
  store_extends pkgs s s' -> store_extends pkgs' s s'.
Proof.
  intros Hsub (A & B & C & D & E & F). unfold store_extends.
  repeat split; auto.
  intros k c H. apply B in H as [H|(p & Hp & Hc)]; [now left|right].
  exists p. auto.
Qed.

Lemma store_extends_init fs key hpath cpath package pkgs s s' r :
  Component_init fs key hpath cpath package s = (s', r) ->
  store_extends pkgs s s'.
Proof.
  intros H. apply Component_init_spec in H as (Hc & Hi & _ & He & Hx & _).
  unfold store_extends, internal_components_ok. rewrite Hc, Hi, He, Hx.
  repeat split; auto.
Qed.

Lemma store_extends_paired (pkgs : Package.t -> Prop) package key c s :
  pkgs package -> constructed_for package c ->
  od_mem key (DependencyAnalysis.components s) = false ->
  store_extends pkgs s (paired_store key c s).
Proof.
  intros Hp Hc Hm.
  assert (Hn : od_get key (DependencyAnalysis.components s) = None).
  { apply od_get_None. now apply od_mem_false. }
  assert (Hcomp : DependencyAnalysis.components (paired_store key c s)
                  = od_set key c (DependencyAnalysis.components s)).
  { unfold paired_store. now destruct (Component.hfile c). }
  unfold store_extends. rewrite Hcomp. repeat split.
  - intros k c0 H. rewrite od_get_set_ne; [exact H|]. congruence.
  - intros k c0 H. destruct (decide (key = k)) as [->|Hne].
    + rewrite od_get_set_eq in H. injection H as <-. right. now exists package.
    + rewrite od_get_set_ne in H by assumption. now left.
  - apply od_keys_set_NoDup.
  - intros Hok h k. unfold internal_components_ok. rewrite Hcomp.
    unfold paired_store.
    destruct (Component.hfile c) as [h0|] eqn:Eh; simpl.
    + rewrite lookup_insert. case_decide as Hd.
      * intros [= <-]. subst h0. exists c. now rewrite od_get_set_eq.
      * intros H. apply Hok in H as (c0 & H0 & H1). exists c0.
        rewrite od_get_set_ne; [auto|]. congruence.
    + intros H. apply Hok in H as (c0 & H0 & H1). exists c0.
      rewrite od_get_set_ne; [auto|]. congruence.
  - unfold paired_store. now destruct (Component.hfile c).
  - unfold paired_store. now destruct (Component.hfile c).
Qed.

Lemma store_extends_unpaired (pkgs : Package.t -> Prop) package key c s :
  pkgs package -> constructed_for package c ->
  od_mem key (DependencyAnalysis.components s) = false ->
  store_extends pkgs s (unpaired_store key c s).
Proof.
  intros Hp Hc Hm.
  assert (Hn : od_get key (DependencyAnalysis.components s) = None).
  { apply od_get_None. now apply od_mem_false. }
  unfold store_extends, unpaired_store. simpl. repeat split.
  - intros k c0 H. rewrite od_get_set_ne; [exact H|]. congruence.
  - intros k c0 H. destruct (decide (key = k)) as [->|Hne].
    + rewrite od_get_set_eq in H. injection H as <-. right. now exists package.
    + rewrite od_get_set_ne in H by assumption. now left.
  - apply od_keys_set_NoDup.
  - intros Hok h k H. apply Hok in H as (c0 & H0 & H1). exists c0. simpl.
    rewrite od_get_set_ne; [auto|]. congruence.
Qed.

Lemma construct_paired_extends fs package hbases cbases s s' r :
  construct_paired fs package hbases cbases s = (s', r) ->
  store_extends (eq package) s s'.
Proof.
  revert cbases s. induction hbases as [|[key hpath] rest IH]; intros cbases s.
  - simpl. unfold_M. intros [= <- <-]. apply store_extends_refl.
  - intros H. apply construct_paired_cons in H
      as [(_ & -> & _)|[(_ & e & Hi & _)|(Hm & s1 & c & Hi & Hrest)]].
    + apply store_extends_refl.
    + eapply store_extends_init; exact Hi.
    + eapply store_extends_trans; [eapply store_extends_init; exact Hi|].
      pose proof (Component_init_spec _ _ _ _ _ _ _ _ Hi)
        as (Hc & _ & _ & _ & _ & Hok & _).
      destruct (Hok c eq_refl) as (_ & _ & Hcf).
      eapply store_extends_trans; [|apply (IH _ _ Hrest)].
      eapply store_extends_paired; eauto. now rewrite Hc.
Qed.

Lemma construct_unpaired_extends fs package cbases s s' r :
  construct_unpaired fs package cbases s = (s', r) ->
  store_extends (eq package) s s'.
Proof.
  revert s. induction cbases as [|[key cpath] rest IH]; intros s.
  - simpl. unfold_M. intros [= <- <-]. apply store_extends_refl.
  - intros H. apply construct_unpaired_cons in H
      as [(_ & -> & _)|[(_ & e & Hi & _)|(Hm & s1 & c & Hi & Hrest)]].
    + apply store_extends_refl.
    + eapply store_extends_init; exact Hi.
    + eapply store_extends_trans; [eapply store_extends_init; exact Hi|].
      pose proof (Component_init_spec _ _ _ _ _ _ _ _ Hi)
        as (Hc & _ & _ & _ & _ & Hok & _).
      destruct (Hok c eq_refl) as (_ & _ & Hcf).
      eapply store_extends_trans; [|apply (IH _ Hrest)].
      eapply store_extends_unpaired; eauto. now rewrite Hc.
Qed.

Lemma construct_components_extends fs package hbases cbases s s' r :
  construct_components fs package hbases cbases s = (s', r) ->
  store_extends (eq package) s s'.
Proof.
  unfold construct_components, bind.
  destruct (construct_paired fs package hbases cbases s) as [s1 [cb|e]] eqn:E1.
  - intros H. eapply store_extends_trans.
    + eapply construct_paired_extends; eauto.
    + eapply construct_unpaired_extends; eauto.
  - intros [= <- <-]. eapply construct_paired_extends; eauto.
Qed.

Lemma for_each_inv {A} (body : A -> M unit) (P : DependencyAnalysis.t -> Prop)
    (l : list A) :
  (forall x s s' r, x ∈ l -> P s -> body x s = (s', r) -> P s') ->
  forall s s' r, P s -> for_each body l s = (s', r) -> P s'.
Proof.
  induction l as [|x l IH]; intros Hbody s s' r HP; simpl.
  - unfold ret. now intros [= <- <-].
  - unfold bind. destruct (body x s) as [s1 [[]|e]] eqn:E.
    + apply IH.
      * intros y t t' q Hy. apply Hbody. now apply list_elem_of_further.
      * eapply Hbody; eauto. apply list_elem_of_here.
    + intros [= <- <-]. eapply Hbody; eauto. apply list_elem_of_here.
Qed.

Lemma make_package_components_extends fs package s s' r :
  make_package_components fs package s = (s', r) ->
  store_extends (eq package) s s'.
Proof.
  unfold make_package_components. unfold_M.
  destruct (collect_files fs (Package.paths package) [] [] [])
    as [[[hb cb] hf]|e].
  - intros H. apply construct_components_extends in H.
    eapply store_extends_trans; [|exact H].
    unfold store_extends, internal_components_ok. simpl. repeat split; auto.
  - intros [= <- <-]. apply store_extends_refl.
Qed.

Lemma make_components_extends fs s s' r :
  make_components fs s = (s', r) ->
  store_extends (internal_package s) s s'.
Proof.
  unfold make_components. unfold_M.
  apply (for_each_inv _ (store_extends (internal_package s) s)).
  - intros g t t' q Hg Ht.
    apply (for_each_inv _ (store_extends (internal_package s) s)); [|exact Ht].
    intros p u u' w Hp Hu Hb. eapply store_extends_trans; [exact Hu|].
    apply make_package_components_extends in Hb.
    eapply store_extends_mono; [|exact Hb].
    intros p' <-. now exists g.
  - apply store_extends_refl.
Qed.

(** ** Component names *)

Lemma str_drop_root (root rel : string) :
  str_drop (String.length root + 1) (root +:+ "/" +:+ rel) = rel.
Proof.
  induction root as [|c a IH]; simpl; [reflexivity|exact IH].
Qed.


(** ** The top-level guard *)

(** C5, on the code: a configuration that is not well-formed XML makes
    [ElementTree.parse] raise [ParseError], which none of the three
    handlers catches; the process ends with status 1 and a traceback, not
    with a diagnostic of the category [Configuration XML Error:]. *)
Theorem malformed_config_outcome (fs : FileSystem) (config msg : string) :
  fs_xml fs config = Raise (ParseError msg) ->
  main_guard fs config
  = {| exit_code := 1; err_stream := [Traceback (ParseError msg)] |}
  /\ str_startswith "Configuration XML Error:"
                    (render (Traceback (ParseError msg))) = false.
Proof.
  intros H. split; [|reflexivity].
  unfold main_guard, main, DependencyAnalysis_init, parse_xml_config.
  unfold_M. rewrite H. reflexivity.
Qed.

Lemma malformed_config_witness :
  main_guard demo_fs "broken.xml"
  = {| exit_code := 1;
       err_stream :=
         [Traceback (ParseError "unclosed token: line 1, column 0")] |}
  /\ str_startswith "Configuration XML Error:"
       (render (Traceback (ParseError "unclosed token: line 1, column 0")))
     = false.
Proof.
  apply (malformed_config_outcome demo_fs "broken.xml"
           "unclosed token: line 1, column 0").
  reflexivity.
Defined.

(** ** Header collisions *)

Lemma od_get_app {V} k (d1 d2 : odict V) :
  od_get k (d1 ++ d2)
  = match od_get k d1 with Some v => Some v | None => od_get k d2 end.
Proof.
  induction d1 as [|[k0 v0] d1 IH]; simpl; [reflexivity|].
  now destruct (String.eqb k0 k).
Qed.

Lemma find_hfiles_fold found hbases hfiles hbases' hfiles' :
  fold_left find_hfiles_step found (hbases, hfiles) = (hbases', hfiles') ->
  (forall k, od_get k hfiles'
             = match od_get k hfiles with
               | Some p => Some p
               | None => od_get k found
               end)
  /\ (forall k, od_get k hbases'
                = match od_get k (latest_by_base found) with
                  | Some p => Some p
                  | None => od_get k hbases
                  end).
Proof.
  revert hbases hfiles.
  induction found as [|[hfile hpath] found IH]; intros hbases hfiles; simpl.
  - intros [= <- <-]. split; intros k; [now destruct (od_get k hfiles)|reflexivity].
  - intros H. apply IH in H as [Hf Hb]. split; intros k.
    + rewrite Hf. destruct (od_mem hfile hfiles) eqn:Em; simpl.
      * destruct (od_get k hfiles) eqn:Ek; [reflexivity|].
        destruct (String.eqb hfile k) eqn:E; [|reflexivity].
        apply eqb_true in E. subst. unfold od_mem in Em. now rewrite Ek in Em.
      * destruct (String.eqb hfile k) eqn:E.
        -- apply eqb_true in E. subst. rewrite od_get_set_eq.
           unfold od_mem in Em. now destruct (od_get k hfiles).
        -- apply eqb_false in E. now rewrite od_get_set_ne.
    + rewrite Hb. unfold latest_by_base. simpl. rewrite od_get_app. simpl.
      destruct (od_get k (rev _)); [reflexivity|].
      destruct (String.eqb (strip_ext hfile) k) eqn:E.
      * apply eqb_true in E. subst. now rewrite od_get_set_eq.
      * apply eqb_false in E. now rewrite od_get_set_ne.
Qed.

Lemma merge_hfiles_lookup hfiles (internal_hfiles : gmap string string) k :
  merge_hfiles hfiles internal_hfiles !! k
  = match internal_hfiles !! k with
    | Some p => Some p
    | None => od_get k hfiles
    end.
Proof.
  unfold merge_hfiles. revert internal_hfiles.
  induction hfiles as [|[hfile hpath] hfiles IH]; intros ih; simpl.
  - now destruct (ih !! k).
  - rewrite IH. destruct (ih !! hfile) eqn:Eh.
    + destruct (ih !! k) eqn:Ek; [reflexivity|].
      destruct (String.eqb hfile k) eqn:E; [|reflexivity].
      apply eqb_true in E. congruence.
    + rewrite lookup_insert. case_decide as Hd.
      * subst. rewrite Eh. now rewrite String.eqb_refl.
      * apply eqb_false in Hd. now rewrite Hd.
Qed.

Lemma construct_paired_built fs package hbases cbases s s' cbases' :
  construct_paired fs package hbases cbases s = (s', Ok cbases') ->
  forall key hpath, (key, hpath) ∈ hbases ->
    exists c, od_get key (DependencyAnalysis.components s') = Some c
              /\ Component.hpath c = Some hpath.
Proof.
  revert cbases s. induction hbases as [|[k0 h0] rest IH]; intros cbases s H key hpath Hin.
  - now apply not_elem_of_nil in Hin.
  - apply construct_paired_cons in H
      as [(_ & _ & [=])|[(_ & e & _ & [=])|(Hm & s1 & c & Hi & Hrest)]].
    apply elem_of_cons in Hin as [[= -> ->]|Hin]; [|eapply IH; eauto].
    pose proof (Component_init_spec _ _ _ _ _ _ _ _ Hi)
      as (_ & _ & _ & _ & _ & Hok & _).
    destruct (Hok c eq_refl) as (Hh & _ & _).
    apply construct_paired_extends in Hrest as (Hold & _).
    exists c. split; [|exact Hh]. apply Hold.
    unfold paired_store. destruct (Component.hfile c); simpl;
      apply od_get_set_eq.
Qed.

Lemma construct_paired_hfiles fs package hbases cbases s s' r :
  construct_paired fs package hbases cbases s = (s', r) ->
  DependencyAnalysis.internal_hfiles s' = DependencyAnalysis.internal_hfiles s.
Proof.
  revert cbases s. induction hbases as [|[k0 h0] rest IH]; intros cbases s H.
  - simpl in H. unfold_M. now injection H as <- <-.
  - apply construct_paired_cons in H
      as [(_ & -> & _)|[(_ & e & Hi & _)|(Hm & s1 & c & Hi & Hrest)]].
    + reflexivity.
    + now apply Component_init_spec in Hi as (_ & _ & Hi & _).
    + apply IH in Hrest. rewrite Hrest.
      apply Component_init_spec in Hi as (_ & _ & Hi & _).
      unfold paired_store. now destruct (Component.hfile c).
Qed.

Lemma construct_unpaired_hfiles fs package cbases s s' r :
  construct_unpaired fs package cbases s = (s', r) ->
  DependencyAnalysis.internal_hfiles s' = DependencyAnalysis.internal_hfiles s.
Proof.
  revert s. induction cbases as [|[k0 h0] rest IH]; intros s H.
  - simpl in H. unfold_M. now injection H as <- <-.
  - apply construct_unpaired_cons in H
      as [(_ & -> & _)|[(_ & e & Hi & _)|(Hm & s1 & c & Hi & Hrest)]].
    + reflexivity.
    + now apply Component_init_spec in Hi as (_ & _ & Hi & _).
    + apply IH in Hrest. rewrite Hrest.
      now apply Component_init_spec in Hi as (_ & _ & Hi & _).
Qed.

(** C2, as the code has it: within a package the header index ([hfiles],
    merged into [internal_hfiles]) keeps the first path met for a header
    name and never replaces an entry it already has, while the component
    of a base name is built from [hbases], which holds the last path met
    for that base name. *)
Theorem header_collision_policy (fs : FileSystem) (package : Package.t)
    (s s' : DependencyAnalysis.t) :
  make_package_components fs package s = (s', Ok tt) ->
  (forall hfile,
     DependencyAnalysis.internal_hfiles s' !! hfile
     = match DependencyAnalysis.internal_hfiles s !! hfile with
       | Some p => Some p
       | None => od_get hfile (all_hfiles fs (Package.paths package))
       end)
  /\ (forall key hpath,
        od_get key (latest_by_base (all_hfiles fs (Package.paths package)))
        = Some hpath ->
        exists c,
          od_get key (DependencyAnalysis.components s') = Some c
          /\ Component.hpath c = Some hpath).
Proof.
  unfold make_package_components. unfold_M.
  destruct (collect_files fs (Package.paths package) [] [] [])
    as [[[hb cb] hf]|e] eqn:Ec; [|discriminate].
  apply collect_files_ok in Ec as (_ & _ & Hfold). symmetry in Hfold.
  apply find_hfiles_fold in Hfold as [Hf Hb].
  unfold construct_components, bind.
  match goal with |- context [construct_paired fs package hb cb ?s0] =>
    set (s1 := s0);
    destruct (construct_paired fs package hb cb s1) as [s2 [cb'|e]] eqn:Ep
  end; [|discriminate].
  intros Hu. split.
  - intros hfile.
    rewrite (construct_unpaired_hfiles _ _ _ _ _ _ Hu),
      (construct_paired_hfiles _ _ _ _ _ _ _ Ep). subst s1. simpl.
    rewrite merge_hfiles_lookup.
    destruct (DependencyAnalysis.internal_hfiles s !! hfile); [reflexivity|].
    now rewrite Hf.
  - intros key hpath Hl.
    assert (Hin : (key, hpath) ∈ hb).
    { apply od_get_elem_of. rewrite Hb, Hl. reflexivity. }
    destruct (construct_paired_built _ _ _ _ _ _ _ Ep key hpath Hin)
      as (c & Hc & Hh).
    exists c. split; [|exact Hh].
    apply construct_unpaired_extends in Hu as (Hold & _). now apply Hold.
Qed.

(** C2, counterexample: with [x.h] in [/q/a] and in [/q/b], met in that
    order, the component [x] holds [/q/b/x.h], the path met last. *)
Lemma component_holds_last_header :
  ~ component_holds_first_header duph_fs duph_package.
Proof.
  intros H.
  destruct (H (DependencyAnalysis_new "c")
              (fst (make_package_components duph_fs duph_package
                      (DependencyAnalysis_new "c")))
              "x.h" "/q/a/x.h") as (c & Hc & Hh).
  - vm_compute. reflexivity.
  - vm_compute. reflexivity.
  - vm_compute in Hc. injection Hc as <-. vm_compute in Hh. discriminate.
Qed.

Lemma header_collision_witness :
  (forall hfile,
     DependencyAnalysis.internal_hfiles
       (fst (make_package_components duph_fs duph_package
               (DependencyAnalysis_new "c"))) !! hfile
     = match DependencyAnalysis.internal_hfiles (DependencyAnalysis_new "c")
             !! hfile with
       | Some p => Some p
       | None => od_get hfile (all_hfiles duph_fs (Package.paths duph_package))
       end)
  /\ (forall key hpath,
        od_get key (latest_by_base
                      (all_hfiles duph_fs (Package.paths duph_package)))
        = Some hpath ->
        exists c,
          od_get key (DependencyAnalysis.components
                        (fst (make_package_components duph_fs duph_package
                                (DependencyAnalysis_new "c")))) = Some c
          /\ Component.hpath c = Some hpath).
Proof.
  apply (header_collision_policy duph_fs duph_package).
  vm_compute. reflexivity.
Defined.

(** ** Base names shared across packages *)

Lemma od_mem_cons {V} k k0 (v0 : V) d :
  od_mem k ((k0, v0) :: d) = if String.eqb k0 k then true else od_mem k d.
Proof. unfold od_mem. simpl. now destruct (String.eqb k0 k). Qed.

Lemma od_mem_del_ne {V} k k' (d : odict V) :
  k <> k' -> od_mem k' (od_del k d) = od_mem k' d.
Proof. intros H. unfold od_mem. now rewrite od_get_del_ne. Qed.

Lemma od_values_del {V} k (d : odict V) v :
  v ∈ od_values (od_del k d) -> v ∈ od_values d.
Proof.
  induction d as [|[k0 v0] d IH]; simpl; [easy|].
  destruct (String.eqb k0 k); simpl.
  - intros H. apply list_elem_of_further. now apply IH.
  - intros H. apply elem_of_cons in H as [->|H].
    + apply list_elem_of_here.
    + apply list_elem_of_further. now apply IH.
Qed.

Lemma od_get_values {V} k (d : odict V) v :
  od_get k d = Some v -> v ∈ od_values d.
Proof.
  intros H. apply od_get_elem_of in H. apply list_elem_of_fmap.
  now exists (k, v).
Qed.

Lemma paired_store_mem key c s k :
  od_mem k (DependencyAnalysis.components s) = true ->
  od_mem k (DependencyAnalysis.components (paired_store key c s)) = true.
Proof.
  intros H. unfold paired_store.
  destruct (Component.hfile c); simpl; rewrite od_mem_set;
    now destruct (decide (key = k)).
Qed.

Lemma construct_paired_dup fs package key hbases cbases s s' r :
  od_mem key (DependencyAnalysis.components s) = true ->
  construct_paired fs package hbases cbases s = (s', r) ->
  match r with
  | Ok cbases' =>
      od_mem key hbases = false
      /\ (od_mem key cbases = true -> od_mem key cbases' = true)
      /\ (forall p, p ∈ od_values cbases' -> p ∈ od_values cbases)
      /\ od_mem key (DependencyAnalysis.components s') = true
  | Raise e =>
      e = AssertionError
      \/ exists p, (p ∈ od_values hbases \/ p ∈ od_values cbases)
                   /\ fs_open fs p = Raise e
  end.
Proof.
  revert cbases s. induction hbases as [|[k0 h0] rest IH]; intros cbases s Hs H.
  - simpl in H. unfold_M. injection H as <- <-. auto.
  - apply construct_paired_cons in H
      as [(_ & -> & ->)|[(_ & e & Hi & ->)|(Hm & s1 & c & Hi & Hrest)]].
    + now left.
    + apply Component_init_spec in Hi as (_ & _ & _ & _ & _ & _ & He).
      destruct (He e eq_refl) as [->|(p & [[= <-]|Hp] & Ho)]; [now left|right..].
      * exists h0. split; [left; apply list_elem_of_here|exact Ho].
      * exists p. split; [right; eapply od_get_values; eauto|exact Ho].
    + assert (Hne : k0 <> key).
      { intros ->. congruence. }
      pose proof (Component_init_spec _ _ _ _ _ _ _ _ Hi) as (Hc & _).
      assert (Hs1 : od_mem key (DependencyAnalysis.components
                                  (paired_store k0 c s1)) = true).
      { apply paired_store_mem. now rewrite Hc. }
      specialize (IH _ _ Hs1 Hrest). destruct r as [cb'|e].
      * destruct IH as (I1 & I2 & I3 & I4). repeat split; auto.
        -- rewrite od_mem_cons. apply eqb_false in Hne. now rewrite Hne.
        -- intros Hk. apply I2. destruct (od_mem k0 cbases); [|exact Hk].
           now rewrite od_mem_del_ne.
        -- intros p Hp. apply I3 in Hp.
           destruct (od_mem k0 cbases); [|exact Hp]. eapply od_values_del; eauto.
      * destruct IH as [->|(p & [Hp|Hp] & Ho)]; [now left|right..].
        -- exists p. split; [left; now apply list_elem_of_further|exact Ho].
        -- exists p. split; [right|exact Ho].
           destruct (od_mem k0 cbases); [|exact Hp]. eapply od_values_del; eauto.
Qed.

Lemma construct_unpaired_dup fs package key cbases s s' r :
  od_mem key (DependencyAnalysis.components s) = true ->
  od_mem key cbases = true ->
  construct_unpaired fs package cbases s = (s', r) ->
  exists e, r = Raise e
            /\ (e = AssertionError
                \/ exists p, p ∈ od_values cbases /\ fs_open fs p = Raise e).
Proof.
  revert s. induction cbases as [|[k0 c0] rest IH]; intros s Hs Hk H.
  - discriminate.
  - apply construct_unpaired_cons in H
      as [(_ & -> & ->)|[(_ & e & Hi & ->)|(Hm & s1 & c & Hi & Hrest)]].
    + exists AssertionError. auto.
    + exists e. split; [reflexivity|].
      apply Component_init_spec in Hi as (_ & _ & _ & _ & _ & _ & He).
      destruct (He e eq_refl) as [->|(p & [[=]|[= <-]] & Ho)]; [now left|right].
      exists c0. split; [apply list_elem_of_here|exact Ho].
    + assert (Hne : k0 <> key).
      { intros ->. congruence. }
      pose proof (Component_init_spec _ _ _ _ _ _ _ _ Hi) as (Hc & _).
      rewrite od_mem_cons in Hk. apply eqb_false in Hne. rewrite Hne in Hk.
      destruct (IH (unpaired_store k0 c s1)) as (e & -> & He); auto.
      * unfold unpaired_store. simpl. rewrite od_mem_set, Hc.
        now destruct (decide (k0 = key)).
      * exists e. split; [reflexivity|].
        destruct He as [->|(p & Hp & Ho)]; [now left|right].
        exists p. split; [now apply list_elem_of_further|exact Ho].
Qed.

(** ** Resolution of an include *)

Lemma head_app {A} (l1 l2 : list A) :
  head (l1 ++ l2) = match head l1 with Some x => Some x | None => head l2 end.
Proof. now destruct l1. Qed.

Lemma head_flat_map_ext {A B} (f g : A -> list B) (l : list A) :
  (forall x, head (f x) = head (g x)) ->
  head (flat_map f l) = head (flat_map g l).
Proof.
  intros H. induction l as [|x l IH]; simpl; [reflexivity|].
  rewrite !head_app, IH, H. reflexivity.
Qed.

Lemma head_omap_head {A B} (F : A -> list B) (l : list A) :
  head (omap (fun x => head (F x)) l) = head (flat_map F l).
Proof.
  induction l as [|x l IH]; simpl; [reflexivity|].
  rewrite head_app. destruct (head (F x)); [reflexivity|exact IH].
Qed.

Lemma head_omap_fmap {A B C} (f : A -> option B) (g : B -> C) (l : list A) :
  match head (omap f l) with Some b => Some (g b) | None => None end
  = head (omap (fun x => g <$> f x) l).
Proof.
  induction l as [|x l IH]; simpl; [reflexivity|].
  destruct (f x); simpl; [reflexivity|exact IH].
Qed.

Lemma omap_pointwise {A B} (f g : A -> option B) (l : list A) :
  (forall x, f x = g x) -> omap f l = omap g l.
Proof.
  intros H. induction l as [|x l IH]; simpl; [reflexivity|].
  rewrite H. destruct (g x); [f_equal|]; exact IH.
Qed.

Lemma find_external_component_first fs hfile groups :
  find_external_component fs hfile groups
  = head (external_hits fs hfile groups).
Proof.
  unfold find_external_component, external_hits.
  apply head_flat_map_ext. intros group.
  apply head_flat_map_ext. intros package.
  rewrite <- head_omap_head. f_equal. apply omap_pointwise. intros dir_path.
  unfold find_in.
  rewrite (head_omap_fmap _ (fun found => (found, ExternalComponent.mk hfile
             (Package.group package, Package.name package)))).
  f_equal. apply omap_pointwise. intros [[root dirs] files].
  now destruct (bool_decide (hfile ∈ files)).
Qed.

Lemma elem_of_flat_map {A B} (f : A -> list B) (l : list A) (y : B) :
  y ∈ flat_map f l <-> exists x, x ∈ l /\ y ∈ f x.
Proof.
  rewrite list_elem_of_In, in_flat_map. split; intros (x & Hx & Hy); exists x.
  - now rewrite !list_elem_of_In.
  - now rewrite <- !list_elem_of_In.
Qed.

Lemma external_hits_elem fs hfile groups found dep :
  (found, dep) ∈ external_hits fs hfile groups ->
  exists group package dir_path root dirs files,
    group ∈ od_values groups
    /\ package ∈ od_values (PackageGroup.packages group)
    /\ dir_path ∈ Package.paths package
    /\ (root, dirs, files) ∈ fs_walk fs dir_path
    /\ hfile ∈ files
    /\ found = join root hfile
    /\ dep = ExternalComponent.mk hfile
               (Package.group package, Package.name package).
Proof.
  unfold external_hits. intros H.
  apply elem_of_flat_map in H as (group & Hg & H).
  apply elem_of_flat_map in H as (package & Hp & H).
  apply elem_of_flat_map in H as (dir_path & Hd & H).
  apply list_elem_of_omap in H as ([[root dirs] files] & Hw & H).
  case_bool_decide as Hf; [|discriminate]. injection H as <- <-.
  exists group, package, dir_path, root, dirs, files. auto 10.
Qed.



(** ** No self-edges *)

Lemma analyze_include_frame fs include component self self' r :
  analyze_include fs include component self = (self', r) ->
  exists include' component',
    r = Ok (include', component')
    /\ DependencyAnalysis.components self' = DependencyAnalysis.components self
    /\ DependencyAnalysis.internal_components self'
       = DependencyAnalysis.internal_components self
    /\ Component.hfile component' = Component.hfile component
    /\ (forall d, d ∈ Component.dep_internal_components component' ->
          d ∈ Component.dep_internal_components component
          \/ (DependencyAnalysis.internal_components self
                !! basename (Include.hfile include) = Some d
              /\ Some (basename (Include.hfile include))
                 <> Component.hfile component)).
Proof.
  unfold analyze_include, locate, bind.
  case_bool_decide as Hown.
  - intros [= <- <-]. eexists _, _. repeat split; auto.
  - destruct (DependencyAnalysis.internal_components self !! _) as [dep|] eqn:Ei.
    + intros [= <- <-]. eexists _, _. repeat split; auto.
      simpl. intros d Hd. apply elem_of_union in Hd as [Hd|Hd]; [|now left].
      apply elem_of_singleton in Hd. subst. now right.
    + destruct (DependencyAnalysis.external_components self !! _) as [dep|].
      * intros [= <- <-]. eexists _, _. repeat split; auto.
      * destruct (find_external_component _ _ _) as [[found dep]|];
          intros [= <- <-]; eexists _, _; repeat split; auto.
Qed.

Lemma analyze_includes_frame fs includes component self self' r :
  analyze_includes fs includes component self = (self', r) ->
  exists includes' component',
    r = Ok (includes', component')
    /\ DependencyAnalysis.components self' = DependencyAnalysis.components self
    /\ DependencyAnalysis.internal_components self'
       = DependencyAnalysis.internal_components self
    /\ Component.hfile component' = Component.hfile component
    /\ (forall d, d ∈ Component.dep_internal_components component' ->
          d ∈ Component.dep_internal_components component
          \/ exists h,
               DependencyAnalysis.internal_components self !! h = Some d
               /\ Some h <> Component.hfile component).
Proof.
  revert component self self' r.
  induction includes as [|include rest IH]; intros component self self' r; simpl.
  - unfold ret. intros [= <- <-]. eexists _, _. repeat split; auto.
  - unfold bind at 1.
    destruct (analyze_include fs include component self) as [s1 r1] eqn:E1.
    apply analyze_include_frame in E1
      as (i1 & c1 & -> & Hc1 & Hi1 & Hh1 & Hd1).
    unfold bind at 1.
    destruct (analyze_includes fs rest c1 s1) as [s2 r2] eqn:E2.
    apply IH in E2 as (i2 & c2 & -> & Hc2 & Hi2 & Hh2 & Hd2).
    unfold ret. intros [= <- <-]. eexists _, _. repeat split.
    + congruence.
    + congruence.
    + congruence.
    + intros d Hd. apply Hd2 in Hd as [Hd|(h & Hl & Hne)].
      * apply Hd1 in Hd as [Hd|[Hl Hne]]; [now left|right]. eauto.
      * right. exists h. split; congruence.
Qed.

Lemma analyze_component_store fs key component s s' r :
  analyze_component fs (key, component) s = (s', r) ->
  exists component',
    r = Ok tt
    /\ DependencyAnalysis.components s'
       = od_set key component' (DependencyAnalysis.components s)
    /\ DependencyAnalysis.internal_components s'
       = DependencyAnalysis.internal_components s
    /\ Component.hfile component' = Component.hfile component
    /\ (forall d, d ∈ Component.dep_internal_components component' ->
          d ∈ Component.dep_internal_components component
          \/ exists h,
               DependencyAnalysis.internal_components s !! h = Some d
               /\ Some h <> Component.hfile component).
Proof.
  unfold analyze_component. unfold bind at 1.
  destruct (analyze_includes fs (Component.includes_in_h component) component s)
    as [s1 r1] eqn:E1.
  apply analyze_includes_frame in E1 as (in_h & c1 & -> & Hc1 & Hi1 & Hh1 & Hd1).
  unfold bind at 1.
  destruct (analyze_includes fs (Component.includes_in_c component) c1 s1)
    as [s2 r2] eqn:E2.
  apply analyze_includes_frame in E2 as (in_c & c2 & -> & Hc2 & Hi2 & Hh2 & Hd2).
  unfold bind, store_component, modify. rewrite for_each_warn.
  intros [= <- <-]. exists (Component.set_includes in_h in_c c2).
  simpl. repeat split; try congruence.
  intros d Hd. apply Hd2 in Hd as [Hd|(h & Hl & Hne)].
  - apply Hd1 in Hd as [Hd|(h & Hl & Hne)]; [now left|right]. eauto.
  - right. exists h. split; congruence.
Qed.

Lemma analyze_component_inv fs todo key component s s' r :
  (forall k c, (k, c) ∈ todo -> k ∉ Component.dep_internal_components c) ->
  (key, component) ∈ todo ->
  analysis_inv todo s ->
  analyze_component fs (key, component) s = (s', r) ->
  analysis_inv todo s'.
Proof.
  intros Htodo Hin (Hok & Hsnap & Hself) H.
  apply analyze_component_store in H as (c' & _ & Hc & Hi & Hh & Hd).
  destruct (Hsnap _ _ Hin) as (c0 & Hc0 & Hh0).
  unfold analysis_inv, internal_components_ok. rewrite Hc, Hi.
  split; [|split].
  - intros h k Hl. destruct (Hok _ _ Hl) as (c1 & Hc1 & Hh1).
    destruct (decide (key = k)) as [->|Hne].
    + exists c'. rewrite od_get_set_eq. split; congruence.
    + exists c1. now rewrite od_get_set_ne.
  - intros k c Hk. destruct (Hsnap _ _ Hk) as (c1 & Hc1 & Hh1).
    destruct (decide (key = k)) as [->|Hne].
    + exists c'. rewrite od_get_set_eq. split; congruence.
    + exists c1. now rewrite od_get_set_ne.
  - intros k c. destruct (decide (key = k)) as [<-|Hne].
    + rewrite od_get_set_eq. intros [= <-] Hk.
      apply Hd in Hk as [Hk|(h & Hl & Hneq)].
      * now apply (Htodo _ _ Hin).
      * destruct (Hok _ _ Hl) as (c1 & Hc1 & Hh1). congruence.
    + rewrite od_get_set_ne by assumption. apply Hself.
Qed.

Lemma analyze_no_self_edges fs s s' r :
  NoDup (od_keys (DependencyAnalysis.components s)) ->
  internal_components_ok s ->
  (forall k c, od_get k (DependencyAnalysis.components s) = Some c ->
     k ∉ Component.dep_internal_components c) ->
  analyze fs s = (s', r) ->
  forall k c, od_get k (DependencyAnalysis.components s') = Some c ->
    k ∉ Component.dep_internal_components c.
Proof.
  intros Hnd Hok Hself. unfold analyze. unfold_M. intros H.
  assert (Htodo : forall k c, (k, c) ∈ DependencyAnalysis.components s ->
                    k ∉ Component.dep_internal_components c).
  { intros k c Hin. apply Hself. now apply od_elem_of_get. }
  enough (Hinv : analysis_inv (DependencyAnalysis.components s) s') by apply Hinv.
  revert H. apply for_each_inv.
  - intros [key component] t t' q Hin Ht Hb.
    eapply analyze_component_inv; eauto.
  - split; [exact Hok|split; [|exact Hself]].
    intros key c Hin. exists c. split; [|reflexivity]. now apply od_elem_of_get.
Qed.

Lemma parse_groups_frame fs els s s' r :
  parse_groups fs els s = (s', r) ->
  DependencyAnalysis.components s' = DependencyAnalysis.components s
  /\ DependencyAnalysis.internal_components s'
     = DependencyAnalysis.internal_components s.
Proof.
  revert s. induction els as [|el rest IH]; intros s; simpl.
  - unfold ret. now intros [= <- <-].
  - unfold_M.
    match goal with
    | |- context [if ?b then ret tt else _] => destruct b
    end; [unfold ret|now intros [= <- <-]].
    destruct (bool_decide (grp_role el = Some "external")).
    + destruct (add_package_group fs el (DependencyAnalysis.external_groups s));
        [|now intros [= <- <-]].
      intros H. now apply IH in H.
    + destruct (add_package_group fs el (DependencyAnalysis.internal_groups s));
        [|now intros [= <- <-]].
      intros H. now apply IH in H.
Qed.

(** C4: however a run ends, no component of the store is a member of its
    own [dep_internal_components]; in particular after the resolution
    phase of a run that completes. *)
Theorem no_self_edges (fs : FileSystem) (config : string)
    (s : DependencyAnalysis.t) (r : result unit) :
  main fs config (DependencyAnalysis_new config) = (s, r) ->
  forall key c,
    od_get key (DependencyAnalysis.components s) = Some c ->
    key ∉ Component.dep_internal_components c.
Proof.
  unfold main, DependencyAnalysis_init, parse_xml_config.
  unfold bind at 1. unfold bind at 1. unfold lift at 1.
  destruct (fs_xml fs config) as [root|e].
  2:{ intros [= <- <-] key c H. discriminate. }
  destruct (parse_groups fs root (DependencyAnalysis_new config))
    as [s1 r1] eqn:E1.
  apply parse_groups_frame in E1 as [Hc1 Hi1]. simpl in Hc1, Hi1.
  destruct r1 as [[]|e].
  2:{ intros [= <- <-] key c H. rewrite Hc1 in H. discriminate. }
  unfold bind at 1.
  destruct (make_components fs s1) as [s2 r2] eqn:E2.
  apply make_components_extends in E2 as (_ & Hnew & Hnd & Hok & _).
  assert (Hempty : forall k c,
            od_get k (DependencyAnalysis.components s2) = Some c ->
            k ∉ Component.dep_internal_components c).
  { intros k c Hk. apply Hnew in Hk as [Hk|(p & _ & Hcf)].
    - rewrite Hc1 in Hk. discriminate.
    - destruct Hcf as (_ & _ & _ & -> & _). apply not_elem_of_empty. }
  destruct r2 as [[]|e].
  2:{ intros [= <- <-]. exact Hempty. }
  apply analyze_no_self_edges; auto.
  - apply Hnd. rewrite Hc1. apply NoDup_nil_2.
  - apply Hok. intros h k Hl. rewrite Hi1 in Hl. simpl in Hl.
    now rewrite lookup_empty in Hl.
Qed.

Lemma no_self_edges_witness :
  match od_get "gadget" (DependencyAnalysis.components (fst demo_run)) with
  | Some c => "gadget" ∉ Component.dep_internal_components c
  | None => False
  end.
Proof.
  destruct (od_get "gadget" (DependencyAnalysis.components (fst demo_run)))
    as [c|] eqn:E.
  - assert (H : main demo_fs "cppdep.xml" (DependencyAnalysis_new "cppdep.xml")
                = (fst demo_run, snd demo_run)) by (vm_compute; reflexivity).
    exact (no_self_edges demo_fs "cppdep.xml" (fst demo_run) (snd demo_run)
                         H "gadget" c E).
  - vm_compute in E. discriminate.
Defined.

(** ** Independence from the delimiters *)

Section erasure.
Variables fs fs' : FileSystem.
Hypothesis same_walk : forall path, fs_walk fs path = fs_walk fs' path.

Lemma od_get_erase k (d : odict Component.t) :
  od_get k (map erase_entry d) = erase_component <$> od_get k d.
Proof.
  induction d as [|[k0 c0] d IH]; simpl; [reflexivity|].
  now destruct (String.eqb k0 k).
Qed.

Lemma od_set_erase k c (d : odict Component.t) :
  map erase_entry (od_set k c d)
  = od_set k (erase_component c) (map erase_entry d).
Proof.
  induction d as [|[k0 c0] d IH]; simpl; [reflexivity|].
  destruct (String.eqb k0 k); simpl; [reflexivity|]. now rewrite IH.
Qed.

Lemma find_external_component_walk hfile groups :
  find_external_component fs' hfile groups
  = find_external_component fs hfile groups.
Proof.
  unfold find_external_component, find_in.
  f_equal. induction (od_values groups) as [|g gs IHg]; simpl; [reflexivity|].
  rewrite IHg. f_equal.
  induction (od_values (PackageGroup.packages g)) as [|p ps IHp]; simpl;
    [reflexivity|].
  rewrite IHp. f_equal. apply omap_pointwise. intros dir_path.
  now rewrite same_walk.
Qed.

Lemma locate_erase i c s :
  locate fs' (erase_include i) (erase_component c) (erase_state s)
  = (erase_state (fst (locate fs i c s)),
     match snd (locate fs i c s) with
     | Ok (found, i', c') => Ok (found, erase_include i', erase_component c')
     | Raise e => Raise e
     end).
Proof.
  unfold locate. simpl.
  case_bool_decide as Hown; [reflexivity|].
  destruct (DependencyAnalysis.internal_components s !! _) as [dep|];
    simpl.
  { rewrite od_get_erase.
    now destruct (od_get dep (DependencyAnalysis.components s)). }
  destruct (DependencyAnalysis.external_components s !! _) as [dep|];
    simpl; [reflexivity|].
  rewrite find_external_component_walk.
  now destruct (find_external_component fs _ _) as [[found dep]|].
Qed.

Lemma analyze_include_erase i c s :
  analyze_include fs' (erase_include i) (erase_component c) (erase_state s)
  = (erase_state (fst (analyze_include fs i c s)),
     match snd (analyze_include fs i c s) with
     | Ok (i', c') => Ok (erase_include i', erase_component c')
     | Raise e => Raise e
     end).
Proof.
  unfold analyze_include, bind. rewrite locate_erase.
  destruct (locate fs i c s) as [s1 [[[found i1] c1]|e]]; simpl; [|reflexivity].
  destruct found; simpl; [reflexivity|].
  unfold erase_state. simpl. now rewrite map_app.
Qed.

Lemma analyze_includes_erase l c s :
  analyze_includes fs' (map erase_include l) (erase_component c) (erase_state s)
  = (erase_state (fst (analyze_includes fs l c s)),
     match snd (analyze_includes fs l c s) with
     | Ok (l', c') => Ok (map erase_include l', erase_component c')
     | Raise e => Raise e
     end).
Proof.
  revert c s. induction l as [|i l IH]; intros c s; simpl; [reflexivity|].
  unfold bind. rewrite analyze_include_erase.
  destruct (analyze_include fs i c s) as [s1 [[i1 c1]|e]]; simpl; [|reflexivity].
  rewrite IH.
  now destruct (analyze_includes fs l c1 s1) as [s2 [[l2 c2]|e]].
Qed.

Lemma check_include_issues_erase c :
  check_include_issues (erase_component c) = check_include_issues c.
Proof.
  unfold check_include_issues. simpl.
  destruct (negb _ || negb _); [reflexivity|].
  rewrite map_map. simpl.
  destruct (bool_decide _); simpl; [|reflexivity].
  now destruct (Component.includes_in_c c).
Qed.

Lemma check_include_issues_messages c :
  map erase_message (check_include_issues c) = check_include_issues c.
Proof.
  unfold check_include_issues.
  destruct (negb _ || negb _); [reflexivity|].
  destruct (negb (bool_decide _)); [reflexivity|].
  destruct (Component.includes_in_c c); [reflexivity|].
  now destruct (negb (bool_decide _)).
Qed.

Lemma analyze_component_erase kc s :
  analyze_component fs' (erase_entry kc) (erase_state s)
  = (erase_state (fst (analyze_component fs kc s)),
     snd (analyze_component fs kc s)).
Proof.
  destruct kc as [key c]. unfold analyze_component, erase_entry. simpl.
  unfold bind. rewrite analyze_includes_erase.
  destruct (analyze_includes fs (Component.includes_in_h c) c s)
    as [s1 [[in_h c1]|e]]; simpl; [|reflexivity].
  rewrite analyze_includes_erase.
  destruct (analyze_includes fs (Component.includes_in_c c) c1 s1)
    as [s2 [[in_c c2]|e]]; simpl; [|reflexivity].
  unfold store_component, modify. rewrite !for_each_warn. simpl.
  change (Component.set_includes (map erase_include in_h)
            (map erase_include in_c) (erase_component c2))
    with (erase_component (Component.set_includes in_h in_c c2)).
  rewrite check_include_issues_erase. f_equal.
  unfold erase_state. simpl.
  now rewrite od_set_erase, map_app, check_include_issues_messages.
Qed.

Lemma for_each_analyze_erase l s :
  for_each (analyze_component fs') (map erase_entry l) (erase_state s)
  = (erase_state (fst (for_each (analyze_component fs) l s)),
     snd (for_each (analyze_component fs) l s)).
Proof.
  revert s. induction l as [|kc l IH]; intros s; cbn [for_each map];
    [reflexivity|].
  unfold bind. rewrite analyze_component_erase.
  destruct (analyze_component fs kc s) as [s1 [[]|e]]; simpl; [|reflexivity].
  apply IH.
Qed.

Lemma analyze_erase s :
  analyze fs' (erase_state s)
  = (erase_state (fst (analyze fs s)), snd (analyze fs s)).
Proof. unfold analyze, bind, get_self. simpl. apply for_each_analyze_erase. Qed.

End erasure.

Lemma edges_of_erase key s : edges_of key (erase_state s) = edges_of key s.
Proof.
  unfold edges_of, erase_state. simpl. rewrite od_get_erase.
  now destruct (od_get key (DependencyAnalysis.components s)).
Qed.

Lemma analyze_include_stderr fs i c s :
  no_new_locate_message s (fst (analyze_include fs i c s)).
Proof.
  unfold analyze_include, locate, bind, no_new_locate_message.
  case_bool_decide; simpl; [auto|].
  destruct (DependencyAnalysis.internal_components s !! _); simpl; [auto|].
  destruct (DependencyAnalysis.external_components s !! _); simpl; [auto|].
  destruct (find_external_component _ _ _) as [[found dep]|]; simpl; [auto|].
  intros h Hin. apply elem_of_app in Hin as [Hin|Hin]; [exact Hin|].
  apply list_elem_of_singleton in Hin. discriminate.
Qed.

Lemma analyze_includes_stderr fs l c s :
  no_new_locate_message s (fst (analyze_includes fs l c s)).
Proof.
  revert c s. induction l as [|i l IH]; intros c s; simpl; [now intros h|].
  unfold bind. pose proof (analyze_include_stderr fs i c s) as H1.
  destruct (analyze_include fs i c s) as [s1 [[i1 c1]|e]]; simpl in *;
    [|exact H1].
  pose proof (IH c1 s1) as H2.
  destruct (analyze_includes fs l c1 s1) as [s2 [[l2 c2]|e]]; simpl in *;
    intros h Hin; auto.
Qed.

Lemma analyze_component_stderr fs kc s s' r :
  analyze_component fs kc s = (s', r) -> no_new_locate_message s s'.
Proof.
  destruct kc as [key c]. unfold analyze_component, bind.
  pose proof (analyze_includes_stderr fs (Component.includes_in_h c) c s) as H1.
  destruct (analyze_includes fs (Component.includes_in_h c) c s)
    as [s1 [[in_h c1]|e]]; simpl in H1; [|now intros [= <- <-]].
  pose proof (analyze_includes_stderr fs (Component.includes_in_c c) c1 s1) as H2.
  destruct (analyze_includes fs (Component.includes_in_c c) c1 s1)
    as [s2 [[in_c c2]|e]]; simpl in H2.
  2:{ intros [= <- <-] h Hin. auto. }
  unfold store_component, modify. rewrite for_each_warn. simpl.
  intros [= <- <-] h Hin. simpl in Hin.
  apply elem_of_app in Hin as [Hin|Hin]; [auto|]. exfalso.
  unfold check_include_issues in Hin.
  repeat match type of Hin with
         | context [if ?b then _ else _] => destruct b
         | context [match ?l with [] => _ | _ :: _ => _ end] => destruct l
         end;
    try (now apply not_elem_of_nil in Hin);
    apply list_elem_of_singleton in Hin; discriminate.
Qed.

(** C9: two analyses that differ only in the quoted-versus-angled flag
    of some directives, run over file systems on which [os.walk] gives
    the same (whatever [os.path.isfile], which only [Include.locate]
    asks of a working directory, answers), end with the same dependency
    edges, the same external components, the same resolved paths and the
    same warnings up to the delimiters shown; and the analysis prints no
    message of [Include.locate]. *)
Theorem resolution_ignores_delimiters (fs1 fs2 : FileSystem)
    (s1 s2 : DependencyAnalysis.t) :
  (forall path, fs_walk fs1 path = fs_walk fs2 path) ->
  erase_state s1 = erase_state s2 ->
  erase_state (fst (analyze fs1 s1)) = erase_state (fst (analyze fs2 s2))
  /\ snd (analyze fs1 s1) = snd (analyze fs2 s2)
  /\ (forall key, edges_of key (fst (analyze fs1 s1))
                  = edges_of key (fst (analyze fs2 s2)))
  /\ DependencyAnalysis.external_components (fst (analyze fs1 s1))
     = DependencyAnalysis.external_components (fst (analyze fs2 s2))
  /\ no_new_locate_message s1 (fst (analyze fs1 s1)).
Proof.
  intros Hwalk Herase.
  pose proof (analyze_erase fs1 fs2 Hwalk s1) as H1.
  pose proof (analyze_erase fs2 fs2 (fun _ => eq_refl) s2) as H2.
  rewrite Herase, H2 in H1.
  pose proof (f_equal fst H1) as Hst. pose proof (f_equal snd H1) as Hres.
  cbn [fst snd] in Hst, Hres. clear H1 H2.
  split; [now symmetry|]. split; [now symmetry|]. split; [|split].
  - intros key. rewrite <- edges_of_erase, <- Hst. apply edges_of_erase.
  - change (DependencyAnalysis.external_components
              (erase_state (fst (analyze fs1 s1)))
            = DependencyAnalysis.external_components
                (erase_state (fst (analyze fs2 s2)))).
    now rewrite Hst.
  - unfold analyze, bind, get_self. simpl.
    destruct (for_each (analyze_component fs1)
                (DependencyAnalysis.components s1) s1) as [s' r] eqn:E.
    simpl. revert E.
    apply (for_each_inv _ (no_new_locate_message s1)); [|now intros h].
    intros kc t t' q _ Ht Hb h Hin. apply Ht.
    eapply analyze_component_stderr; eauto.
Qed.

Lemma resolution_ignores_delimiters_witness :
  erase_state (fst (analyze demo_fs (fst demo_made)))
  = erase_state (fst (analyze demo_fs_nofile demo_angled))
  /\ snd (analyze demo_fs (fst demo_made))
     = snd (analyze demo_fs_nofile demo_angled)
  /\ (forall key, edges_of key (fst (analyze demo_fs (fst demo_made)))
                  = edges_of key (fst (analyze demo_fs_nofile demo_angled)))
  /\ DependencyAnalysis.external_components
       (fst (analyze demo_fs (fst demo_made)))
     = DependencyAnalysis.external_components
         (fst (analyze demo_fs_nofile demo_angled))
  /\ no_new_locate_message (fst demo_made)
       (fst (analyze demo_fs (fst demo_made))).
Proof.
  apply (resolution_ignores_delimiters demo_fs demo_fs_nofile
           (fst demo_made) demo_angled).
  - intros path. reflexivity.
  - vm_compute. reflexivity.
Defined.

(** ** The include scanner *)

Local Arguments String.append !s1 s2 : simpl nomatch.

Lemma append_assoc (a b c : string) : (a +:+ b) +:+ c = a +:+ (b +:+ c).
Proof. induction a as [|x a IH]; simpl; [reflexivity|now rewrite IH]. Qed.

Lemma re_star_sound p pos s k res :
  re_star p pos s k = Some res ->
  exists consumed rest pos',
    s = consumed +:+ rest /\ str_all p consumed = true
    /\ k consumed pos' rest = Some res.
Proof.
  revert pos k. induction s as [|c s IH]; intros pos k; simpl.
  - intros H. now exists EmptyString, EmptyString, pos.
  - destruct (p c) eqn:Ep.
    + destruct (re_star p (S pos) s (fun consumed => k (String c consumed)))
        as [res'|] eqn:E.
      * intros [= <-]. apply IH in E as (consumed & rest & pos' & -> & Hall & Hk).
        exists (String c consumed), rest, pos'. simpl. now rewrite Ep, Hall.
      * intros H. now exists EmptyString, (String c s), pos.
    + intros H. now exists EmptyString, (String c s), pos.
Qed.

Lemma re_run_sound r pos s cs k res :
  re_run r pos s cs k = Some res ->
  exists consumed rest pos' cs',
    s = consumed +:+ rest /\ den r consumed cs cs'
    /\ k consumed pos' rest cs' = Some res.
Proof.
  revert pos s cs k.
  induction r as [| | |p|p|r1 IH1 r2 IH2|r1 IH1 r2 IH2|name r1 IH1];
    intros pos s cs k; simpl.
  - intros H. now exists EmptyString, s, pos, cs.
  - destruct (Nat.eqb pos 0); [|discriminate].
    intros H. now exists EmptyString, s, pos, cs.
  - destruct (_ || _); [|discriminate].
    intros H. now exists EmptyString, s, pos, cs.
  - destruct s as [|c s]; [discriminate|]. destruct (p c) eqn:Ep; [|discriminate].
    intros H. exists (String c EmptyString), s, (S pos), cs. eauto 10.
  - intros H. apply re_star_sound in H as (consumed & rest & pos' & -> & Hall & Hk).
    now exists consumed, rest, pos', cs.
  - intros H. apply IH1 in H as (c1 & rest1 & pos1 & cs1 & -> & Hd1 & H).
    apply IH2 in H as (c2 & rest2 & pos2 & cs2 & -> & Hd2 & H).
    exists (c1 +:+ c2), rest2, pos2, cs2. rewrite append_assoc. eauto 10.
  - destruct (re_run r1 pos s cs k) as [res'|] eqn:E.
    + intros [= <-]. apply IH1 in E as (c & rest & pos' & cs' & -> & Hd & Hk).
      exists c, rest, pos', cs'. auto.
    + intros H. apply IH2 in H as (c & rest & pos' & cs' & -> & Hd & Hk).
      exists c, rest, pos', cs'. auto.
  - intros H. apply IH1 in H as (c & rest & pos' & cs' & -> & Hd & Hk).
    exists c, rest, pos', ((name, c) :: cs'). eauto.
Qed.

Lemma re_search_include line :
  re_search Include._RE_INCLUDE line
  = re_run Include._RE_INCLUDE 0 line [] (fun _ _ _ cs => Some cs).
Proof.
  unfold re_search.
  assert (Hbol : forall s n, re_search_from Include._RE_INCLUDE (S n) s = None).
  { induction s as [|c s IH]; intros n; simpl; [reflexivity|apply IH]. }
  destruct line as [|c line]; simpl.
  - reflexivity.
  - rewrite Hbol.
    match goal with |- match ?x with _ => _ end = _ => now destruct x end.
Qed.

Lemma re_star_backtrack p g c tail pos k res :
  str_all p g = true -> p c = true ->
  (tail = EmptyString \/ exists d t, tail = String d t /\ p d = false) ->
  (forall pos', k (g +:+ String c EmptyString) pos' tail = None) ->
  (forall pos', k g pos' (String c tail) = Some res) ->
  re_star p pos (g +:+ String c tail) k = Some res.
Proof.
  intros Hall Hc Htail. revert pos k.
  induction g as [|x g IH]; intros pos k Hlong Hshort; simpl.
  - rewrite Hc.
    assert (Hin : re_star p (S pos) tail (fun consumed => k (String c consumed))
                  = None).
    { destruct Htail as [->|(d & t & -> & Hd)]; simpl.
      - apply (Hlong (S pos)).
      - rewrite Hd. apply (Hlong (S pos)). }
    rewrite Hin. apply Hshort.
  - simpl in Hall. apply andb_true_iff in Hall as [Hx Hall]. rewrite Hx.
    rewrite (IH Hall (S pos) (fun consumed => k (String x consumed))); auto.
Qed.

Lemma grep_line_synthesize a g flag tail :
  cls_any a = true -> str_all cls_any g = true ->
  (tail = EmptyString \/ tail = String ch_nl EmptyString) ->
  Include.grep_line (synthesize (Include.init (String a g) flag) +:+ tail)
  = Some (Include.init (String a g) flag).
Proof.
  intros Ha Hg Htail.
  unfold Include.grep_line. rewrite re_search_include.
  unfold synthesize, Include.str. destruct flag; simpl; rewrite Ha.
  - rewrite append_assoc. simpl.
    erewrite re_star_backtrack; cycle 1.
    + exact Hg.
    + reflexivity.
    + destruct Htail as [->| ->]; [now left|right]. now exists ch_nl, EmptyString.
    + intros pos'. now destruct Htail as [->| ->].
    + intros pos'. reflexivity.
    + reflexivity.
  - rewrite append_assoc. simpl.
    erewrite re_star_backtrack; cycle 1.
    + exact Hg.
    + reflexivity.
    + destruct Htail as [->| ->]; [now left|right]. now exists ch_nl, EmptyString.
    + intros pos'. now destruct Htail as [->| ->].
    + intros pos'. reflexivity.
    + reflexivity.
Qed.

Lemma grep_line_shape line include :
  Include.grep_line line = Some include ->
  exists a g flag,
    cls_any a = true /\ str_all cls_any g = true
    /\ include = Include.init (String a g) flag.
Proof.
  unfold Include.grep_line. rewrite re_search_include.
  destruct (re_run Include._RE_INCLUDE 0 line [] (fun _ _ _ cs => Some cs))
    as [cs|] eqn:E; [|discriminate].
  apply re_run_sound in E as (consumed & rest & pos' & cs' & _ & Hd & [= <-]).
  unfold Include._RE_INCLUDE in Hd. simpl in Hd.
  repeat match goal with
         | H : exists _, _ |- _ => destruct H
         | H : _ /\ _ |- _ => destruct H
         | H : _ \/ _ |- _ => destruct H
         end; subst; simpl; intros [= <-]; eauto 10.
Qed.

Lemma append_empty (s : string) : s +:+ EmptyString = s.
Proof. induction s as [|c s IH]; simpl; congruence. Qed.

Lemma grep_line_roundtrip line include :
  Include.grep_line line = Some include ->
  Include.grep_line (synthesize include) = Some include
  /\ Include.grep_line (nl (synthesize include)) = Some include.
Proof.
  intros H. apply grep_line_shape in H as (a & g & flag & Ha & Hg & ->).
  split.
  - rewrite <- (append_empty (synthesize _)).
    apply grep_line_synthesize; auto.
  - apply grep_line_synthesize; auto.
Qed.

(** C8: every directive that scanning a source file produces, written
    back as the line [#include] followed by its string form (with or
    without the end of line), is found again by the scanner with the
    same header text and the same flag; and scanning the file
    synthesized from the whole list gives the list back. *)
Theorem include_scan_roundtrip (fs fs' : FileSystem) (path path' : string)
    (includes : list Include.t) :
  Include.grep fs path = Ok includes ->
  (forall include, include ∈ includes ->
     Include.grep_line (synthesize include) = Some include
     /\ Include.grep_line (nl (synthesize include)) = Some include)
  /\ (fs_open fs' path' = Ok (map (fun i => nl (synthesize i)) includes) ->
      Include.grep fs' path' = Ok includes).
Proof.
  unfold Include.grep at 1.
  destruct (fs_open fs path) as [lines|]; [|discriminate]. intros [= <-].
  assert (Hall : forall include, include ∈ omap Include.grep_line lines ->
            Include.grep_line (synthesize include) = Some include
            /\ Include.grep_line (nl (synthesize include)) = Some include).
  { intros include Hin. apply list_elem_of_omap in Hin as (line & _ & Hl).
    eapply grep_line_roundtrip; eauto. }
  split; [exact Hall|].
  intros Hopen. unfold Include.grep. rewrite Hopen. f_equal. clear Hopen.
  induction (omap Include.grep_line lines) as [|i l IH]; [reflexivity|].
  assert (Hi : Include.grep_line (nl (synthesize i)) = Some i).
  { apply Hall. apply list_elem_of_here. }
  cbn [map omap list_omap]. rewrite Hi.
  f_equal. apply IH. intros j Hj. apply Hall. now apply list_elem_of_further.
Qed.

Lemma include_scan_roundtrip_witness :
  Include.grep synth_fs "/s/synth.h" = Ok (Component.includes_in_h demo_gadget).
Proof.
  apply (proj2 (include_scan_roundtrip demo_fs synth_fs
                  "/proj/src/ui/gadget.h" "/s/synth.h"
                  (Component.includes_in_h demo_gadget)
                  ltac:(vm_compute; reflexivity))).
  vm_compute. reflexivity.
Defined.

(** ** The demonstration project, end to end *)

Example demo_outcome :
  main_guard demo_fs "cppdep.xml"
  = {| exit_code := 0;
       err_stream :=
         [WarnIncompleteComponent "main" "app" "core";
          WarnIncludeOrder "widget.h" "/proj/src/ui/widget.c";
          WarnHeaderNotFound (Include.init "nowhere.h" true)] |}.
Proof. vm_compute. reflexivity. Qed.

Example demo_edges :
  deps_of "widget" (fst demo_run) = Some (["gadget"], [])
  /\ deps_of "gadget" (fst demo_run)
     = Some (["widget"], [ExternalComponent.mk "impl.hpp" ("third", "boost")])
  /\ deps_of "main" (fst demo_run) = Some (["gadget"], []).
Proof. vm_compute. repeat split. Qed.

Example demo_widget_made :
  od_get "widget" (DependencyAnalysis.components (fst demo_made))
  = Some demo_widget
  /\ od_get "gadget" (DependencyAnalysis.components (fst demo_made))
     = Some demo_gadget.
Proof. vm_compute. split; reflexivity. Qed.

Example missing_config_outcome :
  main_guard demo_fs "none.xml"
  = {| exit_code := 1;
       err_stream :=
         [Diagnostic "IO Error:" "No such file or directory: none.xml"] |}.
Proof. vm_compute. reflexivity. Qed.

Example xpkg_outcome :
  main_guard xpkg_fs "cppdep.xml"
  = {| exit_code := 1; err_stream := [Traceback AssertionError] |}.
Proof. vm_compute. reflexivity. Qed.

Example duph_outcome :
  let s := fst (make_package_components duph_fs duph_package
                  (DependencyAnalysis_new "c")) in
  DependencyAnalysis.internal_hfiles s !! "x.h" = Some "/q/a/x.h"
  /\ Component.hpath <$> od_get "x" (DependencyAnalysis.components s)
     = Some (Some "/q/b/x.h").
Proof. vm_compute. split; reflexivity. Qed.

(** ** The resolution phase as a whole *)

#[local] Set Warnings "-clear-no-such-hyp".

Lemma evolves_refl fs s : evolves fs s s.
Proof. unfold evolves. repeat split; auto. Qed.

Lemma evolves_trans fs s1 s2 s3 :
  evolves fs s1 s2 -> evolves fs s2 s3 -> evolves fs s1 s3.
Proof.
  intros (A1 & B1 & C1 & D1 & E1 & F1 & G1) (A2 & B2 & C2 & D2 & E2 & F2 & G2).
  unfold evolves. repeat split; try congruence; auto.
  intros h e He. apply G2 in He as [He|(Hn & found & Hf)].
  - now apply G1.
  - rewrite D1 in Hf. destruct (DependencyAnalysis.external_components s1 !! h)
      as [e1|] eqn:E1'.
    + apply F1 in E1'. congruence.
    + right. split; [reflexivity|]. now exists found.
Qed.

Lemma resolves_outside_evolves fs s s' c i :
  evolves fs s s' -> resolves_outside s' c i = resolves_outside s c i.
Proof. intros (_ & H & _). unfold resolves_outside. now rewrite H. Qed.

Lemma internal_target_evolves fs s s' c i :
  evolves fs s s' -> internal_target s' c i = internal_target s c i.
Proof. intros (_ & H & _). unfold internal_target. now rewrite H. Qed.

Lemma external_target_evolves fs s s' c i :
  evolves fs s s' -> external_target fs s' c i = external_target fs s c i.
Proof.
  intros Hev. pose proof Hev as (_ & _ & _ & Hg & _ & Hmono & Hnew).
  unfold external_target. rewrite (resolves_outside_evolves _ _ _ _ _ Hev), Hg.
  destruct (resolves_outside s c i); [|reflexivity].
  destruct (DependencyAnalysis.external_components s' !! include_base i)
    as [e'|] eqn:E'.
  - apply Hnew in E' as [E'|(Hn & found & Hf)]; [now rewrite E'|].
    now rewrite Hn, Hf.
  - destruct (DependencyAnalysis.external_components s !! include_base i)
      as [e0|] eqn:E0; [|reflexivity].
    apply Hmono in E0. congruence.
Qed.

Lemma unresolved_external_target fs s c i :
  unresolved fs s c i
  = resolves_outside s c i
    && match external_target fs s c i with Some _ => false | None => true end.
Proof.
  unfold unresolved, external_target.
  destruct (resolves_outside s c i); [simpl|reflexivity].
  destruct (DependencyAnalysis.external_components s !! include_base i);
    [reflexivity|].
  now destruct (find_external_component fs _ _) as [[found e]|].
Qed.

Lemma unresolved_evolves fs s s' c i :
  evolves fs s s' -> unresolved fs s' c i = unresolved fs s c i.
Proof.
  intros Hev. rewrite !unresolved_external_target.
  now rewrite (resolves_outside_evolves _ _ _ _ _ Hev),
    (external_target_evolves _ _ _ _ _ Hev).
Qed.

Lemma analyze_include_exact fs i c s s' r :
  analyze_include fs i c s = (s', r) ->
  exists i' c',
    r = Ok (i', c')
    /\ same_identity c c'
    /\ Component.includes_in_h c' = Component.includes_in_h c
    /\ Component.includes_in_c c' = Component.includes_in_c c
    /\ include_outcome fs s c i i'
    /\ Component.dep_internal_components c'
       = Component.dep_internal_components c ∪ opt_set (internal_target s c i)
    /\ Component.dep_external_components c'
       = Component.dep_external_components c
         ∪ opt_set (external_target fs s c i)
    /\ evolves fs s s'
    /\ DependencyAnalysis.components s' = DependencyAnalysis.components s
    /\ DependencyAnalysis.stderr s'
       = DependencyAnalysis.stderr s
         ++ (if unresolved fs s c i then [WarnHeaderNotFound i] else []).
Proof.
  unfold analyze_include, locate, bind, internal_target, external_target,
    include_outcome, unresolved, resolves_outside, include_base, same_identity,
    store_hpath.
  case_bool_decide as Hown; simpl.
  { intros [= <- <-]. eexists _, _. split; [reflexivity|]. simpl.
    rewrite app_nil_r. split_and?; auto using evolves_refl; set_solver. }
  destruct (DependencyAnalysis.internal_components s !! _) as [dep|] eqn:Ei; simpl.
  { intros [= <- <-]. eexists _, _. split; [reflexivity|]. simpl.
    rewrite app_nil_r. split_and?; auto using evolves_refl; set_solver. }
  destruct (DependencyAnalysis.external_components s !! _) as [e|] eqn:Ee; simpl.
  { intros [= <- <-]. eexists _, _. split; [reflexivity|]. simpl.
    rewrite app_nil_r. split_and?; auto using evolves_refl; set_solver. }
  destruct (find_external_component fs _ _) as [[found e]|] eqn:Ef; simpl.
  - intros [= <- <-]. eexists _, _. split; [reflexivity|]. simpl.
    rewrite app_nil_r. split_and?; auto; try set_solver.
    unfold evolves. simpl. split_and?; auto.
    + intros h e0 He0. rewrite lookup_insert_ne; [exact He0|]. congruence.
    + intros h e0. rewrite lookup_insert. case_decide as Hd.
      * subst h. intros [= <-]. right. split; [exact Ee|]. now exists found.
      * now left.
  - intros [= <- <-]. eexists _, _. split; [reflexivity|]. simpl.
    split_and?; auto; try set_solver.
    unfold evolves. simpl. split_and?; auto.
Qed.

Lemma internal_target_hfile s c c1 i :
  Component.hfile c1 = Component.hfile c ->
  internal_target s c1 i = internal_target s c i.
Proof. intros H. unfold internal_target. now rewrite H. Qed.

Lemma resolves_outside_hfile s c c1 i :
  Component.hfile c1 = Component.hfile c ->
  resolves_outside s c1 i = resolves_outside s c i.
Proof. intros H. unfold resolves_outside. now rewrite H. Qed.

Lemma external_target_hfile fs s c c1 i :
  Component.hfile c1 = Component.hfile c ->
  external_target fs s c1 i = external_target fs s c i.
Proof.
  intros H. unfold external_target. now rewrite (resolves_outside_hfile _ _ _ _ H).
Qed.

Lemma unresolved_hfile fs s c c1 i :
  Component.hfile c1 = Component.hfile c ->
  unresolved fs s c1 i = unresolved fs s c i.
Proof.
  intros H. unfold unresolved. now rewrite (resolves_outside_hfile _ _ _ _ H).
Qed.

Lemma include_outcome_transport fs s s1 c c1 i i' :
  evolves fs s s1 -> same_identity c c1 ->
  (forall k, store_hpath s1 k = store_hpath s k) ->
  include_outcome fs s1 c1 i i' -> include_outcome fs s c i i'.
Proof.
  intros Hev (_ & Hp & Hf & _) Hst (H1 & H2 & H3).
  unfold include_outcome. split; [exact H1|]. split; [exact H2|].
  rewrite (unresolved_hfile _ _ _ _ _ Hf), (unresolved_evolves _ _ _ _ _ Hev) in H3.
  destruct (unresolved fs s c i); [exact H3|].
  rewrite Hf, Hp in H3. destruct Hev as (_ & Hic & _). rewrite Hic in H3.
  case_bool_decide; [exact H3|].
  destruct (DependencyAnalysis.internal_components s !! include_base i);
    [|exact H3].
  now rewrite <- Hst.
Qed.

Lemma not_found_messages_app fs s c l1 l2 :
  not_found_messages fs s c (l1 ++ l2)
  = not_found_messages fs s c l1 ++ not_found_messages fs s c l2.
Proof. unfold not_found_messages. now rewrite filter_app, map_app. Qed.

Lemma not_found_messages_transport fs s s1 c c1 l :
  evolves fs s s1 -> Component.hfile c1 = Component.hfile c ->
  not_found_messages fs s1 c1 l = not_found_messages fs s c l.
Proof.
  intros Hev Hf. unfold not_found_messages. f_equal.
  induction l as [|i l IH]; [reflexivity|].
  rewrite !filter_cons, IH.
  rewrite (unresolved_hfile _ _ _ _ _ Hf), (unresolved_evolves _ _ _ _ _ Hev).
  reflexivity.
Qed.

Lemma same_identity_refl c : same_identity c c.
Proof. unfold same_identity. auto. Qed.

Lemma same_identity_trans c1 c2 c3 :
  same_identity c1 c2 -> same_identity c2 c3 -> same_identity c1 c3.
Proof. unfold same_identity. intuition congruence. Qed.

Lemma analyze_includes_exact fs l c s s' r :
  analyze_includes fs l c s = (s', r) ->
  exists l' c',
    r = Ok (l', c')
    /\ same_identity c c'
    /\ Component.includes_in_h c' = Component.includes_in_h c
    /\ Component.includes_in_c c' = Component.includes_in_c c
    /\ Forall2 (include_outcome fs s c) l l'
    /\ Component.dep_internal_components c'
       = Component.dep_internal_components c
         ∪ list_to_set (omap (internal_target s c) l)
    /\ Component.dep_external_components c'
       = Component.dep_external_components c
         ∪ list_to_set (omap (external_target fs s c) l)
    /\ evolves fs s s'
    /\ DependencyAnalysis.components s' = DependencyAnalysis.components s
    /\ DependencyAnalysis.stderr s'
       = DependencyAnalysis.stderr s ++ not_found_messages fs s c l.
Proof.
  revert c s s' r. induction l as [|i l IH]; intros c s s' r.
  - simpl. unfold ret. intros [= <- <-]. exists [], c. simpl. rewrite app_nil_r.
    split_and?; auto using same_identity_refl; try apply evolves_refl;
      try done; set_solver.
  - cbn [analyze_includes]. unfold bind at 1.
    destruct (analyze_include fs i c s) as [s1 r1] eqn:E1.
    apply analyze_include_exact in E1
      as (i1 & c1 & -> & Hid1 & Hh1 & Hc1 & Ho1 & Hi1 & He1 & Hev1 & Hs1 & Hm1).
    unfold bind at 1.
    destruct (analyze_includes fs l c1 s1) as [s2 r2] eqn:E2.
    apply IH in E2
      as (l2 & c2 & -> & Hid2 & Hh2 & Hc2 & Ho2 & Hi2 & He2 & Hev2 & Hs2 & Hm2).
    unfold ret. intros [= <- <-].
    pose proof Hid1 as (_ & _ & Hf1 & _).
    assert (Hst : forall k, store_hpath s1 k = store_hpath s k).
    { intros k. unfold store_hpath. now rewrite Hs1. }
    exists (i1 :: l2), c2. split_and?.
    + reflexivity.
    + eapply same_identity_trans; eauto.
    + congruence.
    + congruence.
    + constructor; [exact Ho1|].
      eapply Forall2_impl; [exact Ho2|]. intros x y Hxy.
      eapply include_outcome_transport; eauto.
    + rewrite Hi2, Hi1.
      erewrite (omap_pointwise (internal_target s1 c1) (internal_target s c)).
      2:{ intros x. rewrite (internal_target_hfile _ _ _ _ Hf1).
          eapply internal_target_evolves; eauto. }
      cbn [omap list_omap]. destruct (internal_target s c i); simpl; set_solver.
    + rewrite He2, He1.
      erewrite (omap_pointwise (external_target fs s1 c1) (external_target fs s c)).
      2:{ intros x. rewrite (external_target_hfile _ _ _ _ _ Hf1).
          eapply external_target_evolves; eauto. }
      cbn [omap list_omap]. destruct (external_target fs s c i); simpl; set_solver.
    + eapply evolves_trans; eauto.
    + congruence.
    + rewrite Hm2, Hm1, (not_found_messages_transport _ _ _ _ _ _ Hev1 Hf1).
      rewrite <- app_assoc. f_equal. unfold not_found_messages.
      rewrite filter_cons. now destruct (unresolved fs s c i).
Qed.

Lemma check_include_issues_congr c c' :
  same_identity c c' ->
  map Include.hfile (Component.includes_in_c c')
  = map Include.hfile (Component.includes_in_c c) ->
  check_include_issues c' = check_include_issues c.
Proof.
  intros (_ & Hp & Hf & Hc & _) Hm. unfold check_include_issues.
  rewrite Hp, Hf, Hc.
  assert (Hb : map (fun x => Some (basename (Include.hfile x)))
                   (Component.includes_in_c c')
               = map (fun x => Some (basename (Include.hfile x)))
                     (Component.includes_in_c c)).
  { rewrite <- (map_map Include.hfile (fun h => Some (basename h))), Hm.
    now rewrite map_map. }
  rewrite Hb.
  destruct (Component.includes_in_c c') as [|i' l'],
           (Component.includes_in_c c) as [|i l]; try discriminate; auto.
  injection Hm as Hi _. now rewrite Hi.
Qed.

Lemma include_outcome_hfiles fs s c l l' :
  Forall2 (include_outcome fs s c) l l' ->
  map Include.hfile l' = map Include.hfile l.
Proof.
  induction 1 as [|i i' l l' (H & _) _ IH]; simpl; [reflexivity|].
  now rewrite H, IH.
Qed.

Lemma analyze_component_exact fs key c s s' r :
  analyze_component fs (key, c) s = (s', r) ->
  exists c',
    r = Ok tt
    /\ DependencyAnalysis.components s'
       = od_set key c' (DependencyAnalysis.components s)
    /\ analyzed fs s c c'
    /\ evolves fs s s'
    /\ DependencyAnalysis.stderr s'
       = DependencyAnalysis.stderr s ++ component_messages fs s (key, c).
Proof.
  unfold analyze_component. unfold bind at 1.
  destruct (analyze_includes fs (Component.includes_in_h c) c s)
    as [s1 r1] eqn:E1.
  apply analyze_includes_exact in E1
    as (in_h & c1 & -> & Hid1 & Hh1 & Hc1 & Ho1 & Hi1 & He1 & Hev1 & Hs1 & Hm1).
  unfold bind at 1.
  destruct (analyze_includes fs (Component.includes_in_c c) c1 s1)
    as [s2 r2] eqn:E2.
  apply analyze_includes_exact in E2
    as (in_c & c2 & -> & Hid2 & Hh2 & Hc2 & Ho2 & Hi2 & He2 & Hev2 & Hs2 & Hm2).
  unfold bind, store_component, modify. rewrite for_each_warn.
  intros [= <- <-].
  pose proof Hid1 as (_ & _ & Hf1 & _).
  assert (Hst : forall k, store_hpath s1 k = store_hpath s k).
  { intros k. unfold store_hpath. now rewrite Hs1. }
  assert (Ho2' : Forall2 (include_outcome fs s c) (Component.includes_in_c c) in_c).
  { eapply Forall2_impl; [exact Ho2|]. intros x y Hxy.
    eapply include_outcome_transport; eauto. }
  assert (Hid : same_identity c (Component.set_includes in_h in_c c2)).
  { eapply same_identity_trans; [exact Hid1|].
    destruct Hid2 as (A & B & C & D & E). unfold same_identity. simpl. auto. }
  exists (Component.set_includes in_h in_c c2). split_and?.
  - reflexivity.
  - simpl. now rewrite Hs2, Hs1.
  - unfold analyzed, all_includes. simpl. split_and?; auto.
    + rewrite Hi2, Hi1, omap_app, list_to_set_app_L.
      erewrite (omap_pointwise (internal_target s1 c1) (internal_target s c)).
      2:{ intros x. rewrite (internal_target_hfile _ _ _ _ Hf1).
          eapply internal_target_evolves; eauto. }
      set_solver.
    + rewrite He2, He1, omap_app, list_to_set_app_L.
      erewrite (omap_pointwise (external_target fs s1 c1) (external_target fs s c)).
      2:{ intros x. rewrite (external_target_hfile _ _ _ _ _ Hf1).
          eapply external_target_evolves; eauto. }
      set_solver.
  - unfold evolves in *. simpl. destruct Hev1 as (A1 & B1 & C1 & D1 & E1 & F1 & G1).
    destruct Hev2 as (A2 & B2 & C2 & D2 & E2 & F2 & G2).
    split_and?; try congruence; auto.
    intros h e He. apply G2 in He as [He|(Hn & found & Hf)].
    + now apply G1.
    + rewrite D1 in Hf.
      destruct (DependencyAnalysis.external_components s !! h) as [e1|] eqn:E1'.
      * apply F1 in E1'. congruence.
      * right. split; [reflexivity|]. now exists found.
  - simpl. rewrite Hm2, Hm1, (not_found_messages_transport _ _ _ _ _ _ Hev1 Hf1).
    unfold component_messages, all_includes. simpl.
    rewrite not_found_messages_app, <- !app_assoc. do 3 f_equal.
    apply check_include_issues_congr; [exact Hid|]. simpl.
    eapply include_outcome_hfiles; eauto.
Qed.

Lemma analyzed_transport fs s s1 c c' :
  evolves fs s s1 ->
  (forall k, store_hpath s1 k = store_hpath s k) ->
  analyzed fs s1 c c' -> analyzed fs s c c'.
Proof.
  intros Hev Hst (Hid & Hh & Hc & Hi & He). unfold analyzed.
  split; [exact Hid|]. split_and?.
  - eapply Forall2_impl; [exact Hh|]. intros x y Hxy.
    exact (include_outcome_transport fs s s1 c c x y Hev
             (same_identity_refl c) Hst Hxy).
  - eapply Forall2_impl; [exact Hc|]. intros x y Hxy.
    exact (include_outcome_transport fs s s1 c c x y Hev
             (same_identity_refl c) Hst Hxy).
  - rewrite Hi. do 2 f_equal. apply omap_pointwise. intros x.
    eapply internal_target_evolves; eauto.
  - rewrite He. do 2 f_equal. apply omap_pointwise. intros x.
    eapply external_target_evolves; eauto.
Qed.

Lemma component_messages_transport fs s s1 kc :
  evolves fs s s1 ->
  component_messages fs s1 kc = component_messages fs s kc.
Proof.
  intros Hev. unfold component_messages. f_equal.
  eapply not_found_messages_transport; eauto.
Qed.

Lemma od_set_app_fresh {V} k (v v0 : V) pre d :
  k ∉ od_keys pre ->
  od_set k v (pre ++ (k, v0) :: d) = pre ++ (k, v) :: d.
Proof.
  induction pre as [|[k1 v1] pre IH]; simpl; intros Hk.
  - now rewrite String.eqb_refl.
  - apply not_elem_of_cons in Hk as [Hne Hk].
    destruct (String.eqb k1 k) eqn:E.
    + apply String.eqb_eq in E. congruence.
    + now rewrite IH.
Qed.

Lemma fold_od_set_replace {V} (l l' pre : odict V) :
  od_keys l' = od_keys l ->
  NoDup (od_keys (pre ++ l)) ->
  fold_left (fun acc kc => od_set (fst kc) (snd kc) acc) l' (pre ++ l)
  = pre ++ l'.
Proof.
  revert l' pre. induction l as [|[k v] l IH]; intros [|[k' v'] l'] pre;
    try discriminate; simpl; [reflexivity|].
  intros [= -> Hk] Hnd.
  unfold od_keys in Hnd. rewrite map_app in Hnd. simpl in Hnd.
  rewrite od_set_app_fresh.
  2:{ apply NoDup_app in Hnd as (_ & Hd & _). intros Hin.
      apply (Hd _ Hin). left. }
  replace (pre ++ (k, v') :: l) with ((pre ++ [(k, v')]) ++ l)
    by now rewrite <- app_assoc.
  rewrite IH; [now rewrite <- app_assoc|exact Hk|].
  unfold od_keys. rewrite !map_app. simpl.
  now rewrite <- app_assoc.
Qed.

Lemma store_hpath_set s s' key c' :
  DependencyAnalysis.components s'
  = od_set key c' (DependencyAnalysis.components s) ->
  store_hpath s key = Component.hpath c' ->
  forall k, store_hpath s' k = store_hpath s k.
Proof.
  intros Hs Hk k. unfold store_hpath in *. rewrite Hs.
  destruct (decide (key = k)) as [->|Hne].
  - now rewrite od_get_set_eq, Hk.
  - now rewrite od_get_set_ne.
Qed.

(** The loop of [analyze], read against a reference state [s0] the
    current state has evolved from. *)
Lemma analyze_loop fs l : forall s0 s s' r,
  evolves fs s0 s ->
  (forall k, store_hpath s k = store_hpath s0 k) ->
  (forall k c, (k, c) ∈ l -> store_hpath s0 k = Component.hpath c) ->
  for_each (analyze_component fs) l s = (s', r) ->
  r = Ok tt
  /\ evolves fs s0 s'
  /\ (forall k, store_hpath s' k = store_hpath s0 k)
  /\ DependencyAnalysis.stderr s'
     = DependencyAnalysis.stderr s ++ flat_map (component_messages fs s0) l
  /\ exists l',
       Forall2 (fun kc kc' => fst kc' = fst kc
                              /\ analyzed fs s0 (snd kc) (snd kc')) l l'
       /\ DependencyAnalysis.components s'
          = fold_left (fun acc kc => od_set (fst kc) (snd kc) acc) l'
                      (DependencyAnalysis.components s).
Proof.
  induction l as [|[key c] l IH]; intros s0 s s' r Hev Hst Hl;
    cbn [for_each flat_map].
  - unfold ret. intros [= <- <-]. split_and?; auto.
    + now rewrite app_nil_r.
    + exists []. split; [constructor|reflexivity].
  - unfold bind at 1.
    destruct (analyze_component fs (key, c) s) as [s1 r1] eqn:E1.
    apply analyze_component_exact in E1 as (c' & -> & Hs1 & Han & Hev1 & Hm1).
    intros Hrest.
    assert (Hst1 : forall k, store_hpath s1 k = store_hpath s0 k).
    { intros k. rewrite <- Hst. eapply store_hpath_set; [exact Hs1|].
      rewrite Hst, (Hl key c) by left.
      destruct Han as ((_ & Hp & _) & _). now rewrite Hp. }
    apply (IH s0) in Hrest as (-> & Hev' & Hst' & Hm' & l' & Hl' & Hs').
    + split_and?; auto.
      * rewrite Hm', Hm1, <- app_assoc. do 2 f_equal.
        eapply component_messages_transport; eauto.
      * exists ((key, c') :: l'). split.
        -- constructor; [|exact Hl']. split; [reflexivity|]. simpl.
           exact (analyzed_transport fs s0 s c c' Hev Hst Han).
        -- simpl. now rewrite <- Hs1.
    + eapply evolves_trans; eauto.
    + exact Hst1.
    + intros k c0 Hin. apply (Hl k c0). now right.
Qed.

Lemma Forall2_keys (R : Component.t -> Component.t -> Prop)
    (l l' : odict Component.t) :
  Forall2 (fun kc kc' => fst kc' = fst kc /\ R (snd kc) (snd kc')) l l' ->
  od_keys l' = od_keys l.
Proof.
  induction 1 as [|x y l l' [H _] _ IH]; simpl; [reflexivity|].
  now rewrite H, IH.
Qed.

Lemma Forall2_od_get (R : Component.t -> Component.t -> Prop)
    (l l' : odict Component.t) key c :
  Forall2 (fun kc kc' => fst kc' = fst kc /\ R (snd kc) (snd kc')) l l' ->
  od_get key l = Some c ->
  exists c', od_get key l' = Some c' /\ R c c'.
Proof.
  induction 1 as [|[k v] [k' v'] l l' [Hk HR] _ IH]; simpl; [discriminate|].
  simpl in Hk, HR. subst k'.
  destruct (String.eqb k key); [|exact IH].
  intros [= ->]. eauto.
Qed.

(** [analyze] as a whole: every component is analysed against the state
    the analysis starts from. *)
Lemma analyze_exact fs s s' r :
  NoDup (od_keys (DependencyAnalysis.components s)) ->
  analyze fs s = (s', r) ->
  r = Ok tt
  /\ evolves fs s s'
  /\ DependencyAnalysis.stderr s'
     = DependencyAnalysis.stderr s
       ++ flat_map (component_messages fs s) (DependencyAnalysis.components s)
  /\ Forall2 (fun kc kc' => fst kc' = fst kc
                            /\ analyzed fs s (snd kc) (snd kc'))
             (DependencyAnalysis.components s)
             (DependencyAnalysis.components s').
Proof.
  intros Hnd. unfold analyze, bind, get_self. intros H.
  apply (analyze_loop fs _ s) in H as (-> & Hev & _ & Hm & l' & Hl' & Hs').
  - split_and?; auto.
    rewrite Hs'.
    pose proof (fold_od_set_replace (DependencyAnalysis.components s) l' []
                  (Forall2_keys _ _ _ Hl') Hnd) as Hfold.
    simpl in Hfold. now rewrite Hfold.
  - apply evolves_refl.
  - reflexivity.
  - intros k c Hin. unfold store_hpath.
    now rewrite (od_elem_of_get _ _ _ Hnd Hin).
Qed.

(** The loop of [analyze] without any assumption on the store: what it
    leaves alone, and what it prints. *)
Lemma analyze_loop_frame fs l : forall s0 s s' r,
  evolves fs s0 s ->
  (forall kc, kc ∈ l -> fst kc ∈ od_keys (DependencyAnalysis.components s)) ->
  for_each (analyze_component fs) l s = (s', r) ->
  r = Ok tt
  /\ evolves fs s0 s'
  /\ od_keys (DependencyAnalysis.components s')
     = od_keys (DependencyAnalysis.components s)
  /\ DependencyAnalysis.stderr s'
     = DependencyAnalysis.stderr s ++ flat_map (component_messages fs s0) l.
Proof.
  induction l as [|[key c] l IH]; intros s0 s s' r Hev Hl;
    cbn [for_each flat_map].
  - unfold ret. intros [= <- <-]. split_and?; auto. now rewrite app_nil_r.
  - unfold bind at 1.
    destruct (analyze_component fs (key, c) s) as [s1 r1] eqn:E1.
    apply analyze_component_exact in E1 as (c' & -> & Hs1 & Han & Hev1 & Hm1).
    intros Hrest.
    assert (Hk1 : od_keys (DependencyAnalysis.components s1)
                  = od_keys (DependencyAnalysis.components s)).
    { rewrite Hs1. apply od_keys_set_old. apply (Hl (key, c)). left. }
    apply (IH s0) in Hrest as (-> & Hev' & Hk' & Hm').
    + split_and?; auto; [congruence|].
      rewrite Hm', Hm1, <- app_assoc. do 2 f_equal.
      eapply component_messages_transport; eauto.
    + eapply evolves_trans; eauto.
    + intros kc Hin. rewrite Hk1. apply Hl. now right.
Qed.

Lemma elem_of_od_keys {V} (d : odict V) kc : kc ∈ d -> fst kc ∈ od_keys d.
Proof.
  induction d as [|x d IH]; intros H.
  - now apply not_elem_of_nil in H.
  - simpl. apply elem_of_cons in H as [->|H]; [left|right; auto].
Qed.

Lemma internal_target_Some s c i k :
  internal_target s c i = Some k
  <-> Some (include_base i) <> Component.hfile c
      /\ DependencyAnalysis.internal_components s !! include_base i = Some k.
Proof.
  unfold internal_target. case_bool_decide; split.
  - discriminate.
  - now intros [? _].
  - now split.
  - now intros [_ ?].
Qed.

Lemma external_target_Some fs s c i e :
  external_target fs s c i = Some e
  <-> Some (include_base i) <> Component.hfile c
      /\ DependencyAnalysis.internal_components s !! include_base i = None
      /\ (DependencyAnalysis.external_components s !! include_base i = Some e
          \/ DependencyAnalysis.external_components s !! include_base i = None
             /\ exists found,
                  find_external_component fs (include_base i)
                    (DependencyAnalysis.external_groups s)
                  = Some (found, e)).
Proof.
  unfold external_target, resolves_outside. case_bool_decide; simpl.
  { split; [discriminate|]. now intros [? _]. }
  destruct (DependencyAnalysis.internal_components s !! include_base i);
    simpl.
  { split; [discriminate|]. now intros (_ & ? & _). }
  destruct (DependencyAnalysis.external_components s !! include_base i)
    as [e0|].
  { split.
    - intros [= ->]. split_and?; auto.
    - intros (_ & _ & [[= ->]|[[=] _]]). reflexivity. }
  destruct (find_external_component fs (include_base i)
              (DependencyAnalysis.external_groups s)) as [[found e0]|]; simpl.
  - split.
    + intros [= ->]. split_and?; auto. right. split; [reflexivity|]. eauto.
    + intros (_ & _ & [[=]|[_ [found' [= _ ->]]]]). reflexivity.
  - split; [discriminate|].
    intros (_ & _ & [[=]|[_ [found' [=]]]]).
Qed.

Lemma analyze_stored fs s key c :
  NoDup (od_keys (DependencyAnalysis.components s)) ->
  od_get key (DependencyAnalysis.components s) = Some c ->
  exists c',
    od_get key (DependencyAnalysis.components (fst (analyze fs s))) = Some c'
    /\ analyzed fs s c c'.
Proof.
  intros Hnd Hget.
  destruct (analyze fs s) as [s' r] eqn:E.
  apply analyze_exact in E as (_ & _ & _ & Hall); [|exact Hnd].
  simpl. eapply Forall2_od_get in Hall; eauto.
Qed.

(** ** What the resolution phase does *)

(** X1: the resolution phase only adds.  Whatever the file system and
    the state it starts from, [analyze] returns normally; it leaves the
    configuration path, both group tables, the header index and the index
    of internal components as they were; every entry of the external
    cache stays, and a new entry is what the search of the external
    groups finds for its key; the component store keeps its keys in their
    order. *)
Theorem analyze_only_adds (fs : FileSystem) (s : DependencyAnalysis.t) :
  snd (analyze fs s) = Ok tt
  /\ evolves fs s (fst (analyze fs s))
  /\ od_keys (DependencyAnalysis.components (fst (analyze fs s)))
     = od_keys (DependencyAnalysis.components s).
Proof.
  destruct (analyze fs s) as [s' r] eqn:E. simpl.
  unfold analyze, bind, get_self in E.
  apply (analyze_loop_frame fs _ s) in E as (-> & Hev & Hk & _); auto.
  - apply evolves_refl.
  - intros kc. apply elem_of_od_keys.
Qed.

(** X2: what the resolution phase prints.  The warnings come component
    by component in the order of the store: for each one the "header not
    found" warnings of its unresolved directives, header first, then the
    finding of the include check; which directives are unresolved is
    decided by the state the phase starts from, whatever it caches on the
    way. *)
Theorem analyze_warnings (fs : FileSystem) (s : DependencyAnalysis.t) :
  DependencyAnalysis.stderr (fst (analyze fs s))
  = DependencyAnalysis.stderr s
    ++ flat_map (component_messages fs s) (DependencyAnalysis.components s).
Proof.
  destruct (analyze fs s) as [s' r] eqn:E. simpl.
  unfold analyze, bind, get_self in E.
  apply (analyze_loop_frame fs _ s) in E as (_ & _ & _ & Hm); auto.
  - apply evolves_refl.
  - intros kc. apply elem_of_od_keys.
Qed.

(** X3: the internal edges the resolution phase adds.  With distinct
    keys in the store, the component under [key] keeps its identity, and
    afterwards depends on [k] exactly when it did before or one of its
    directives, of the header or of the implementation file, names by
    its basename a header other than its own that the index of internal
    components maps to [k]. *)
Theorem analyze_internal_edges (fs : FileSystem) (s : DependencyAnalysis.t)
    (key : string) (c : Component.t) :
  NoDup (od_keys (DependencyAnalysis.components s)) ->
  od_get key (DependencyAnalysis.components s) = Some c ->
  exists c',
    od_get key (DependencyAnalysis.components (fst (analyze fs s))) = Some c'
    /\ same_identity c c'
    /\ forall k,
         k ∈ Component.dep_internal_components c'
         <-> k ∈ Component.dep_internal_components c
             \/ exists i,
                  i ∈ all_includes c
                  /\ Some (include_base i) <> Component.hfile c
                  /\ DependencyAnalysis.internal_components s !! include_base i
                     = Some k.
Proof.
  intros Hnd Hget.
  destruct (analyze_stored fs s key c Hnd Hget) as (c' & Hc' & Hid & _ & _ & Hi & _).
  exists c'. split; [exact Hc'|]. split; [exact Hid|].
  intros k. rewrite Hi, elem_of_union, elem_of_list_to_set, list_elem_of_omap.
  split; (intros [H|(i & Hin & Ht)]; [now left|right; exists i]).
  - apply internal_target_Some in Ht. tauto.
  - split; [exact Hin|]. apply internal_target_Some. tauto.
Qed.

Lemma analyze_internal_edges_witness :
  exists c',
    od_get "widget"
      (DependencyAnalysis.components (fst (analyze demo_fs (fst demo_made))))
    = Some c'
    /\ same_identity demo_widget c'
    /\ forall k,
         k ∈ Component.dep_internal_components c'
         <-> k ∈ Component.dep_internal_components demo_widget
             \/ exists i,
                  i ∈ all_includes demo_widget
                  /\ Some (include_base i) <> Component.hfile demo_widget
                  /\ DependencyAnalysis.internal_components (fst demo_made)
                       !! include_base i
                     = Some k.
Proof.
  apply (analyze_internal_edges demo_fs (fst demo_made) "widget" demo_widget).
  - apply (bool_decide_unpack _). vm_compute. exact I.
  - vm_compute. reflexivity.
Defined.

(** X4: the external edges the resolution phase adds.  With distinct keys
    in the store, the component under [key] afterwards depends on the
    external component [e] exactly when it did before or one of its
    directives names a header other than its own that is not indexed as
    internal and for which [e] is the cached external component or, when
    nothing is cached, the one the search of the external groups finds:
    the cache entries made on the way never change the answer. *)
Theorem analyze_external_edges (fs : FileSystem) (s : DependencyAnalysis.t)
    (key : string) (c : Component.t) :
  NoDup (od_keys (DependencyAnalysis.components s)) ->
  od_get key (DependencyAnalysis.components s) = Some c ->
  exists c',
    od_get key (DependencyAnalysis.components (fst (analyze fs s))) = Some c'
    /\ forall e,
         e ∈ Component.dep_external_components c'
         <-> e ∈ Component.dep_external_components c
             \/ exists i,
                  i ∈ all_includes c
                  /\ Some (include_base i) <> Component.hfile c
                  /\ DependencyAnalysis.internal_components s !! include_base i
                     = None
                  /\ (DependencyAnalysis.external_components s !! include_base i
                      = Some e
                      \/ DependencyAnalysis.external_components s
                           !! include_base i = None
                         /\ exists found,
                              find_external_component fs (include_base i)
                                (DependencyAnalysis.external_groups s)
                              = Some (found, e)).
Proof.
  intros Hnd Hget.
  destruct (analyze_stored fs s key c Hnd Hget) as (c' & Hc' & _ & _ & _ & _ & He).
  exists c'. split; [exact Hc'|].
  intros e. rewrite He, elem_of_union, elem_of_list_to_set, list_elem_of_omap.
  split; (intros [H|(i & Hin & Ht)]; [now left|right; exists i]).
  - apply external_target_Some in Ht. tauto.
  - split; [exact Hin|]. apply external_target_Some. tauto.
Qed.

Lemma analyze_external_edges_witness :
  exists c',
    od_get "gadget"
      (DependencyAnalysis.components (fst (analyze demo_fs (fst demo_made))))
    = Some c'
    /\ forall e,
         e ∈ Component.dep_external_components c'
         <-> e ∈ Component.dep_external_components demo_gadget
             \/ exists i,
                  i ∈ all_includes demo_gadget
                  /\ Some (include_base i) <> Component.hfile demo_gadget
                  /\ DependencyAnalysis.internal_components (fst demo_made)
                       !! include_base i
                     = None
                  /\ (DependencyAnalysis.external_components (fst demo_made)
                        !! include_base i
                      = Some e
                      \/ DependencyAnalysis.external_components (fst demo_made)
                           !! include_base i = None
                         /\ exists found,
                              find_external_component demo_fs (include_base i)
                                (DependencyAnalysis.external_groups
                                   (fst demo_made))
                              = Some (found, e)).
Proof.
  apply (analyze_external_edges demo_fs (fst demo_made) "gadget" demo_gadget).
  - apply (bool_decide_unpack _). vm_compute. exact I.
  - vm_compute. reflexivity.
Defined.

(** X5: what the resolution phase records in the directives.  With
    distinct keys in the store, the directive lists of a component keep
    their length and order, every directive keeps its text and its
    delimiters, and its path becomes: the component's own header path for
    its own header; the header path of the indexed component for an
    internal header; some path for an external one; and stays as it was
    when the header is found nowhere. *)
Theorem analyze_include_paths (fs : FileSystem) (s : DependencyAnalysis.t)
    (key : string) (c : Component.t) :
  NoDup (od_keys (DependencyAnalysis.components s)) ->
  od_get key (DependencyAnalysis.components s) = Some c ->
  exists c',
    od_get key (DependencyAnalysis.components (fst (analyze fs s))) = Some c'
    /\ Forall2 (include_outcome fs s c)
               (Component.includes_in_h c) (Component.includes_in_h c')
    /\ Forall2 (include_outcome fs s c)
               (Component.includes_in_c c) (Component.includes_in_c c').
Proof.
  intros Hnd Hget.
  destruct (analyze_stored fs s key c Hnd Hget) as (c' & Hc' & _ & Hh & Hc & _).
  eauto.
Qed.

Lemma analyze_include_paths_witness :
  exists c',
    od_get "gadget"
      (DependencyAnalysis.components (fst (analyze demo_fs (fst demo_made))))
    = Some c'
    /\ Forall2 (include_outcome demo_fs (fst demo_made) demo_gadget)
               (Component.includes_in_h demo_gadget)
               (Component.includes_in_h c')
    /\ Forall2 (include_outcome demo_fs (fst demo_made) demo_gadget)
               (Component.includes_in_c demo_gadget)
               (Component.includes_in_c c').
Proof.
  apply (analyze_include_paths demo_fs (fst demo_made) "gadget" demo_gadget).
  - apply (bool_decide_unpack _). vm_compute. exact I.
  - vm_compute. reflexivity.
Defined.

(** ** The run as a whole *)

Lemma parse_groups_frame_rest fs els s s' r :
  parse_groups fs els s = (s', r) ->
  DependencyAnalysis.external_components s'
  = DependencyAnalysis.external_components s
  /\ DependencyAnalysis.internal_hfiles s' = DependencyAnalysis.internal_hfiles s
  /\ DependencyAnalysis.stderr s' = DependencyAnalysis.stderr s
  /\ DependencyAnalysis.config_file s' = DependencyAnalysis.config_file s.
Proof.
  revert s. induction els as [|el rest IH]; intros s; simpl.
  - unfold ret. now intros [= <- <-].
  - unfold_M.
    match goal with
    | |- context [if ?b then ret tt else _] => destruct b
    end; [unfold ret|now intros [= <- <-]].
    destruct (bool_decide (grp_role el = Some "external")).
    + destruct (add_package_group fs el (DependencyAnalysis.external_groups s));
        [|now intros [= <- <-]].
      intros H. now apply IH in H.
    + destruct (add_package_group fs el (DependencyAnalysis.internal_groups s));
        [|now intros [= <- <-]].
      intros H. now apply IH in H.
Qed.

(** The phases of a run of [main] that completes. *)
Lemma main_phases fs config s :
  main fs config (DependencyAnalysis_new config) = (s, Ok tt) ->
  exists root s1 s2,
    fs_xml fs config = Ok root
    /\ parse_groups fs root (DependencyAnalysis_new config) = (s1, Ok tt)
    /\ make_components fs s1 = (s2, Ok tt)
    /\ analyze fs s2 = (s, Ok tt).
Proof.
  unfold main, DependencyAnalysis_init, parse_xml_config.
  unfold bind at 1. unfold bind at 1. unfold lift at 1.
  destruct (fs_xml fs config) as [root|e]; [|discriminate].
  destruct (parse_groups fs root (DependencyAnalysis_new config))
    as [s1 [[]|e]] eqn:E1; [|discriminate].
  unfold bind at 1.
  destruct (make_components fs s1) as [s2 [[]|e]] eqn:E2; [|discriminate].
  intros H. exists root, s1, s2. auto.
Qed.

(** What file pairing establishes when it starts from the parsed
    configuration. *)
Lemma made_state fs config root s1 s2 r1 r2 :
  parse_groups fs root (DependencyAnalysis_new config) = (s1, r1) ->
  make_components fs s1 = (s2, r2) ->
  NoDup (od_keys (DependencyAnalysis.components s2))
  /\ internal_components_ok s2
  /\ (forall k c, od_get k (DependencyAnalysis.components s2) = Some c ->
        exists package, internal_package s1 package
                        /\ constructed_for package c)
  /\ DependencyAnalysis.external_components s2 = ∅.
Proof.
  intros E1 E2.
  pose proof (parse_groups_frame _ _ _ _ _ E1) as [Hc1 Hi1].
  pose proof (parse_groups_frame_rest _ _ _ _ _ E1) as (He1 & _).
  simpl in Hc1, Hi1, He1.
  apply make_components_extends in E2 as (_ & Hnew & Hnd & Hok & _ & He2).
  split_and?.
  - apply Hnd. rewrite Hc1. apply NoDup_nil_2.
  - apply Hok. intros h k Hl. rewrite Hi1 in Hl.
    now rewrite lookup_empty in Hl.
  - intros k c Hk. apply Hnew in Hk as [Hk|Hk]; [|exact Hk].
    rewrite Hc1 in Hk. discriminate.
  - now rewrite He2, He1.
Qed.

Lemma constructed_for_hpath package c h :
  constructed_for package c -> Component.hfile c = Some h ->
  is_Some (Component.hpath c).
Proof.
  intros (_ & Hf & _) Hh. rewrite Hf in Hh.
  destruct (Component.hpath c); [eauto|discriminate].
Qed.

Lemma Forall2_od_get_r (R : Component.t -> Component.t -> Prop)
    (l l' : odict Component.t) key c' :
  Forall2 (fun kc kc' => fst kc' = fst kc /\ R (snd kc) (snd kc')) l l' ->
  od_get key l' = Some c' ->
  exists c, od_get key l = Some c /\ R c c'.
Proof.
  induction 1 as [|[k v] [k' v'] l l' [Hk HR] _ IH]; simpl; [discriminate|].
  simpl in Hk, HR. subst k'.
  destruct (String.eqb k key); [|exact IH].
  intros [= ->]. eauto.
Qed.

Lemma Forall2_elem_of_right {A B} (R : A -> B -> Prop) l l' y :
  Forall2 R l l' -> y ∈ l' -> exists x, x ∈ l /\ R x y.
Proof.
  induction 1 as [|x y' l l' HR _ IH]; intros Hin.
  - now apply not_elem_of_nil in Hin.
  - apply elem_of_cons in Hin as [->|Hin].
    + exists x. split; [left|exact HR].
    + destruct (IH Hin) as (x' & Hx' & HR'). exists x'. split; [now right|exact HR'].
Qed.

Lemma analyzed_all_includes fs s c c' i' :
  analyzed fs s c c' -> i' ∈ all_includes c' ->
  exists i, i ∈ all_includes c /\ include_outcome fs s c i i'.
Proof.
  intros (_ & Hh & Hc & _) Hin. unfold all_includes in *.
  apply elem_of_app in Hin as [Hin|Hin];
    [eapply Forall2_elem_of_right in Hh as (i & Hi & Ho)
    |eapply Forall2_elem_of_right in Hc as (i & Hi & Ho)]; eauto;
    exists i; (split; [apply elem_of_app; auto|exact Ho]).
Qed.

(** X6: no directive is dropped silently.  In a run of [main] that
    completes, every include directive of every component either carries
    the path it was resolved to, or the warning that its header was not
    found was printed for it. *)
Theorem main_accounts_for_every_directive (fs : FileSystem) (config : string)
    (s : DependencyAnalysis.t) :
  main fs config (DependencyAnalysis_new config) = (s, Ok tt) ->
  forall key c i,
    od_get key (DependencyAnalysis.components s) = Some c ->
    i ∈ all_includes c ->
    is_Some (Include.hpath i)
    \/ WarnHeaderNotFound i ∈ DependencyAnalysis.stderr s.
Proof.
  intros Hmain key c' i' Hget Hin.
  apply main_phases in Hmain as (root & s1 & s2 & _ & E1 & E2 & E3).
  destruct (made_state _ _ _ _ _ _ _ E1 E2) as (Hnd & Hok & Hcf & _).
  apply analyze_exact in E3 as (_ & _ & Hm & Hall); [|exact Hnd].
  destruct (Forall2_od_get_r _ _ _ _ _ Hall Hget) as (c & Hc & Han).
  destruct (analyzed_all_includes _ _ _ _ _ Han Hin) as (i & Hi & Hf & Hq & Ho).
  destruct (unresolved fs s2 c i) eqn:Eu.
  - right. rewrite Hm. apply elem_of_app. right.
    apply elem_of_flat_map. exists (key, c). split.
    + now apply od_get_elem_of.
    + unfold component_messages. apply elem_of_app. left. simpl.
      unfold not_found_messages.
      assert (Heq : i' = i).
      { destruct i, i'. simpl in *. congruence. }
      rewrite Heq.
      apply list_elem_of_In, in_map, list_elem_of_In, list_elem_of_filter.
      split; [exact Eu|exact Hi].
  - left. case_bool_decide as Hown.
    + rewrite Ho. destruct (Hcf _ _ Hc) as (package & _ & Hp).
      eapply constructed_for_hpath; eauto.
    + destruct (DependencyAnalysis.internal_components s2 !! include_base i)
        as [dep|] eqn:Ei; [|exact Ho].
      rewrite Ho. destruct (Hok _ _ Ei) as (d & Hd & Hdf).
      unfold store_hpath. rewrite Hd. simpl.
      destruct (Hcf _ _ Hd) as (package & _ & Hp).
      eapply constructed_for_hpath; eauto.
Qed.

Lemma main_accounts_for_every_directive_witness :
  is_Some (Include.hpath (Include.init "nowhere.h" true))
  \/ WarnHeaderNotFound (Include.init "nowhere.h" true)
     ∈ DependencyAnalysis.stderr (fst demo_run).
Proof.
  assert (H : main demo_fs "cppdep.xml" (DependencyAnalysis_new "cppdep.xml")
              = (fst demo_run, Ok tt)) by (vm_compute; reflexivity).
  destruct (od_get "main" (DependencyAnalysis.components (fst demo_run)))
    as [c|] eqn:E; [|vm_compute in E; discriminate].
  apply (main_accounts_for_every_directive demo_fs "cppdep.xml" (fst demo_run)
           H "main" c (Include.init "nowhere.h" true) E).
  vm_compute in E. injection E as <-.
  unfold all_includes. simpl. right. left.
Defined.

(** ** The cache of external components *)

Lemma analyze_include_cache fs i c s s' r :
  analyze_include fs i c s = (s', r) ->
  forall h e,
    DependencyAnalysis.external_components s' !! h = Some e
    <-> DependencyAnalysis.external_components s !! h = Some e
        \/ include_base i = h /\ external_target fs s c i = Some e.
Proof.
  unfold analyze_include, locate, bind, external_target, resolves_outside,
    include_base.
  case_bool_decide as Hown; simpl.
  { intros [= <- <-] h e. split; [auto|]. now intros [?|[_ [=]]]. }
  destruct (DependencyAnalysis.internal_components s !! _) as [dep|] eqn:Ei; simpl.
  { intros [= <- <-] h e. split; [auto|]. now intros [?|[_ [=]]]. }
  destruct (DependencyAnalysis.external_components s !! _) as [e0|] eqn:Ee; simpl.
  { intros [= <- <-] h e. split; [auto|].
    intros [?|[<- [= <-]]]; [assumption|exact Ee]. }
  destruct (find_external_component fs _ _) as [[found e0]|] eqn:Ef; simpl.
  - intros [= <- <-] h e. simpl. rewrite lookup_insert. case_decide as Hd.
    + subst h. split.
      * intros [= <-]. right. now split.
      * intros [He|[_ [= <-]]]; [congruence|reflexivity].
    + split; [auto|]. intros [He|[Hh _]]; [exact He|contradiction].
  - intros [= <- <-] h e. split; [auto|]. now intros [?|[_ [=]]].
Qed.

Lemma analyze_includes_cache fs l c s s' r :
  analyze_includes fs l c s = (s', r) ->
  forall h e,
    DependencyAnalysis.external_components s' !! h = Some e
    <-> DependencyAnalysis.external_components s !! h = Some e
        \/ exists i, i ∈ l /\ include_base i = h
                     /\ external_target fs s c i = Some e.
Proof.
  revert c s s' r. induction l as [|i l IH]; intros c s s' r.
  - simpl. unfold ret. intros [= <- <-] h e. split; [auto|].
    intros [?|(i & Hi & _)]; [assumption|]. now apply not_elem_of_nil in Hi.
  - cbn [analyze_includes]. unfold bind at 1.
    destruct (analyze_include fs i c s) as [s1 r1] eqn:E1.
    pose proof (analyze_include_cache _ _ _ _ _ _ E1) as Hc1.
    apply analyze_include_exact in E1
      as (i1 & c1 & -> & Hid1 & _ & _ & _ & _ & _ & Hev1 & _).
    unfold bind at 1.
    destruct (analyze_includes fs l c1 s1) as [s2 r2] eqn:E2.
    pose proof (IH _ _ _ _ E2) as Hc2.
    apply analyze_includes_exact in E2 as (l2 & c2 & -> & _).
    unfold ret. intros [= <- <-] h e.
    pose proof Hid1 as (_ & _ & Hf1 & _).
    rewrite Hc2, Hc1. split.
    + intros [[He|[Hb Ht]]|(x & Hx & Hb & Ht)].
      * now left.
      * right. exists i. split; [left|auto].
      * right. exists x. split; [now right|]. split; [exact Hb|].
        rewrite <- Ht, (external_target_hfile _ _ _ _ _ Hf1).
        symmetry. eapply external_target_evolves; eauto.
    + intros [He|(x & Hx & Hb & Ht)]; [now left; left|].
      apply elem_of_cons in Hx as [->|Hx]; [now left; right|].
      right. exists x. split; [exact Hx|]. split; [exact Hb|].
      rewrite <- Ht, (external_target_hfile _ _ _ _ _ Hf1).
      eapply external_target_evolves; eauto.
Qed.

Lemma analyze_component_cache fs key c s s' r :
  analyze_component fs (key, c) s = (s', r) ->
  forall h e,
    DependencyAnalysis.external_components s' !! h = Some e
    <-> DependencyAnalysis.external_components s !! h = Some e
        \/ exists i, i ∈ all_includes c /\ include_base i = h
                     /\ external_target fs s c i = Some e.
Proof.
  unfold analyze_component. unfold bind at 1.
  destruct (analyze_includes fs (Component.includes_in_h c) c s)
    as [s1 r1] eqn:E1.
  pose proof (analyze_includes_cache _ _ _ _ _ _ E1) as Hc1.
  apply analyze_includes_exact in E1
    as (in_h & c1 & -> & Hid1 & _ & _ & _ & _ & _ & Hev1 & _).
  unfold bind at 1.
  destruct (analyze_includes fs (Component.includes_in_c c) c1 s1)
    as [s2 r2] eqn:E2.
  pose proof (analyze_includes_cache _ _ _ _ _ _ E2) as Hc2.
  apply analyze_includes_exact in E2 as (in_c & c2 & -> & _).
  unfold bind, store_component, modify. rewrite for_each_warn.
  intros [= <- <-] h e. simpl.
  pose proof Hid1 as (_ & _ & Hf1 & _).
  assert (Ht : forall x, external_target fs s1 c1 x = external_target fs s c x).
  { intros x. rewrite (external_target_hfile _ _ _ _ _ Hf1).
    eapply external_target_evolves; eauto. }
  rewrite Hc2, Hc1. unfold all_includes. split.
  - intros [[He|(x & Hx & Hb & Hx')]|(x & Hx & Hb & Hx')].
    + now left.
    + right. exists x. split; [apply elem_of_app; auto|auto].
    + right. exists x. split; [apply elem_of_app; auto|]. now rewrite <- Ht.
  - intros [He|(x & Hx & Hb & Hx')]; [now left; left|].
    apply elem_of_app in Hx as [Hx|Hx].
    + left. right. eauto.
    + right. exists x. now rewrite Ht.
Qed.

Lemma analyze_loop_cache fs l : forall s0 s s' r,
  evolves fs s0 s ->
  for_each (analyze_component fs) l s = (s', r) ->
  forall h e,
    DependencyAnalysis.external_components s' !! h = Some e
    <-> DependencyAnalysis.external_components s !! h = Some e
        \/ exists kc i, kc ∈ l /\ i ∈ all_includes (snd kc)
                        /\ include_base i = h
                        /\ external_target fs s0 (snd kc) i = Some e.
Proof.
  induction l as [|[key c] l IH]; intros s0 s s' r Hev; cbn [for_each].
  - unfold ret. intros [= <- <-] h e. split; [auto|].
    intros [?|(kc & i & Hkc & _)]; [assumption|].
    now apply not_elem_of_nil in Hkc.
  - unfold bind at 1.
    destruct (analyze_component fs (key, c) s) as [s1 r1] eqn:E1.
    pose proof (analyze_component_cache _ _ _ _ _ _ E1) as Hc1.
    apply analyze_component_exact in E1 as (c' & -> & _ & _ & Hev1 & _).
    intros Hrest h e.
    rewrite (IH s0 s1 s' r (evolves_trans _ _ _ _ Hev Hev1) Hrest), Hc1.
    assert (Ht : forall x, external_target fs s c x = external_target fs s0 c x).
    { intros x. eapply external_target_evolves; eauto. }
    split.
    + intros [[He|(x & Hx & Hb & Hx')]|(kc & x & Hkc & Hx & Hb & Hx')].
      * now left.
      * right. exists (key, c), x. split; [left|]. simpl. now rewrite <- Ht.
      * right. exists kc, x. split; [now right|auto].
    + intros [He|(kc & x & Hkc & Hx & Hb & Hx')]; [now left; left|].
      apply elem_of_cons in Hkc as [->|Hkc].
      * left. right. exists x. simpl in *. now rewrite Ht.
      * right. eauto 10.
Qed.

(** X7: the cache of external components after the resolution phase.
    [external_components] then maps the basename [h] to [e] exactly when
    it did before, or it had no entry for [h] and some directive of some
    component names [h], other than as the component's own header and not
    indexed as internal, for which the search of the external groups
    finds [e]. *)
Theorem analyze_external_cache (fs : FileSystem) (s : DependencyAnalysis.t)
    (h : string) (e : ExternalComponent.t) :
  DependencyAnalysis.external_components (fst (analyze fs s)) !! h = Some e
  <-> DependencyAnalysis.external_components s !! h = Some e
      \/ DependencyAnalysis.external_components s !! h = None
         /\ exists kc i,
              kc ∈ DependencyAnalysis.components s
              /\ i ∈ all_includes (snd kc)
              /\ include_base i = h
              /\ Some h <> Component.hfile (snd kc)
              /\ DependencyAnalysis.internal_components s !! h = None
              /\ exists found,
                   find_external_component fs h
                     (DependencyAnalysis.external_groups s)
                   = Some (found, e).
Proof.
  destruct (analyze fs s) as [s' r] eqn:E. simpl.
  unfold analyze, bind, get_self in E.
  rewrite (analyze_loop_cache fs _ s s s' r (evolves_refl fs s) E). split.
  - intros [He|(kc & i & Hkc & Hi & <- & Ht)]; [now left|].
    apply external_target_Some in Ht as (Hown & Hint & [He|[Hn Hf]]).
    + now left.
    + right. split; [exact Hn|]. exists kc, i. auto 10.
  - intros [He|(Hn & kc & i & Hkc & Hi & <- & Hown & Hint & Hf)]; [now left|].
    right. exists kc, i. split_and?; auto.
    apply external_target_Some. auto.
Qed.

(** ** The pairing rule *)

Lemma od_del_absent {V} k (d : odict V) : od_mem k d = false -> od_del k d = d.
Proof.
  unfold od_mem. induction d as [|[k0 v0] d IH]; simpl; [reflexivity|].
  destruct (String.eqb k0 k); [discriminate|]. intros H. now rewrite IH.
Qed.

Lemma od_del_if {V} k (d : odict V) :
  (if od_mem k d then od_del k d else d) = od_del k d.
Proof.
  destruct (od_mem k d) eqn:E; [reflexivity|]. now rewrite od_del_absent.
Qed.

Lemma elem_of_od_del {V} k (d : odict V) kv :
  kv ∈ od_del k d <-> kv ∈ d /\ fst kv <> k.
Proof.
  induction d as [|[k0 v0] d IH]; simpl.
  - split; [intros H; now apply not_elem_of_nil in H|].
    intros [H _]. now apply not_elem_of_nil in H.
  - destruct (String.eqb k0 k) eqn:E.
    + apply String.eqb_eq in E. subst k0. rewrite IH, elem_of_cons. split.
      * intros [H Hne]. auto.
      * intros [[->|H] Hne]; [now simpl in Hne|auto].
    + apply String.eqb_neq in E. rewrite !elem_of_cons, IH. split.
      * intros [->|[H Hne]]; auto.
      * intros [[->|H] Hne]; auto.
Qed.

(** The implementation base names the first loop of
    [__construct_components] leaves for the second. *)
Lemma elem_of_leftover {V} (keys : list string) (d : odict V) kv :
  kv ∈ fold_left (fun acc k => od_del k acc) keys d
  <-> kv ∈ d /\ fst kv ∉ keys.
Proof.
  revert d. induction keys as [|k keys IH]; intros d; simpl.
  - split; [intros H; split; [exact H|apply not_elem_of_nil]|now intros [H _]].
  - rewrite IH, elem_of_od_del, not_elem_of_cons. tauto.
Qed.

Lemma od_keys_del {V} k (d : odict V) :
  od_keys (od_del k d) = filter (fun x => x <> k) (od_keys d).
Proof.
  induction d as [|[k0 v0] d IH]; simpl; [reflexivity|].
  rewrite filter_cons. simpl. destruct (String.eqb k0 k) eqn:E.
  - apply String.eqb_eq in E. subst k0. rewrite decide_False by auto. exact IH.
  - apply String.eqb_neq in E. rewrite decide_True by auto. simpl. now rewrite IH.
Qed.

Lemma od_keys_leftover {V} (keys : list string) (d : odict V) :
  od_keys (fold_left (fun acc k => od_del k acc) keys d)
  = filter (fun x => x ∉ keys) (od_keys d).
Proof.
  revert d. induction keys as [|k keys IH]; intros d; simpl.
  - symmetry. induction (od_keys d) as [|x l IHl]; [reflexivity|].
    rewrite filter_cons, decide_True by apply not_elem_of_nil.
    now rewrite IHl.
  - rewrite IH, od_keys_del. clear IH.
    induction (od_keys d) as [|x l IHl]; [reflexivity|].
    rewrite !filter_cons. destruct (decide (x <> k)) as [Hne|He].
    + rewrite filter_cons. destruct (decide (x ∉ keys)) as [Hn|Hi].
      * rewrite decide_True by (apply not_elem_of_cons; auto). now rewrite IHl.
      * rewrite decide_False; [exact IHl|].
        intros H. apply not_elem_of_cons in H as [_ H]. contradiction.
    + rewrite decide_False; [exact IHl|].
      intros H. apply not_elem_of_cons in H as [H _]. contradiction.
Qed.

Lemma od_mem_elem_of {V} k (v : V) d : (k, v) ∈ d -> od_mem k d = true.
Proof.
  intros H. apply od_mem_true. now apply (elem_of_od_keys d (k, v)).
Qed.

Lemma paired_store_keys key c s :
  od_mem key (DependencyAnalysis.components s) = false ->
  od_keys (DependencyAnalysis.components (paired_store key c s))
  = od_keys (DependencyAnalysis.components s) ++ [key].
Proof.
  intros Hm. apply od_mem_false in Hm. unfold paired_store.
  destruct (Component.hfile c); simpl; now apply od_keys_set_new.
Qed.

Lemma paired_store_get key c s :
  od_get key (DependencyAnalysis.components (paired_store key c s)) = Some c.
Proof.
  unfold paired_store. destruct (Component.hfile c); simpl;
    apply od_get_set_eq.
Qed.

(** The first loop of [__construct_components] when it completes. *)
Lemma construct_paired_exact fs package hbases : forall cbases s s' cbases',
  construct_paired fs package hbases cbases s = (s', Ok cbases') ->
  cbases' = fold_left (fun acc k => od_del k acc) (od_keys hbases) cbases
  /\ od_keys (DependencyAnalysis.components s')
     = od_keys (DependencyAnalysis.components s) ++ od_keys hbases
  /\ forall key hpath, (key, hpath) ∈ hbases ->
       exists c, od_get key (DependencyAnalysis.components s') = Some c
                 /\ Component.hpath c = Some hpath
                 /\ Component.cpath c = od_get key cbases
                 /\ constructed_for package c.
Proof.
  induction hbases as [|[k0 h0] rest IH]; intros cbases s s' cbases' H.
  - simpl in H. unfold_M. injection H as <- <-. simpl.
    rewrite app_nil_r. split_and?; auto.
    intros key hpath Hin. now apply not_elem_of_nil in Hin.
  - apply construct_paired_cons in H
      as [(_ & _ & [=])|[(_ & e & _ & [=])|(Hm & s1 & c & Hi & Hrest)]].
    pose proof (Component_init_spec _ _ _ _ _ _ _ _ Hi)
      as (Hc & _ & _ & _ & _ & Hok & _).
    destruct (Hok c eq_refl) as (Hh & Hcp & Hcf).
    rewrite od_del_if in Hrest.
    assert (Hstored : od_mem k0 (DependencyAnalysis.components
                                   (paired_store k0 c s1)) = true).
    { unfold od_mem. now rewrite paired_store_get. }
    pose proof (construct_paired_dup _ _ _ _ _ _ _ _ Hstored Hrest)
      as (Hfresh & _).
    pose proof (construct_paired_extends _ _ _ _ _ _ _ Hrest) as (Hold & _).
    apply IH in Hrest as (-> & Hk & Hall).
    split_and?.
    + reflexivity.
    + rewrite Hk, paired_store_keys by (now rewrite Hc).
      rewrite Hc, <- app_assoc. reflexivity.
    + intros key hpath Hin. apply elem_of_cons in Hin as [[= -> ->]|Hin].
      * exists c. split; [apply Hold, paired_store_get|auto].
      * destruct (Hall _ _ Hin) as (c1 & Hg & Hh1 & Hc1 & Hcf1).
        exists c1. split_and?; auto.
        rewrite Hc1. apply od_get_del_ne. intros ->.
        apply od_mem_elem_of in Hin. congruence.
Qed.

(** The second loop of [__construct_components] when it completes. *)
Lemma construct_unpaired_exact fs package cbases : forall s s',
  construct_unpaired fs package cbases s = (s', Ok tt) ->
  od_keys (DependencyAnalysis.components s')
  = od_keys (DependencyAnalysis.components s) ++ od_keys cbases
  /\ forall key cpath, (key, cpath) ∈ cbases ->
       exists c, od_get key (DependencyAnalysis.components s') = Some c
                 /\ Component.hpath c = None
                 /\ Component.cpath c = Some cpath
                 /\ constructed_for package c.
Proof.
  induction cbases as [|[k0 c0] rest IH]; intros s s' H.
  - simpl in H. unfold_M. injection H as <-. simpl.
    rewrite app_nil_r. split; [reflexivity|].
    intros key cpath Hin. now apply not_elem_of_nil in Hin.
  - apply construct_unpaired_cons in H
      as [(_ & _ & [=])|[(_ & e & _ & [=])|(Hm & s1 & c & Hi & Hrest)]].
    pose proof (Component_init_spec _ _ _ _ _ _ _ _ Hi)
      as (Hc & _ & _ & _ & _ & Hok & _).
    destruct (Hok c eq_refl) as (Hh & Hcp & Hcf).
    pose proof (construct_unpaired_extends _ _ _ _ _ _ Hrest) as (Hold & _).
    apply IH in Hrest as (Hk & Hall).
    split.
    + rewrite Hk. unfold unpaired_store. simpl.
      rewrite od_keys_set_new by (apply od_mem_false; now rewrite Hc).
      rewrite Hc, <- app_assoc. reflexivity.
    + intros key cpath Hin. apply elem_of_cons in Hin as [[= -> ->]|Hin].
      * exists c. split; [|auto]. apply Hold. unfold unpaired_store. simpl.
        apply od_get_set_eq.
      * exact (Hall _ _ Hin).
Qed.

(** X8: the pairing rule of [__construct_components].  When the pairing
    of a package completes, the store has gained, after the keys it had,
    one key per header base name in their order, then one per
    implementation base name that no header shares, in their order; the
    component of a header base name has the header path of that base
    name and, as implementation path, the one the implementation files
    have for the same base name, if any; the component of an unshared
    implementation base name has no header and that implementation
    path. *)
Theorem construct_components_pairing (fs : FileSystem) (package : Package.t)
    (hbases cbases : odict string) (s s' : DependencyAnalysis.t) :
  construct_components fs package hbases cbases s = (s', Ok tt) ->
  od_keys (DependencyAnalysis.components s')
  = od_keys (DependencyAnalysis.components s) ++ od_keys hbases
    ++ filter (fun k => k ∉ od_keys hbases) (od_keys cbases)
  /\ (forall key hpath, (key, hpath) ∈ hbases ->
        exists c, od_get key (DependencyAnalysis.components s') = Some c
                  /\ Component.hpath c = Some hpath
                  /\ Component.cpath c = od_get key cbases)
  /\ (forall key cpath, (key, cpath) ∈ cbases -> key ∉ od_keys hbases ->
        exists c, od_get key (DependencyAnalysis.components s') = Some c
                  /\ Component.hpath c = None
                  /\ Component.hfile c = None
                  /\ Component.cpath c = Some cpath).
Proof.
  unfold construct_components. unfold bind at 1.
  destruct (construct_paired fs package hbases cbases s) as [s1 [cb|e]] eqn:E1;
    [|discriminate].
  intros E2.
  apply construct_paired_exact in E1 as (-> & Hk1 & Hall1).
  pose proof (construct_unpaired_extends _ _ _ _ _ _ E2) as (Hold & _).
  apply construct_unpaired_exact in E2 as (Hk2 & Hall2).
  split_and?.
  - now rewrite Hk2, Hk1, od_keys_leftover, <- app_assoc.
  - intros key hpath Hin. destruct (Hall1 _ _ Hin) as (c & Hg & Hh & Hc & _).
    exists c. auto.
  - intros key cpath Hin Hn.
    destruct (Hall2 key cpath) as (c & Hg & Hh & Hc & Hcf).
    { apply elem_of_leftover. auto. }
    exists c. split_and?; auto.
    destruct Hcf as (_ & Hf & _). rewrite Hf, Hh. reflexivity.
Qed.

Lemma Component_init_stderr fs key hpath cpath package s s' c :
  Component_init fs key hpath cpath package s = (s', Ok c) ->
  DependencyAnalysis.stderr s'
  = DependencyAnalysis.stderr s
    ++ (if truthy hpath then []
        else [WarnIncompleteComponent (Component.name c)
                (Package.name package) (Package.group package)]).
Proof.
  unfold Component_init.
  destruct (truthy hpath || truthy cpath) eqn:Et; unfold_M; simpl;
    [|discriminate].
  destruct (truthy hpath) eqn:Eh; simpl;
    (match goal with
     | |- context [grep_if fs hpath ?sa] =>
         destruct (grep_if fs hpath sa) as [sb rb] eqn:Egh;
         apply grep_if_spec in Egh as [-> _]
     end);
    (destruct rb as [in_h|e]; [|discriminate]);
    (match goal with
     | |- context [grep_if fs cpath ?sa] =>
         destruct (grep_if fs cpath sa) as [sc rc] eqn:Egc;
         apply grep_if_spec in Egc as [-> _]
     end);
    (destruct rc as [in_c|e]; [|discriminate]);
    intros [= <- <-]; simpl; [now rewrite app_nil_r|reflexivity].
Qed.

Lemma od_del_filter {V} k (d : list (string * V)) :
  od_del k d = filter (fun kc => fst kc <> k) d.
Proof.
  induction d as [|[k0 v0] d IH]; [reflexivity|].
  rewrite filter_cons. cbn [od_del fst]. destruct (String.eqb k0 k) eqn:E.
  - apply String.eqb_eq in E. subst k0. rewrite decide_False by auto. exact IH.
  - apply String.eqb_neq in E. rewrite decide_True by auto. now rewrite IH.
Qed.

Lemma leftover_filter {V} (keys : list string) (d : list (string * V)) :
  fold_left (fun acc k => od_del k acc) keys d
  = filter (fun kc => fst kc ∉ keys) d.
Proof.
  revert d. induction keys as [|k keys IH]; intros d; cbn [fold_left].
  - induction d as [|x l IHl]; [reflexivity|].
    rewrite filter_cons, decide_True by apply not_elem_of_nil.
    now rewrite <- IHl.
  - rewrite IH, od_del_filter. clear IH.
    induction d as [|x l IHl]; [reflexivity|].
    rewrite !filter_cons. destruct (decide (fst x <> k)) as [Hne|He].
    + rewrite filter_cons. destruct (decide (fst x ∉ keys)) as [Hn|Hi].
      * rewrite decide_True by (apply not_elem_of_cons; auto). now rewrite IHl.
      * rewrite decide_False; [exact IHl|].
        intros H. apply not_elem_of_cons in H as [_ H]. contradiction.
    + rewrite decide_False; [exact IHl|].
      intros H. apply not_elem_of_cons in H as [H _]. contradiction.
Qed.

Lemma paired_store_stderr key c s :
  DependencyAnalysis.stderr (paired_store key c s) = DependencyAnalysis.stderr s.
Proof. unfold paired_store. now destruct (Component.hfile c). Qed.

Lemma construct_paired_stderr fs package hbases : forall cbases s s' cbases',
  (forall key hpath, (key, hpath) ∈ hbases -> hpath <> EmptyString) ->
  construct_paired fs package hbases cbases s = (s', Ok cbases') ->
  DependencyAnalysis.stderr s' = DependencyAnalysis.stderr s.
Proof.
  induction hbases as [|[k0 h0] rest IH]; intros cbases s s' cbases' Hne H.
  - simpl in H. unfold_M. now injection H as <- <-.
  - apply construct_paired_cons in H
      as [(_ & _ & [=])|[(_ & e & _ & [=])|(Hm & s1 & c & Hi & Hrest)]].
    apply Component_init_stderr in Hi.
    apply IH in Hrest.
    + rewrite Hrest, paired_store_stderr, Hi. simpl.
      assert (Hh : h0 <> EmptyString) by (apply (Hne k0); left).
      destruct h0; [contradiction|]. simpl. apply app_nil_r.
    + intros key hpath Hin. apply (Hne key). now right.
Qed.

Lemma construct_unpaired_stderr fs package cbases : forall s s',
  construct_unpaired fs package cbases s = (s', Ok tt) ->
  DependencyAnalysis.stderr s'
  = DependencyAnalysis.stderr s
    ++ map (fun kc =>
              WarnIncompleteComponent
                (strip_ext (str_drop (String.length (Package.root package) + 1)
                                     (snd kc)))
                (Package.name package) (Package.group package))
           cbases.
Proof.
  induction cbases as [|[k0 c0] rest IH]; intros s s' H.
  - simpl in H. unfold_M. injection H as <-. simpl. now rewrite app_nil_r.
  - apply construct_unpaired_cons in H
      as [(_ & _ & [=])|[(_ & e & _ & [=])|(Hm & s1 & c & Hi & Hrest)]].
    pose proof (Component_init_spec _ _ _ _ _ _ _ _ Hi)
      as (_ & _ & _ & _ & _ & Hok & _).
    destruct (Hok c eq_refl) as (Hh & Hcp & (Hname & _)).
    apply Component_init_stderr in Hi. apply IH in Hrest.
    rewrite Hrest. unfold unpaired_store. simpl. rewrite Hi. simpl.
    rewrite <- app_assoc. simpl. do 3 f_equal.
    rewrite Hname, Hh, Hcp. reflexivity.
Qed.

(** X9: what [__construct_components] prints.  When the pairing of a
    package completes and no header path is empty, it has printed exactly
    one "incomplete component" warning per implementation base name that
    no header shares, in their order, and nothing else: a header without
    an implementation file gives no warning.  Each warning names the
    component as the code computes the name, the implementation path
    without its first [len(package.root) + 1] characters and without its
    extension, and carries the names of the package and of its group.
    For an implementation path that is the package root, a separator and
    a rest, that name is the rest without its extension. *)
Theorem construct_components_warnings (fs : FileSystem) (package : Package.t)
    (hbases cbases : odict string) (s s' : DependencyAnalysis.t) :
  (forall key hpath, (key, hpath) ∈ hbases -> hpath <> EmptyString) ->
  construct_components fs package hbases cbases s = (s', Ok tt) ->
  DependencyAnalysis.stderr s'
  = DependencyAnalysis.stderr s
    ++ map (fun kc =>
              WarnIncompleteComponent
                (strip_ext (str_drop (String.length (Package.root package) + 1)
                                     (snd kc)))
                (Package.name package) (Package.group package))
           (filter (fun kc => fst kc ∉ od_keys hbases) cbases)
  /\ forall key rel,
       (key, Package.root package +:+ "/" +:+ rel) ∈ cbases ->
       key ∉ od_keys hbases ->
       WarnIncompleteComponent (strip_ext rel) (Package.name package)
                               (Package.group package)
       ∈ DependencyAnalysis.stderr s'.
Proof.
  intros Hne. unfold construct_components. unfold bind at 1.
  destruct (construct_paired fs package hbases cbases s) as [s1 [cb|e]] eqn:E1;
    [|discriminate].
  intros E2.
  pose proof (construct_paired_stderr _ _ _ _ _ _ _ Hne E1) as Hs1.
  apply construct_paired_exact in E1 as (-> & _).
  apply construct_unpaired_stderr in E2.
  assert (Herr : DependencyAnalysis.stderr s'
                 = DependencyAnalysis.stderr s
                   ++ map (fun kc =>
                             WarnIncompleteComponent
                               (strip_ext
                                  (str_drop
                                     (String.length (Package.root package) + 1)
                                     (snd kc)))
                               (Package.name package) (Package.group package))
                          (filter (fun kc => fst kc ∉ od_keys hbases) cbases)).
  { rewrite E2, Hs1. do 2 f_equal. apply leftover_filter. }
  split; [exact Herr|].
  intros key rel Hin Hnot. rewrite Herr. apply elem_of_app. right.
  rewrite <- (str_drop_root (Package.root package) rel) at 1.
  apply (list_elem_of_fmap_2
           (fun kc => WarnIncompleteComponent
                        (strip_ext
                           (str_drop (String.length (Package.root package) + 1)
                                     (snd kc)))
                        (Package.name package) (Package.group package))
           _ (key, Package.root package +:+ "/" +:+ rel)).
  apply list_elem_of_filter. split; [exact Hnot|exact Hin].
Qed.

Lemma construct_components_pairing_witness :
  od_keys (DependencyAnalysis.components (fst demo_paired))
  = od_keys (DependencyAnalysis.components (DependencyAnalysis_new "cppdep.xml"))
    ++ od_keys demo_hbases
    ++ filter (fun k => k ∉ od_keys demo_hbases) (od_keys demo_cbases)
  /\ (forall key hpath, (key, hpath) ∈ demo_hbases ->
        exists c,
          od_get key (DependencyAnalysis.components (fst demo_paired)) = Some c
          /\ Component.hpath c = Some hpath
          /\ Component.cpath c = od_get key demo_cbases)
  /\ (forall key cpath, (key, cpath) ∈ demo_cbases ->
        key ∉ od_keys demo_hbases ->
        exists c,
          od_get key (DependencyAnalysis.components (fst demo_paired)) = Some c
          /\ Component.hpath c = None
          /\ Component.hfile c = None
          /\ Component.cpath c = Some cpath).
Proof.
  apply (construct_components_pairing demo_fs demo_ui demo_hbases demo_cbases
           (DependencyAnalysis_new "cppdep.xml") (fst demo_paired)).
  vm_compute. reflexivity.
Defined.

Lemma construct_components_warnings_witness :
  DependencyAnalysis.stderr (fst demo_app_paired)
  = [WarnIncompleteComponent "main" "app" "core"]
  /\ WarnIncompleteComponent (strip_ext "main.c") "app" "core"
     ∈ DependencyAnalysis.stderr (fst demo_app_paired).
Proof.
  destruct (construct_components_warnings demo_fs demo_app [] demo_app_cbases
              (DependencyAnalysis_new "cppdep.xml") (fst demo_app_paired))
    as [Herr Hin].
  - intros key hpath Hin. now apply not_elem_of_nil in Hin.
  - vm_compute. reflexivity.
  - split.
    + rewrite Herr. vm_compute. reflexivity.
    + apply (Hin "main" "main.c").
      * apply list_elem_of_here.
      * apply not_elem_of_nil.
Defined.

(** ** The common root of a package *)

Lemma common_prefix2_l a b : exists t, a = common_prefix2 a b +:+ t.
Proof.
  revert b. induction a as [|x a IH]; intros [|y b]; simpl; eauto.
  destruct (ch_eqb x y); simpl; [|eauto].
  destruct (IH b) as [t Ht]. exists t. now rewrite <- Ht.
Qed.

Lemma common_prefix2_r a b : exists t, b = common_prefix2 a b +:+ t.
Proof.
  revert b. induction a as [|x a IH]; intros [|y b]; simpl; eauto.
  destruct (ch_eqb x y) eqn:E; simpl; [|eauto].
  apply Ascii.eqb_eq in E. subst y.
  destruct (IH b) as [t Ht]. exists t. now rewrite <- Ht.
Qed.

Lemma fold_common_prefix2 xs : forall x,
  (exists t, x = fold_left common_prefix2 xs x +:+ t)
  /\ forall y, y ∈ xs -> exists t, y = fold_left common_prefix2 xs x +:+ t.
Proof.
  induction xs as [|z xs IH]; intros x; simpl.
  - split; [exists EmptyString; now rewrite append_empty|].
    intros y Hy. now apply not_elem_of_nil in Hy.
  - destruct (IH (common_prefix2 x z)) as [[t Ht] Hall].
    destruct (common_prefix2_l x z) as [tx Hx].
    destruct (common_prefix2_r x z) as [tz Hz].
    split.
    + exists (t +:+ tx). rewrite <- append_assoc, <- Ht. exact Hx.
    + intros y Hy. apply elem_of_cons in Hy as [->|Hy]; [|now apply Hall].
      exists (t +:+ tz). rewrite <- append_assoc, <- Ht. exact Hz.
Qed.

Lemma commonprefix_prefix paths p :
  p ∈ paths -> exists t, p = commonprefix paths +:+ t.
Proof.
  destruct paths as [|x xs]; intros Hin.
  - now apply not_elem_of_nil in Hin.
  - simpl. destruct (fold_common_prefix2 xs x) as [Hx Hall].
    apply elem_of_cons in Hin as [->|Hin]; auto.
Qed.

Lemma str_take_drop n s : s = str_take n s +:+ str_drop n s.
Proof.
  revert s. induction n as [|n IH]; intros [|c s]; simpl; try reflexivity.
  now rewrite <- IH.
Qed.

Lemma str_last_take s :
  str_endswith_ch ch_sep s = true ->
  s = str_take (String.length s - 1) s +:+ "/".
Proof.
  unfold str_endswith_ch. induction s as [|c s IH]; simpl; [discriminate|].
  destruct s as [|d s].
  - simpl. intros H. apply Ascii.eqb_eq in H. now subst c.
  - intros H. specialize (IH H). simpl in IH |- *.
    rewrite Nat.sub_0_r in IH. now rewrite <- IH.
Qed.

Lemma str_get_app r t : String.get (String.length r) (r +:+ t) = String.get 0 t.
Proof. induction r as [|c r IH]; simpl; [reflexivity|exact IH]. Qed.

Lemma str_length_app r t : String.length (r +:+ t) = String.length r + String.length t.
Proof. induction r as [|c r IH]; simpl; [reflexivity|now rewrite IH]. Qed.

Lemma str_rfind_take c s i :
  str_rfind c s = Some i -> str_take (S i) s = str_take i s +:+ String c EmptyString.
Proof.
  revert i. induction s as [|a s IH]; intros i; cbn [str_rfind]; [discriminate|].
  destruct (str_rfind c s) as [j|].
  - intros [= <-].
    change (String a (str_take (S j) s)
            = String a (str_take j s +:+ String c EmptyString)).
    f_equal. now apply IH.
  - destruct (ch_eqb a c) eqn:E; [|discriminate]. intros [= <-].
    apply Ascii.eqb_eq in E. subst a. reflexivity.
Qed.

Lemma str_endswith_app_ch s c : str_endswith_ch c (s +:+ String c EmptyString) = true.
Proof.
  unfold str_endswith_ch. induction s as [|a s IH]; simpl.
  - apply Ascii.eqb_refl.
  - destruct (s +:+ String c EmptyString) eqn:E; [|exact IH].
    destruct s; discriminate.
Qed.

Lemma str_rstrip_sep_app s :
  exists sl, s = str_rstrip_sep s +:+ sl /\ str_all (ch_eqb ch_sep) sl = true.
Proof.
  induction s as [|c s (sl & Hs & Hall)]; cbn [str_rstrip_sep].
  - exists EmptyString. auto.
  - destruct (str_rstrip_sep s) as [|d r] eqn:E.
    + destruct (ch_eqb c ch_sep) eqn:Ec.
      * exists (String c sl). split.
        -- cbn [String.append] in *. now rewrite <- Hs.
        -- cbn [str_all]. rewrite Hall, andb_true_r. apply Ascii.eqb_eq.
           apply Ascii.eqb_eq in Ec. now subst c.
      * exists sl. split; [|exact Hall].
        cbn [String.append] in *. now rewrite <- Hs.
    + exists sl. split; [|exact Hall].
      cbn [String.append] in *. now rewrite <- Hs.
Qed.

Lemma str_startswith_sep p : isabs p = true -> exists i, str_rfind ch_sep p = Some i.
Proof.
  unfold isabs, str_startswith, os_path_sep.
  destruct p as [|c p]; [discriminate|]. intros H.
  destruct (str_rfind ch_sep (String c p)) as [i|] eqn:E; [eauto|exfalso].
  cbn [str_rfind] in E. destruct (str_rfind ch_sep p); [discriminate|].
  destruct (ch_eqb c ch_sep) eqn:Ec; [discriminate|].
  apply Ascii.eqb_neq in Ec. cbn [String.prefix] in H.
  destruct (Ascii.ascii_dec "/" c); [|discriminate]. unfold ch_sep in Ec. congruence.
Qed.

(** [dirname] of an absolute path is a prefix of it that ends with a
    separator or is followed by one. *)
Lemma dirname_prefix p :
  isabs p = true ->
  exists t, p = dirname p +:+ t
            /\ (str_endswith_ch ch_sep (dirname p) = false ->
                exists t', t = "/" +:+ t').
Proof.
  intros Habs. destruct (str_startswith_sep p Habs) as [i Hi].
  unfold dirname. rewrite Hi.
  pose proof (str_take_drop (S i) p) as Hp.
  pose proof (str_rfind_take _ _ _ Hi) as Hhead.
  set (head := str_take (S i) p) in *.
  destruct (negb (str_is_empty head) && negb (str_all (ch_eqb ch_sep) head)).
  - destruct (str_rstrip_sep_app head) as (sl & Hsl & Hall).
    exists (sl +:+ str_drop (S i) p). split.
    + rewrite <- append_assoc, <- Hsl. exact Hp.
    + intros Hend. destruct sl as [|c sl].
      * rewrite append_empty in Hsl. rewrite <- Hsl, Hhead in Hend.
        now rewrite str_endswith_app_ch in Hend.
      * cbn [str_all] in Hall. apply andb_prop in Hall as [Hc _].
        apply Ascii.eqb_eq in Hc. subst c.
        exists (sl +:+ str_drop (S i) p). reflexivity.
  - exists (str_drop (S i) p). split; [exact Hp|].
    intros Hend. rewrite Hhead in Hend.
    now rewrite str_endswith_app_ch in Hend.
Qed.

(** X10: what [common_path] returns.  When it returns [root], every path
    of the argument starts with [root]; and unless [root] ends with a
    separator (the root of the file system), every path is [root] itself
    or [root], a separator and the rest, so that dropping
    [len(root) + 1] characters leaves the path relative to [root]. *)
Theorem common_path_is_common_directory (paths : list string) (root : string) :
  common_path paths = Ok root ->
  forall p, p ∈ paths ->
    (exists rest, p = root +:+ rest)
    /\ (str_endswith_ch ch_sep root = false ->
        p = root \/ exists rest, p = root +:+ "/" +:+ rest).
Proof.
  unfold common_path. intros H p Hin.
  destruct (commonprefix_prefix paths p Hin) as [t Ht].
  set (pre := commonprefix paths) in *.
  destruct (isabs pre) eqn:Habs; simpl in H; [|discriminate].
  destruct (str_endswith_ch ch_sep pre) eqn:Hend.
  - injection H as <-. pose proof (str_last_take pre Hend) as Hpre.
    split.
    + exists ("/" +:+ t). rewrite <- append_assoc, <- Hpre. exact Ht.
    + intros _. right. exists t. rewrite <- append_assoc, <- Hpre. exact Ht.
  - destruct (forallb _ paths) eqn:Hall.
    + injection H as <-. split; [eauto|]. intros _.
      rewrite forallb_forall in Hall.
      specialize (Hall p (proj1 (list_elem_of_In _ _) Hin)).
      apply orb_prop in Hall as [Hlen|Hnth].
      * left. apply Nat.eqb_eq in Hlen. rewrite Ht, str_length_app in Hlen.
        destruct t; [now rewrite append_empty in Ht|simpl in Hlen; lia].
      * right. unfold str_nth in Hnth. rewrite Ht, str_get_app in Hnth.
        destruct t as [|c t]; [discriminate|]. cbn [String.get] in Hnth.
        apply Ascii.eqb_eq in Hnth. subst c. exists t. exact Ht.
    + injection H as <-. destruct (dirname_prefix pre Habs) as (u & Hu & Hsep).
      split.
      * exists (u +:+ t). rewrite <- append_assoc, <- Hu. exact Ht.
      * intros Hroot. right. destruct (Hsep Hroot) as [u' ->].
        exists (u' +:+ t). rewrite Ht at 1. rewrite Hu at 1.
        now rewrite !append_assoc.
Qed.

Lemma common_path_is_common_directory_witness :
  (exists rest, "/g/src/ab" = "/g/src" +:+ rest)
  /\ (str_endswith_ch ch_sep "/g/src" = false ->
      "/g/src/ab" = "/g/src" \/ exists rest, "/g/src/ab" = "/g/src" +:+ "/" +:+ rest).
Proof.
  apply (common_path_is_common_directory ["/g/src/a"; "/g/src/ab"] "/g/src").
  - vm_compute. reflexivity.
  - right. left.
Defined.

(** ** What the scanner reports *)

(** X11: the scanner reports nothing but directives.  A line for which
    [Include.grep] yields a directive consists of white space, the word
    [#include], white space, the directive as [Include.__str__] writes
    it (its text between angle brackets, or between double quotes when
    [with_quotes] is set) and a rest; the text of the directive is not
    empty and holds no line feed, and its path is not set.  White space
    is what [\s] matches in a [str] pattern ([is_space]): among the code
    points below 256, the characters 9 to 13, 28 to 32, 133 and 160. *)
Theorem grep_line_sound (line : string) (include : Include.t) :
  Include.grep_line line = Some include ->
  exists ws ws' rest,
    str_all is_space ws = true /\ str_all is_space ws' = true
    /\ line = ws +:+ "#include" +:+ ws' +:+ Include.str include +:+ rest
    /\ Include.hfile include <> EmptyString
    /\ str_all cls_any (Include.hfile include) = true
    /\ Include.hpath include = None.
Proof.
  unfold Include.grep_line. rewrite re_search_include.
  destruct (re_run Include._RE_INCLUDE 0 line [] (fun _ _ _ cs => Some cs))
    as [cs|] eqn:E; [|discriminate].
  apply re_run_sound in E as (consumed & rest & pos' & cs' & Hline & Hd & [= <-]).
  unfold Include._RE_INCLUDE in Hd. simpl in Hd.
  repeat match goal with
         | H : exists _, _ |- _ => destruct H
         | H : _ /\ _ |- _ => destruct H
         | H : _ \/ _ |- _ => destruct H
         end; subst; simpl; intros [= <-].
  all: match goal with
       | Hw : str_all cls_space ?ws = true, Hw' : str_all cls_space ?ws' = true
         |- _ => exists ws, ws', rest
       end.
  all: repeat match goal with
              | H : cls_lit _ _ = true |- _ =>
                  unfold cls_lit, ch_eqb in H; apply Ascii.eqb_eq in H;
                  try subst
              end.
  all: unfold Include.str; simpl.
  all: split_and?; auto; try discriminate.
  all: try (apply andb_true_intro; now split).
  all: repeat (rewrite append_assoc; simpl).
  all: reflexivity.
Qed.

Lemma grep_line_sound_witness :
  exists ws ws' rest,
    str_all is_space ws = true /\ str_all is_space ws' = true
    /\ nl "  #include <boost/detail/impl.hpp>"
       = ws +:+ "#include" +:+ ws'
         +:+ Include.str (Include.init "boost/detail/impl.hpp" false) +:+ rest
    /\ Include.hfile (Include.init "boost/detail/impl.hpp" false) <> EmptyString
    /\ str_all cls_any (Include.hfile (Include.init "boost/detail/impl.hpp" false))
       = true
    /\ Include.hpath (Include.init "boost/detail/impl.hpp" false) = None.
Proof.
  apply (grep_line_sound (nl "  #include <boost/detail/impl.hpp>")
           (Include.init "boost/detail/impl.hpp" false)).
  vm_compute. reflexivity.
Defined.

(** White space other than the six characters of ASCII: a unit separator
    (U+001F) and a no-break space (U+00A0) before [#include] do not hide
    the directive, and [str.strip()] removes a next-line character
    (U+0085) and a file separator (U+001C). *)
Example grep_line_other_white_space :
  Include.grep_line (String "031"%char (String "160"%char "#include <a.h>"))
  = Some (Include.init "a.h" false)
  /\ str_strip (String "133"%char ("ui" +:+ String "028"%char EmptyString))
     = "ui".
Proof. split; vm_compute; reflexivity. Qed.

(** ** [Include.locate] *)

Lemma omap_first {A B} (f : A -> option B) l y ys :
  omap f l = y :: ys ->
  exists before x after,
    l = before ++ x :: after
    /\ (forall b, b ∈ before -> f b = None)
    /\ f x = Some y.
Proof.
  induction l as [|a l IH]; cbn [omap list_omap]; [discriminate|].
  destruct (f a) as [b|] eqn:E.
  - intros [= -> _]. exists [], a, l. split; [reflexivity|]. split; [|exact E].
    intros b' Hb. now apply not_elem_of_nil in Hb.
  - intros H. destruct (IH H) as (before & x & after & -> & Hb & Hx).
    exists (a :: before), x, after. split; [reflexivity|]. split; [|exact Hx].
    intros b Hin. apply elem_of_cons in Hin as [->|Hin]; auto.
Qed.

Lemma omap_nil {A B} (f : A -> option B) l :
  omap f l = [] -> forall x, x ∈ l -> f x = None.
Proof.
  induction l as [|a l IH]; cbn [omap list_omap]; intros H x Hin.
  - now apply not_elem_of_nil in Hin.
  - destruct (f a) eqn:E; [discriminate|].
    apply elem_of_cons in Hin as [->|Hin]; auto.
Qed.

(** X13: the search order of [Include.locate].  The directories are
    tried in the order: the working directory, for a quoted directive
    only, then the include directories as given.  When the call returns,
    the directive keeps its text and delimiters, and either its path is
    the directive's text joined to the first directory of that order in
    which that is a file, and nothing is printed; or it is a file in none
    of them, the directive is unchanged and the "header not found"
    warning is printed. *)
Theorem Include_locate_first_directory (fs : FileSystem) (self self' : Include.t)
    (cwd : string) (include_dirs : list string) (msgs : list message) :
  Include_locate fs self cwd include_dirs = Ok (self', msgs) ->
  let dirs := (if Include.with_quotes self then [cwd] else []) ++ include_dirs in
  let hpath_in := fun d => join d (Include.hfile self) in
  Include.hfile self' = Include.hfile self
  /\ Include.with_quotes self' = Include.with_quotes self
  /\ ((exists before d after,
         dirs = before ++ d :: after
         /\ (forall b, b ∈ before -> fs_isfile fs (hpath_in b) = false)
         /\ fs_isfile fs (hpath_in d) = true
         /\ Include.hpath self' = Some (hpath_in d)
         /\ msgs = [])
      \/ ((forall d, d ∈ dirs -> fs_isfile fs (hpath_in d) = false)
          /\ self' = self
          /\ msgs = [WarnHeaderNotFoundIn (Include.hfile self)])).
Proof.
  unfold Include_locate. destruct (Include.hpath self) eqn:Eh; [discriminate|].
  intros H. cbv zeta.
  destruct (omap (Include_find_in fs self) _) as [|p ps] eqn:E.
  - injection H as <- <-. split; [reflexivity|]. split; [reflexivity|].
    right. split; [|auto]. intros d Hd.
    pose proof (omap_nil _ _ E d Hd) as Hn. unfold Include_find_in in Hn.
    now destruct (fs_isfile fs _).
  - injection H as <- <-. split; [reflexivity|]. split; [reflexivity|].
    left. apply omap_first in E as (before & d & after & Hd & Hb & Hx).
    exists before, d, after. unfold Include_find_in in Hx, Hb.
    destruct (fs_isfile fs (join d (Include.hfile self))) eqn:Ef; [|discriminate].
    injection Hx as <-. split_and?; auto.
    intros b Hin. specialize (Hb b Hin). now destruct (fs_isfile fs _).
Qed.

Lemma Include_locate_first_directory_witness :
  let self := Include.init "gadget.h" true in
  let self' := Include.mk "gadget.h" true (Some "/proj/src/ui/gadget.h") in
  let dirs := (if Include.with_quotes self then ["/proj/src/app"] else [])
              ++ ["/proj/ext"; "/proj/src/ui"] in
  let hpath_in := fun d => join d (Include.hfile self) in
  Include.hfile self' = Include.hfile self
  /\ Include.with_quotes self' = Include.with_quotes self
  /\ ((exists before d after,
         dirs = before ++ d :: after
         /\ (forall b, b ∈ before -> fs_isfile demo_fs (hpath_in b) = false)
         /\ fs_isfile demo_fs (hpath_in d) = true
         /\ Include.hpath self' = Some (hpath_in d)
         /\ @nil message = [])
      \/ ((forall d, d ∈ dirs -> fs_isfile demo_fs (hpath_in d) = false)
          /\ self' = self
          /\ @nil message = [WarnHeaderNotFoundIn (Include.hfile self)])).
Proof.
  apply (Include_locate_first_directory demo_fs (Include.init "gadget.h" true)
           (Include.mk "gadget.h" true (Some "/proj/src/ui/gadget.h"))
           "/proj/src/app" ["/proj/ext"; "/proj/src/ui"] []).
  vm_compute. reflexivity.
Defined.

(** ** Packages and package groups *)

Lemma Package_init_paths_ok fs group name paths : forall acc path acc' path',
  Package_init_paths fs group name paths acc path = Ok (acc', path') ->
  acc' = acc ++ map (fun x => join (PackageGroup.path group) (normpath x)) paths
  /\ (NoDup acc -> NoDup acc')
  /\ (forall x, x ∈ paths ->
        fs_isdir fs (join (PackageGroup.path group) (normpath x)) = true)
  /\ path' = match last paths with
             | Some x => Some (normpath x)
             | None => path
             end.
Proof.
  induction paths as [|p rest IH]; intros acc path acc' path'; simpl.
  - intros [= <- <-]. rewrite app_nil_r. split_and?; auto.
    intros x Hx. now apply not_elem_of_nil in Hx.
  - destruct (fs_isdir fs _) eqn:Ed; simpl; [|discriminate].
    case_bool_decide as Hin; [destruct (truthy name); discriminate|].
    intros H. apply IH in H as (-> & Hnd & Hdir & ->).
    split_and?.
    + now rewrite <- app_assoc.
    + intros Ha. apply Hnd. apply NoDup_app. split_and?; auto.
      * intros x Hx Hx'. apply list_elem_of_singleton in Hx'. now subst.
      * apply NoDup_singleton.
    + intros x Hx. apply elem_of_cons in Hx as [->|Hx]; auto.
    + destruct rest as [|q rest]; [reflexivity|].
      change (last (p :: q :: rest)) with (last (q :: rest)).
      destruct (last (q :: rest)) eqn:El; [reflexivity|].
      apply last_None in El. discriminate.
Qed.

(** X14: what [Package.__init__] establishes.  When the constructor
    returns, the package has exactly the directories named by the
    arguments, each the normalised argument joined to the path of the
    group, all of them directories and no two arguments naming the same
    one; there is at least one; its root is their [common_path]; its name
    is the one given or, when none is given, there is one directory and
    the name is the non-empty segments of its normalised argument joined
    with underscores; and the group has gained the package under that
    name, which it did not hold before. *)
Theorem Package_init_establishes (fs : FileSystem) (paths : list string)
    (group : PackageGroup.t) (name : option string)
    (p : Package.t) (g' : PackageGroup.t) :
  Package_init fs paths group name = Ok (p, g') ->
  (forall d, d ∈ Package.paths p
             <-> exists x, x ∈ paths
                           /\ d = join (PackageGroup.path group) (normpath x))
  /\ NoDup (Package.paths p)
  /\ length (Package.paths p) = length paths
  /\ paths <> []
  /\ (forall d, d ∈ Package.paths p -> fs_isdir fs d = true)
  /\ Package.group p = PackageGroup.name group
  /\ common_path (Package.paths p) = Ok (Package.root p)
  /\ (truthy name = true -> name = Some (Package.name p))
  /\ (truthy name = false ->
      exists x, paths = [x]
                /\ Package.name p
                   = str_join "_"
                       (filter (fun seg => negb (str_is_empty seg) = true)
                               (str_split ch_sep (normpath x))))
  /\ od_mem (Package.name p) (PackageGroup.packages group) = false
  /\ g' = PackageGroup.set_packages
            (od_set (Package.name p) p (PackageGroup.packages group)) group.
Proof.
  unfold Package_init.
  destruct (Package_init_paths fs group name paths [] None)
    as [[self_paths path]|] eqn:E; [|discriminate].
  apply Package_init_paths_ok in E as (Hp & Hnd & Hdir & Hlast).
  simpl in Hp.
  destruct (Nat.eqb (length self_paths) 0) eqn:E0; [discriminate|].
  destruct (truthy name || Nat.eqb (length self_paths) 1) eqn:E1;
    simpl; [|discriminate].
  destruct (common_path self_paths) as [root|] eqn:Ec; [|discriminate].
  unfold add_package. simpl.
  destruct (od_mem _ (PackageGroup.packages group)) eqn:Em; [discriminate|].
  intros [= <- <-]. simpl.
  assert (Hmem : forall d, d ∈ self_paths
                 <-> exists x, x ∈ paths
                     /\ d = join (PackageGroup.path group) (normpath x)).
  { intros d. rewrite Hp, !list_elem_of_In, in_map_iff. split.
    - intros (x & <- & Hx). exists x. now rewrite list_elem_of_In.
    - intros (x & Hx & ->). exists x. now rewrite <- list_elem_of_In. }
  assert (Hlen : length self_paths = length paths).
  { rewrite Hp. apply length_map. }
  split_and?; auto.
  - apply Hnd. apply NoDup_nil_2.
  - intros ->. simpl in Hlen. rewrite Hlen in E0. discriminate.
  - intros d Hd. apply Hmem in Hd as (x & Hx & ->). auto.
  - intros Ht. rewrite Ht. destruct name; [reflexivity|discriminate].
  - intros Ht. rewrite Ht in *. simpl in E1. apply Nat.eqb_eq in E1.
    rewrite Hlen in E1. destruct paths as [|x [|y rest]]; try discriminate.
    exists x. split; [reflexivity|]. simpl in Hlast. subst path. reflexivity.
Qed.

Lemma Package_init_establishes_witness :
  let group := PackageGroup.mk "core" "/proj/src" [] in
  let p := Package.mk "ui" ["/proj/src/ui"] "core" "/proj/src/ui" [] in
  let g' := PackageGroup.mk "core" "/proj/src" [("ui", p)] in
  (forall d, d ∈ Package.paths p
             <-> exists x, x ∈ ["ui"]
                           /\ d = join (PackageGroup.path group) (normpath x))
  /\ NoDup (Package.paths p)
  /\ length (Package.paths p) = length ["ui"]
  /\ ["ui"] <> []
  /\ (forall d, d ∈ Package.paths p -> fs_isdir demo_fs d = true)
  /\ Package.group p = PackageGroup.name group
  /\ common_path (Package.paths p) = Ok (Package.root p)
  /\ (truthy None = true -> None = Some (Package.name p))
  /\ (truthy None = false ->
      exists x, ["ui"] = [x]
                /\ Package.name p
                   = str_join "_"
                       (filter (fun seg => negb (str_is_empty seg) = true)
                               (str_split ch_sep (normpath x))))
  /\ od_mem (Package.name p) (PackageGroup.packages group) = false
  /\ g' = PackageGroup.set_packages
            (od_set (Package.name p) p (PackageGroup.packages group)) group.
Proof.
  apply (Package_init_establishes demo_fs ["ui"]
           (PackageGroup.mk "core" "/proj/src" []) None).
  vm_compute. reflexivity.
Defined.

Lemma Package_init_group fs paths group name p g' :
  Package_init fs paths group name = Ok (p, g') ->
  PackageGroup.name g' = PackageGroup.name group
  /\ PackageGroup.path g' = PackageGroup.path group.
Proof.
  unfold Package_init.
  destruct (Package_init_paths fs group name paths [] None)
    as [[self_paths path]|]; [|discriminate].
  destruct (Nat.eqb (length self_paths) 0); [discriminate|].
  destruct (negb _); [discriminate|].
  destruct (common_path self_paths) as [root|]; [|discriminate].
  unfold add_package. destruct (od_mem _ _); [discriminate|].
  now intros [= <- <-].
Qed.

Lemma add_named_packages_group fs els g g' :
  add_named_packages fs els g = Ok g' ->
  PackageGroup.name g' = PackageGroup.name g
  /\ PackageGroup.path g' = PackageGroup.path g.
Proof.
  revert g. induction els as [|el rest IH]; intros g; simpl.
  - now intros [= <-].
  - destruct (Package_init _ _ _ _) as [[p g1]|] eqn:E; [|discriminate].
    apply Package_init_group in E as [Hn Hp]. intros H.
    apply IH in H as [Hn' Hp']. split; congruence.
Qed.

Lemma add_path_packages_group fs texts g g' :
  add_path_packages fs texts g = Ok g' ->
  PackageGroup.name g' = PackageGroup.name g
  /\ PackageGroup.path g' = PackageGroup.path g.
Proof.
  revert g. induction texts as [|t rest IH]; intros g; simpl.
  - now intros [= <-].
  - destruct (Package_init _ _ _ _) as [[p g1]|] eqn:E; [|discriminate].
    apply Package_init_group in E as [Hn Hp]. intros H.
    apply IH in H as [Hn' Hp']. split; congruence.
Qed.

Lemma add_package_group_ok fs el groups groups' :
  add_package_group fs el groups = Ok groups' ->
  fs_isdir fs (grp_path el) = true
  /\ od_keys groups' = od_keys groups ++ [grp_name el]
  /\ (forall name g, od_get name groups = Some g -> od_get name groups' = Some g)
  /\ exists g, od_get (grp_name el) groups' = Some g
               /\ PackageGroup.name g = grp_name el
               /\ PackageGroup.path g
                  = abspath (fs_getcwd fs) (normpath (grp_path el)).
Proof.
  unfold add_package_group, PackageGroup_init.
  destruct (od_mem _ groups) eqn:Em; [discriminate|].
  destruct (fs_isdir fs (grp_path el)) eqn:Ed; simpl; [|discriminate].
  destruct (add_named_packages _ _ _) as [g1|] eqn:E1; [|discriminate].
  destruct (add_path_packages _ _ _) as [g2|] eqn:E2; [|discriminate].
  intros [= <-].
  apply add_named_packages_group in E1 as [Hn1 Hp1].
  apply add_path_packages_group in E2 as [Hn2 Hp2]. simpl in *.
  split_and?; auto.
  - apply od_keys_set_new. now apply od_mem_false.
  - intros name g Hg. rewrite od_get_set_ne; [exact Hg|].
    intros <-. unfold od_mem in Em. now rewrite Hg in Em.
  - exists g2. rewrite od_get_set_eq. split_and?; congruence.
Qed.

Lemma parse_groups_groups_kept fs els s s' r :
  parse_groups fs els s = (s', r) ->
  (forall name g,
     od_get name (DependencyAnalysis.external_groups s) = Some g ->
     od_get name (DependencyAnalysis.external_groups s') = Some g)
  /\ (forall name g,
        od_get name (DependencyAnalysis.internal_groups s) = Some g ->
        od_get name (DependencyAnalysis.internal_groups s') = Some g).
Proof.
  revert s. induction els as [|el rest IH]; intros s; simpl.
  - unfold ret. now intros [= <- <-].
  - unfold_M.
    match goal with
    | |- context [if ?b then ret tt else _] => destruct b
    end; [unfold ret|now intros [= <- <-]].
    destruct (bool_decide (grp_role el = Some "external")).
    + destruct (add_package_group fs el (DependencyAnalysis.external_groups s))
        as [gs|] eqn:E; [|now intros [= <- <-]].
      apply add_package_group_ok in E as (_ & _ & Hold & _).
      intros H. apply IH in H as [He Hi]. simpl in He, Hi. split; auto.
    + destruct (add_package_group fs el (DependencyAnalysis.internal_groups s))
        as [gs|] eqn:E; [|now intros [= <- <-]].
      apply add_package_group_ok in E as (_ & _ & Hold & _).
      intros H. apply IH in H as [He Hi]. simpl in He, Hi. split; auto.
Qed.

(** X15: how [__parse_xml_config] files the package groups.  When the
    configuration is parsed without error, every [<package-group>] has no
    role or the role [external] or [internal]; the groups with the role
    [external] are appended to [external_groups] and all the others to
    [internal_groups], each table in document order; and every group of
    the document is held under its name with, as path, the absolute
    normalised form of its [path] attribute, which is a directory. *)
Theorem parse_groups_by_role (fs : FileSystem)
    (els : list package_group_element) (s s' : DependencyAnalysis.t) :
  parse_groups fs els s = (s', Ok tt) ->
  od_keys (DependencyAnalysis.external_groups s')
  = od_keys (DependencyAnalysis.external_groups s)
    ++ map grp_name (filter (fun el => grp_role el = Some "external") els)
  /\ od_keys (DependencyAnalysis.internal_groups s')
     = od_keys (DependencyAnalysis.internal_groups s)
       ++ map grp_name (filter (fun el => grp_role el <> Some "external") els)
  /\ forall el, el ∈ els ->
       (grp_role el = None \/ grp_role el = Some "external"
        \/ grp_role el = Some "internal")
       /\ fs_isdir fs (grp_path el) = true
       /\ exists g,
            od_get (grp_name el)
              (if bool_decide (grp_role el = Some "external")
               then DependencyAnalysis.external_groups s'
               else DependencyAnalysis.internal_groups s') = Some g
            /\ PackageGroup.name g = grp_name el
            /\ PackageGroup.path g
               = abspath (fs_getcwd fs) (normpath (grp_path el)).
Proof.
  revert s. induction els as [|el rest IH]; intros s; simpl.
  - unfold ret. intros [= <-]. rewrite !app_nil_r. split_and?; auto.
    intros el Hel. now apply not_elem_of_nil in Hel.
  - unfold_M.
    destruct (match grp_role el with
              | Some r => String.eqb r "external" || String.eqb r "internal"
              | None => true
              end) eqn:Erole; [unfold ret|discriminate].
    assert (Hrole : grp_role el = None \/ grp_role el = Some "external"
                    \/ grp_role el = Some "internal").
    { destruct (grp_role el) as [r|]; [|now left]. right.
      apply orb_prop in Erole as [E|E]; apply String.eqb_eq in E; subst; auto. }
    rewrite !filter_cons.
    case_bool_decide as Hext.
    + destruct (add_package_group fs el (DependencyAnalysis.external_groups s))
        as [gs|] eqn:E; [|discriminate].
      apply add_package_group_ok in E as (Hd & Hk & Hold & g & Hg & Hn & Hp).
      intros H. pose proof (parse_groups_groups_kept _ _ _ _ _ H) as [Hke Hki].
      apply IH in H as (He & Hi & Hall). simpl in He, Hi.
      rewrite decide_True by assumption. rewrite decide_False by auto.
      split_and?.
      * rewrite He, Hk, <- app_assoc. reflexivity.
      * exact Hi.
      * intros el0 Hel. apply elem_of_cons in Hel as [->|Hel]; [|now apply Hall].
        split; [exact Hrole|]. split; [exact Hd|].
        rewrite bool_decide_eq_true_2 by assumption.
        exists g. split_and?; auto.
    + destruct (add_package_group fs el (DependencyAnalysis.internal_groups s))
        as [gs|] eqn:E; [|discriminate].
      apply add_package_group_ok in E as (Hd & Hk & Hold & g & Hg & Hn & Hp).
      intros H. pose proof (parse_groups_groups_kept _ _ _ _ _ H) as [Hke Hki].
      apply IH in H as (He & Hi & Hall). simpl in He, Hi.
      rewrite decide_False by assumption. rewrite decide_True by auto.
      split_and?.
      * exact He.
      * rewrite Hi, Hk, <- app_assoc. reflexivity.
      * intros el0 Hel. apply elem_of_cons in Hel as [->|Hel]; [|now apply Hall].
        split; [exact Hrole|]. split; [exact Hd|].
        rewrite bool_decide_eq_false_2 by assumption.
        exists g. split_and?; auto.
Qed.

Lemma parse_groups_by_role_witness :
  od_keys (DependencyAnalysis.external_groups (fst demo_parsed))
  = od_keys (DependencyAnalysis.external_groups
               (DependencyAnalysis_new "cppdep.xml"))
    ++ map grp_name
         (filter (fun el => grp_role el = Some "external") demo_config)
  /\ od_keys (DependencyAnalysis.internal_groups (fst demo_parsed))
     = od_keys (DependencyAnalysis.internal_groups
                  (DependencyAnalysis_new "cppdep.xml"))
       ++ map grp_name
            (filter (fun el => grp_role el <> Some "external") demo_config)
  /\ forall el, el ∈ demo_config ->
       (grp_role el = None \/ grp_role el = Some "external"
        \/ grp_role el = Some "internal")
       /\ fs_isdir demo_fs (grp_path el) = true
       /\ exists g,
            od_get (grp_name el)
              (if bool_decide (grp_role el = Some "external")
               then DependencyAnalysis.external_groups (fst demo_parsed)
               else DependencyAnalysis.internal_groups (fst demo_parsed))
            = Some g
            /\ PackageGroup.name g = grp_name el
            /\ PackageGroup.path g
               = abspath (fs_getcwd demo_fs) (normpath (grp_path el)).
Proof.
  apply (parse_groups_by_role demo_fs demo_config
           (DependencyAnalysis_new "cppdep.xml") (fst demo_parsed)).
  vm_compute. reflexivity.
Defined.

(** ** The warnings of file pairing, in terms of the files found *)

Lemma od_set_fresh {V} k (v : V) d :
  od_mem k d = false -> od_set k v d = d ++ [(k, v)].
Proof.
  unfold od_mem. induction d as [|[k0 v0] d IH]; simpl; [reflexivity|].
  destruct (String.eqb k0 k); [discriminate|]. intros H. now rewrite IH.
Qed.

Lemma find_cfiles_loop_ok found : forall cbases cbases',
  find_cfiles_loop found cbases = Ok cbases' ->
  cbases' = cbases ++ map (fun f => (strip_ext (fst f), snd f)) found.
Proof.
  induction found as [|[cfile cpath] found IH]; intros cbases cbases'; simpl.
  - intros [= <-]. now rewrite app_nil_r.
  - destruct (od_mem (strip_ext cfile) cbases) eqn:E; [discriminate|].
    intros H. apply IH in H. rewrite H, od_set_fresh by exact E.
    now rewrite <- app_assoc.
Qed.

Lemma collect_files_cbases fs paths : forall hbases cbases hfiles hb cb hf,
  collect_files fs paths hbases cbases hfiles = Ok (hb, cb, hf) ->
  cb = cbases ++ map (fun f => (strip_ext (fst f), snd f)) (all_cfiles fs paths).
Proof.
  induction paths as [|p paths IH]; intros hbases cbases hfiles hb cb hf; simpl.
  - intros [= _ <- _]. now rewrite app_nil_r.
  - destruct (find_hfiles fs p hbases hfiles) as [hb1 hf1].
    unfold find_cfiles.
    destruct (find_cfiles_loop (find fs p _RE_CFILE) cbases) as [cb1|] eqn:E;
      [|discriminate].
    apply find_cfiles_loop_ok in E. intros H. apply IH in H.
    rewrite H, E. unfold all_cfiles. simpl.
    now rewrite map_app, <- app_assoc.
Qed.

Lemma find_hfiles_step_keys found : forall hb hf k,
  k ∈ od_keys (fst (fold_left find_hfiles_step found (hb, hf)))
  <-> k ∈ od_keys hb \/ k ∈ bases found.
Proof.
  induction found as [|[hfile hpath] found IH]; intros hb hf k; simpl.
  - split; [auto|]. intros [H|H]; [exact H|]. now apply not_elem_of_nil in H.
  - rewrite IH. unfold bases. simpl. rewrite elem_of_cons.
    rewrite <- !od_mem_true, od_mem_set.
    destruct (decide (strip_ext hfile = k)) as [->|Hne]; [tauto|].
    split; [tauto|]. intros [H|[H|H]]; auto; congruence.
Qed.

Lemma find_hfiles_step_values found : forall hb hf k v,
  (k, v) ∈ fst (fold_left find_hfiles_step found (hb, hf)) ->
  (k, v) ∈ hb \/ v ∈ map snd found.
Proof.
  induction found as [|[hfile hpath] found IH]; intros hb hf k v; simpl.
  - auto.
  - intros H. apply IH in H as [H|H]; [|right; now right].
    clear IH. induction hb as [|[k0 v0] hb IHb]; simpl in H.
    + apply list_elem_of_singleton in H. injection H as -> ->. right. left.
    + destruct (String.eqb k0 (strip_ext hfile)).
      * apply elem_of_cons in H as [[= -> ->]|H]; [right; left|].
        left. now right.
      * apply elem_of_cons in H as [[= -> ->]|H]; [left; left|].
        destruct (IHb H) as [H'|H']; [left; now right|now right].
Qed.

Lemma join_nonempty a b : b <> EmptyString -> join a b <> EmptyString.
Proof.
  intros Hb. unfold join. destruct (str_startswith _ b); [exact Hb|].
  destruct (_ || _).
  - destruct a; [exact Hb|discriminate].
  - destruct a; discriminate.
Qed.

Lemma find_paths_nonempty fs path re name p :
  fnmatch re EmptyString = false ->
  (name, p) ∈ find fs path re -> p <> EmptyString.
Proof.
  intros Hre. unfold find. destruct (fs_isfile fs path).
  - destruct (fnmatch re (basename path)) eqn:E.
    + intros H. apply list_elem_of_singleton in H. injection H as -> ->.
      intros ->. cbn in E. congruence.
    + intros H. now apply not_elem_of_nil in H.
  - intros H. apply elem_of_flat_map in H as ([[root dirs] files] & _ & H).
    apply elem_of_flat_map in H as (entry & _ & H).
    destruct (fnmatch re entry) eqn:E; [|now apply not_elem_of_nil in H].
    apply list_elem_of_singleton in H. injection H as -> ->.
    apply join_nonempty. intros ->. congruence.
Qed.

(** X16: the warnings of the pairing of a package, in terms of the files
    found.  When [make_components] completes its work for a package, it
    has printed exactly one "incomplete component" warning for each
    implementation file found under the package's directories whose base
    name is the base name of no header file found there, in the order
    the implementation files are found, and nothing else. *)
Theorem make_package_components_warnings (fs : FileSystem)
    (package : Package.t) (s s' : DependencyAnalysis.t) :
  make_package_components fs package s = (s', Ok tt) ->
  DependencyAnalysis.stderr s'
  = DependencyAnalysis.stderr s
    ++ map (fun found =>
              WarnIncompleteComponent
                (strip_ext (str_drop (String.length (Package.root package) + 1)
                                     (snd found)))
                (Package.name package) (Package.group package))
           (filter (fun found =>
                      strip_ext (fst found)
                      ∉ bases (all_hfiles fs (Package.paths package)))
                   (all_cfiles fs (Package.paths package))).
Proof.
  unfold make_package_components. unfold bind at 1. unfold lift.
  destruct (collect_files fs (Package.paths package) [] [] [])
    as [[[hb cb] hf]|] eqn:Ec; [|discriminate].
  pose proof (collect_files_cbases _ _ _ _ _ _ _ _ Ec) as Hcb. simpl in Hcb.
  apply collect_files_ok in Ec as (_ & _ & Hh).
  unfold bind at 1. unfold modify.
  unfold construct_components. unfold bind at 1.
  match goal with
  | |- context [construct_paired fs package hb cb ?s0] =>
      destruct (construct_paired fs package hb cb s0) as [s1 [cb1|]] eqn:E1;
        [|discriminate]
  end.
  intros E2.
  assert (Hkeys : forall k, k ∈ od_keys hb
                  <-> k ∈ bases (all_hfiles fs (Package.paths package))).
  { intros k.
    pose proof (find_hfiles_step_keys (all_hfiles fs (Package.paths package))
                  [] [] k) as Hk.
    rewrite <- Hh in Hk. simpl in Hk. rewrite Hk. split; [|auto].
    intros [H|H]; [now apply not_elem_of_nil in H|exact H]. }
  assert (Hne : forall key hpath, (key, hpath) ∈ hb -> hpath <> EmptyString).
  { intros key hpath Hin.
    pose proof (find_hfiles_step_values (all_hfiles fs (Package.paths package))
                  [] [] key hpath) as Hv.
    rewrite <- Hh in Hv. simpl in Hv.
    destruct (Hv Hin) as [H|H]; [now apply not_elem_of_nil in H|].
    apply list_elem_of_In, in_map_iff in H as ([name p] & Hp & H). simpl in Hp.
    subst p. apply list_elem_of_In in H. unfold all_hfiles in H.
    apply elem_of_flat_map in H as (path & _ & H).
    eapply find_paths_nonempty; [|exact H]. reflexivity. }
  pose proof (construct_paired_stderr _ _ _ _ _ _ _ Hne E1) as Hs1.
  apply construct_paired_exact in E1 as (-> & _).
  apply construct_unpaired_stderr in E2. rewrite E2, Hs1. simpl.
  f_equal. rewrite leftover_filter, Hcb. clear - Hkeys.
  generalize (all_cfiles fs (Package.paths package)) as found.
  induction found as [|[name p] found IH]; [reflexivity|].
  cbn [map]. rewrite !filter_cons. cbn [fst snd].
  destruct (decide (strip_ext name ∉ od_keys hb)) as [H1|H1],
           (decide (strip_ext name
                    ∉ bases (all_hfiles fs (Package.paths package)))) as [H2|H2].
  - cbn [map fst snd]. now rewrite IH.
  - exfalso. apply H2. now rewrite <- Hkeys.
  - exfalso. apply H1. now rewrite Hkeys.
  - exact IH.
Qed.

Lemma make_package_components_warnings_witness :
  DependencyAnalysis.stderr
    (fst (make_package_components demo_fs demo_app
            (DependencyAnalysis_new "cppdep.xml")))
  = DependencyAnalysis.stderr (DependencyAnalysis_new "cppdep.xml")
    ++ map (fun found =>
              WarnIncompleteComponent
                (strip_ext (str_drop (String.length (Package.root demo_app) + 1)
                                     (snd found)))
                (Package.name demo_app) (Package.group demo_app))
           (filter (fun found =>
                      strip_ext (fst found)
                      ∉ bases (all_hfiles demo_fs (Package.paths demo_app)))
                   (all_cfiles demo_fs (Package.paths demo_app))).
Proof.
  apply (make_package_components_warnings demo_fs demo_app
           (DependencyAnalysis_new "cppdep.xml")).
  vm_compute. reflexivity.
Defined.

(** ** The matcher against the declarative reading of a pattern *)

Lemma re_star_sound_pos p pos s k res :
  re_star p pos s k = Some res ->
  exists consumed rest,
    s = consumed +:+ rest /\ str_all p consumed = true
    /\ k consumed (pos + String.length consumed) rest = Some res.
Proof.
  revert pos k. induction s as [|c s IH]; intros pos k; cbn [re_star].
  - intros H. exists EmptyString, EmptyString. simpl. now rewrite Nat.add_0_r.
  - destruct (p c) eqn:Ep.
    + destruct (re_star p (S pos) s (fun consumed => k (String c consumed)))
        as [res'|] eqn:E.
      * intros [= <-]. apply IH in E as (consumed & rest & -> & Hall & Hk).
        exists (String c consumed), rest. cbn [str_all String.append String.length].
        rewrite Ep, Hall, Nat.add_succ_r. auto.
      * intros H. exists EmptyString, (String c s). simpl.
        now rewrite Nat.add_0_r.
    + intros H. exists EmptyString, (String c s). simpl.
      now rewrite Nat.add_0_r.
Qed.

Lemma re_star_complete p consumed : forall pos rest k,
  str_all p consumed = true ->
  (exists res, k consumed (pos + String.length consumed) rest = Some res) ->
  exists res, re_star p pos (consumed +:+ rest) k = Some res.
Proof.
  induction consumed as [|c t IH]; intros pos rest k Hall [res Hk].
  - simpl in Hk. rewrite Nat.add_0_r in Hk. cbn [String.append].
    destruct rest as [|d rest]; cbn [re_star]; [eauto|].
    destruct (p d); [|eauto].
    destruct (re_star p (S pos) rest _); eauto.
  - cbn [str_all] in Hall. apply andb_prop in Hall as [Hc Ht].
    cbn [String.append re_star]. rewrite Hc.
    destruct (IH (S pos) rest (fun consumed => k (String c consumed)) Ht)
      as [res' Hres'].
    + exists res. cbn [String.length] in Hk. now rewrite Nat.add_succ_r in Hk.
    + rewrite Hres'. eauto.
Qed.

Lemma re_run_matches r : forall pos s cs k res,
  re_run r pos s cs k = Some res ->
  exists consumed rest cs',
    s = consumed +:+ rest /\ matches r pos consumed rest cs cs'
    /\ k consumed (pos + String.length consumed) rest cs' = Some res.
Proof.
  induction r as [| | |p|p|r1 IH1 r2 IH2|r1 IH1 r2 IH2|name r1 IH1];
    intros pos s cs k res; cbn [re_run matches].
  - intros H. exists EmptyString, s, cs. simpl. now rewrite Nat.add_0_r.
  - destruct (Nat.eqb pos 0) eqn:E; [|discriminate]. apply Nat.eqb_eq in E.
    intros H. exists EmptyString, s, cs. simpl. now rewrite Nat.add_0_r.
  - destruct (str_is_empty s || String.eqb s (String ch_nl EmptyString)) eqn:E;
      [|discriminate].
    intros H. exists EmptyString, s, cs. simpl. rewrite Nat.add_0_r.
    split_and?; auto. apply orb_prop in E as [E|E].
    + left. now destruct s.
    + right. now apply String.eqb_eq in E.
  - destruct s as [|c s]; [discriminate|]. destruct (p c) eqn:Ep; [|discriminate].
    intros H. exists (String c EmptyString), s, cs. simpl.
    rewrite Nat.add_1_r. eauto 10.
  - intros H. apply re_star_sound_pos in H as (consumed & rest & -> & Hall & Hk).
    now exists consumed, rest, cs.
  - intros H. apply IH1 in H as (c1 & rest1 & cs1 & -> & Hd1 & H).
    apply IH2 in H as (c2 & rest2 & cs2 & -> & Hd2 & H).
    exists (c1 +:+ c2), rest2, cs2. rewrite append_assoc.
    rewrite str_length_app, Nat.add_assoc. eauto 10.
  - destruct (re_run r1 pos s cs k) as [res'|] eqn:E.
    + intros [= <-]. apply IH1 in E as (c & rest & cs' & -> & Hd & Hk).
      exists c, rest, cs'. auto.
    + intros H. apply IH2 in H as (c & rest & cs' & -> & Hd & Hk).
      exists c, rest, cs'. auto.
  - intros H. apply IH1 in H as (c & rest & cs' & -> & Hd & Hk).
    exists c, rest, ((name, c) :: cs'). eauto.
Qed.

Lemma re_run_complete r : forall pos consumed rest cs cs' k,
  matches r pos consumed rest cs cs' ->
  (exists res, k consumed (pos + String.length consumed) rest cs' = Some res) ->
  exists res, re_run r pos (consumed +:+ rest) cs k = Some res.
Proof.
  induction r as [| | |p|p|r1 IH1 r2 IH2|r1 IH1 r2 IH2|name r1 IH1];
    intros pos consumed rest cs cs' k; cbn [re_run matches].
  - intros (-> & ->) [res Hk]. simpl in *. rewrite Nat.add_0_r in Hk. eauto.
  - intros (-> & -> & ->) [res Hk]. simpl in *. eauto.
  - intros (-> & -> & Hrest) [res Hk]. simpl in *. rewrite Nat.add_0_r in Hk.
    destruct Hrest as [->| ->]; simpl; eauto.
  - intros (a & -> & Ha & ->) [res Hk]. simpl in *. rewrite Ha.
    rewrite Nat.add_1_r in Hk. eauto.
  - intros (Hall & ->) Hk. now apply re_star_complete.
  - intros (c1 & c2 & cs1 & -> & H1 & H2) [res Hk].
    rewrite append_assoc. eapply IH1; [exact H1|].
    eapply IH2; [exact H2|].
    exists res. now rewrite str_length_app, Nat.add_assoc in Hk.
  - intros [H|H] Hk.
    + destruct (IH1 _ _ _ _ _ k H Hk) as [res' Hres']. rewrite Hres'. eauto.
    + destruct (re_run r1 pos (consumed +:+ rest) cs k); [eauto|].
      eapply IH2; eauto.
  - intros (cs1 & H & ->) Hk. eapply IH1; [exact H|]. exact Hk.
Qed.

(** The matcher finds a match at the start of the subject exactly when
    the pattern, read declaratively, matches a prefix of it. *)
Lemma fnmatch_matches r s :
  fnmatch r s = true
  <-> exists consumed rest cs', s = consumed +:+ rest
                                /\ matches r 0 consumed rest [] cs'.
Proof.
  unfold fnmatch, re_match. split.
  - destruct (re_run r 0 s [] _) as [res|] eqn:E; [|discriminate]. intros _.
    apply re_run_matches in E as (consumed & rest & cs' & -> & H & _). eauto.
  - intros (consumed & rest & cs' & -> & H).
    destruct (re_run_complete r 0 consumed rest [] cs'
                (fun _ _ _ cs => Some cs) H) as [res Hres]; [eauto|].
    now rewrite Hres.
Qed.

(** ** Header and implementation file names *)

Lemma re_source_file_h : _RE_HFILE = re_source_file "h".
Proof. reflexivity. Qed.

Lemma re_source_file_c : _RE_CFILE = re_source_file "c".
Proof. reflexivity. Qed.

Lemma cls_lit_i_lower a c : cls_lit_i a c = true <-> to_lower c = to_lower a.
Proof. unfold cls_lit_i, ch_eqb. apply Ascii.eqb_eq. Qed.

Lemma to_lower_dot c : to_lower c = ch_dot -> c = ch_dot.
Proof.
  destruct c as [[] [] [] [] [] [] [] []]; vm_compute; intros H;
    first [reflexivity | discriminate].
Qed.

Lemma source_file_names (l : ascii) (name : string) :
  fnmatch (re_source_file l) name = true
  <-> exists stem c0 suffix tail,
        name = stem +:+ "." +:+ String c0 suffix +:+ tail
        /\ str_all cls_any stem = true
        /\ to_lower c0 = to_lower l
        /\ str_lower suffix
           ∈ ["xx"; "++"; String (to_lower l) EmptyString; "pp"; EmptyString]
        /\ (tail = EmptyString \/ tail = String ch_nl EmptyString).
Proof.
  rewrite fnmatch_matches. unfold re_source_file.
  cbn [re_seq re_alt re_lit_i matches]. split.
  - intros (consumed & rest & cs' & -> & H).
    repeat match goal with
           | H : exists _, _ |- _ => destruct H
           | H : _ /\ _ |- _ => destruct H
           end; subst.
    repeat match goal with
           | H : cls_lit_i _ _ = true |- _ => apply cls_lit_i_lower in H
           end.
    match goal with
    | H : to_lower ?d = to_lower ch_dot |- _ =>
        apply to_lower_dot in H; subst d
    end.
    match goal with
    | Hs : str_all cls_any ?stem = true, H0 : to_lower ?c0 = to_lower l |- _ =>
        exists stem, c0
    end.
    repeat match goal with H : _ \/ _ |- _ => destruct H end;
      repeat match goal with
             | H : exists _, _ |- _ => destruct H
             | H : _ /\ _ |- _ => destruct H
             end; subst;
      repeat match goal with
             | H : cls_lit_i _ _ = true |- _ => apply cls_lit_i_lower in H
             end.
    all: match goal with
         | |- exists suffix tail,
                (_ +:+ (_ +:+ (?sfx +:+ EmptyString))) +:+ ?tl = _ /\ _ =>
             exists sfx, tl
         end.
    all: split;
      [rewrite !append_assoc; cbn [String.append];
       rewrite ?append_empty; reflexivity|].
    all: split; [assumption|]. all: split; [assumption|].
    all: split; [|auto].
    all: cbn [str_lower String.append];
      repeat match goal with H : to_lower _ = _ |- _ => rewrite H end;
      apply list_elem_of_In; cbn; auto 10.
  - intros (stem & c0 & suffix & tail & -> & Hstem & Hc0 & Hsfx & Htail).
    exists (stem +:+ "." +:+ String c0 suffix), tail, [("1", suffix)].
    split; [rewrite !append_assoc; reflexivity|].
    exists stem, ("." +:+ String c0 suffix), []. split; [reflexivity|].
    split; [auto|].
    exists (String ch_dot (String c0 EmptyString)), suffix, [].
    split; [reflexivity|]. split.
    { exists ".", (String c0 EmptyString), []. split; [reflexivity|].
      split; [exists ch_dot|exists c0]; split_and?; auto;
        now apply cls_lit_i_lower. }
    exists suffix, EmptyString, [("1", suffix)].
    split; [now rewrite append_empty|]. split; [|auto].
    exists []. split; [|reflexivity].
    apply list_elem_of_In in Hsfx. cbn [In] in Hsfx.
    destruct Hsfx as [H|[H|[H|[H|[H|[]]]]]];
      destruct suffix as [|a [|b [|c sfx]]]; cbn [str_lower] in H;
      try discriminate; injection H as Ha Hb || injection H as Ha || idtac.
    + left. exists (String a EmptyString), (String b EmptyString), [].
      split; [reflexivity|].
      split; [exists a|exists b]; split_and?; auto; now apply cls_lit_i_lower.
    + right. left. exists (String a EmptyString), (String b EmptyString), [].
      split; [reflexivity|].
      split; [exists a|exists b]; split_and?; auto; now apply cls_lit_i_lower.
    + right. right. left. exists a. split_and?; auto.
      apply cls_lit_i_lower. congruence.
    + right. right. right. left.
      exists (String a EmptyString), (String b EmptyString), [].
      split; [reflexivity|].
      split; [exists a|exists b]; split_and?; auto; now apply cls_lit_i_lower.
    + right. right. right. right. auto.
Qed.

(** X17: which file names are header files and which are implementation
    files.  [_RE_HFILE] accepts exactly the names made of a stem without
    line feed, a dot and one of the extensions [h], [hxx], [h++], [hh],
    [hpp] in any case, possibly followed by one final line feed;
    [_RE_CFILE] the same with [c], [cxx], [c++], [cc], [cpp]. *)
Theorem source_file_classes (name : string) :
  (fnmatch _RE_HFILE name = true
   <-> has_extension ["h"; "hxx"; "h++"; "hh"; "hpp"] name)
  /\ (fnmatch _RE_CFILE name = true
      <-> has_extension ["c"; "cxx"; "c++"; "cc"; "cpp"] name).
Proof.
  rewrite re_source_file_h, re_source_file_c, !source_file_names.
  unfold has_extension. split; split.
  all: try (intros (stem & c0 & suffix & tail & -> & Hstem & Hc0 & Hsfx & Htail);
            exists stem, (String c0 suffix), tail; split_and?; auto;
            cbn [str_lower]; rewrite Hc0;
            apply list_elem_of_In in Hsfx; cbn [In] in Hsfx;
            destruct Hsfx as [H|[H|[H|[H|[H|[]]]]]]; rewrite <- H;
            apply list_elem_of_In; cbn; auto 10).
  all: intros (stem & ext & tail & -> & Hstem & Hext & Htail);
    apply list_elem_of_In in Hext; cbn [In] in Hext;
    destruct ext as [|c0 suffix]; cbn [str_lower] in Hext;
    [destruct Hext as [H|[H|[H|[H|[H|[]]]]]]; discriminate|];
    exists stem, c0, suffix, tail; split_and?; auto;
    destruct Hext as [H|[H|[H|[H|[H|[]]]]]]; injection H as Hc0 Hs;
    try (rewrite <- Hc0; reflexivity);
    rewrite <- Hs; apply list_elem_of_In; cbn; auto 10.
Qed.

Lemma str_rfind_app_last c a b :
  str_rfind c b = None ->
  str_rfind c (a +:+ String c b) = Some (String.length a).
Proof.
  intros Hb. induction a as [|x a IH]; cbn [String.append str_rfind String.length].
  - rewrite Hb. unfold ch_eqb. now rewrite Ascii.eqb_refl.
  - now rewrite IH.
Qed.

Lemma str_app_same_length a1 : forall a2 b1 b2,
  String.length a1 = String.length a2 -> a1 +:+ b1 = a2 +:+ b2 -> b1 = b2.
Proof.
  induction a1 as [|x a1 IH]; intros [|y a2] b1 b2; cbn; try discriminate; auto.
  intros [= Hl] [= _ H]. eauto.
Qed.

Lemma lower_not_dot x : to_lower x <> ch_dot -> ch_eqb x ch_dot = false.
Proof.
  intros H. apply Ascii.eqb_neq. intros ->. apply H. reflexivity.
Qed.

Lemma source_ext_no_dot l c0 suffix tail :
  to_lower l <> ch_dot ->
  to_lower c0 = to_lower l ->
  str_lower suffix
  ∈ ["xx"; "++"; String (to_lower l) EmptyString; "pp"; EmptyString] ->
  (tail = EmptyString \/ tail = String ch_nl EmptyString) ->
  str_rfind ch_dot (String c0 suffix +:+ tail) = None.
Proof.
  intros Hl Hc0 Hsfx Htail.
  assert (Ht : str_rfind ch_dot tail = None) by (now destruct Htail as [->| ->]).
  assert (H0 : ch_eqb c0 ch_dot = false) by (apply lower_not_dot; congruence).
  apply list_elem_of_In in Hsfx. cbn [In] in Hsfx.
  destruct Hsfx as [H|[H|[H|[H|[H|[]]]]]];
    destruct suffix as [|a [|b [|c sfx]]]; cbn [str_lower] in H;
    try discriminate; injection H as Ha Hb || injection H as Ha || idtac;
    cbn [String.append str_rfind]; rewrite Ht, ?H0;
    repeat match goal with
           | H : _ = to_lower ?x |- context [ch_eqb ?x ch_dot] =>
               rewrite (lower_not_dot x)
                 by (rewrite <- H; first [discriminate | exact Hl])
           end; reflexivity.
Qed.

(** X18: no file is both.  Whatever its name, a file is not at once a
    header file for [_RE_HFILE] and an implementation file for
    [_RE_CFILE]. *)
Theorem header_xor_implementation (name : string) :
  fnmatch _RE_HFILE name && fnmatch _RE_CFILE name = false.
Proof.
  destruct (fnmatch _RE_HFILE name) eqn:Eh; [|reflexivity].
  destruct (fnmatch _RE_CFILE name) eqn:Ec; [exfalso|reflexivity].
  rewrite re_source_file_h in Eh. rewrite re_source_file_c in Ec.
  apply source_file_names in Eh
    as (stem1 & a1 & sfx1 & tail1 & -> & _ & Ha1 & Hs1 & Ht1).
  apply source_file_names in Ec
    as (stem2 & a2 & sfx2 & tail2 & Heq & _ & Ha2 & Hs2 & Ht2).
  pose proof (source_ext_no_dot "h" a1 sfx1 tail1
                ltac:(discriminate) Ha1 Hs1 Ht1) as H1.
  pose proof (source_ext_no_dot "c" a2 sfx2 tail2
                ltac:(discriminate) Ha2 Hs2 Ht2) as H2.
  apply (str_rfind_app_last ch_dot stem1) in H1.
  apply (str_rfind_app_last ch_dot stem2) in H2.
  change (String ch_dot (String a1 sfx1 +:+ tail1))
    with ("." +:+ String a1 sfx1 +:+ tail1) in H1.
  change (String ch_dot (String a2 sfx2 +:+ tail2))
    with ("." +:+ String a2 sfx2 +:+ tail2) in H2.
  rewrite Heq, H2 in H1. injection H1 as Hlen.
  apply str_app_same_length in Heq; [|now symmetry].
  injection Heq as Ha _. subst a2. rewrite Ha1 in Ha2. discriminate.
Qed.

(** ** The scanner misses no directive *)

Lemma matches_re_lit lit : forall pos rest cs,
  lit <> EmptyString -> matches (re_lit lit) pos lit rest cs cs.
Proof.
  induction lit as [|a lit IH]; intros pos rest cs Hne; [contradiction|].
  destruct lit as [|b lit].
  - cbn [re_lit matches]. exists a. split_and?; auto.
    unfold cls_lit, ch_eqb. apply Ascii.eqb_refl.
  - cbn [re_lit matches].
    exists (String a EmptyString), (String b lit), cs. split; [reflexivity|].
    split; [|apply IH; discriminate].
    exists a. split_and?; auto. unfold cls_lit, ch_eqb. apply Ascii.eqb_refl.
Qed.

Lemma span_unique (p : ascii -> bool) a : forall b c d x y,
  str_all p a = true -> str_all p b = true -> p c = false -> p d = false ->
  a +:+ String c x = b +:+ String d y -> a = b /\ c = d /\ x = y.
Proof.
  induction a as [|e a IH]; intros [|f b] c d x y Ha Hb Hc Hd;
    cbn [String.append str_all] in *.
  - intros [= -> ->]. auto.
  - intros [= -> _]. apply andb_prop in Hb as [Hf _]. congruence.
  - intros [= -> _]. apply andb_prop in Ha as [He _]. congruence.
  - intros [= -> H]. apply andb_prop in Ha as [_ Ha].
    apply andb_prop in Hb as [_ Hb].
    destruct (IH _ _ _ _ _ Ha Hb Hc Hd H) as (-> & -> & ->). auto.
Qed.

Lemma grep_line_delims line include :
  Include.grep_line line = Some include ->
  exists ws ws' rest,
    str_all is_space ws = true /\ str_all is_space ws' = true
    /\ line = ws +:+ "#include" +:+ ws' +:+ Include.str include +:+ rest.
Proof.
  unfold Include.grep_line. rewrite re_search_include.
  destruct (re_run Include._RE_INCLUDE 0 line [] (fun _ _ _ cs => Some cs))
    as [cs|] eqn:E; [|discriminate].
  apply re_run_sound in E as (consumed & rest & pos' & cs' & Hline & Hd & [= <-]).
  unfold Include._RE_INCLUDE in Hd. simpl in Hd.
  repeat match goal with
         | H : exists _, _ |- _ => destruct H
         | H : _ /\ _ |- _ => destruct H
         | H : _ \/ _ |- _ => destruct H
         end; subst; simpl; intros [= <-].
  all: match goal with
       | Hw : str_all cls_space ?ws = true, Hw' : str_all cls_space ?ws' = true
         |- _ => exists ws, ws', rest
       end.
  all: repeat match goal with
              | H : cls_lit _ _ = true |- _ =>
                  unfold cls_lit, ch_eqb in H; apply Ascii.eqb_eq in H;
                  try subst
              end.
  all: unfold Include.str; simpl.
  all: split_and?; auto.
  all: repeat (rewrite append_assoc; simpl).
  all: reflexivity.
Qed.

Lemma grep_line_found line consumed rest cs' :
  line = consumed +:+ rest ->
  matches Include._RE_INCLUDE 0 consumed rest [] cs' ->
  exists include, Include.grep_line line = Some include.
Proof.
  intros -> H. unfold Include.grep_line. rewrite re_search_include.
  destruct (re_run_complete _ 0 consumed rest [] cs'
              (fun _ _ _ cs => Some cs) H) as [res Hres]; [eauto|].
  rewrite Hres. destruct (truthy _); eauto.
Qed.

Lemma matches_delimited (dl dr : ascii) gname a g pos rest cs :
  cls_any a = true -> str_all cls_any g = true ->
  matches (re_seq [RClass (cls_lit dl); RGroup gname (re_plus cls_any);
                   RClass (cls_lit dr)])
          pos (String dl (String a g +:+ String dr EmptyString)) rest
          cs ((gname, String a g) :: cs).
Proof.
  intros Ha Hg. cbn [re_seq matches].
  exists (String dl EmptyString), (String a g +:+ String dr EmptyString), cs.
  split; [reflexivity|]. split.
  { exists dl. split_and?; auto. unfold cls_lit, ch_eqb. apply Ascii.eqb_refl. }
  exists (String a g), (String dr EmptyString), ((gname, String a g) :: cs).
  split; [reflexivity|]. split.
  - exists cs. split; [|reflexivity]. unfold re_plus. cbn [matches].
    exists (String a EmptyString), g, cs. split; [reflexivity|].
    split; [exists a; auto|auto].
  - exists dr. split_and?; auto. unfold cls_lit, ch_eqb. apply Ascii.eqb_refl.
Qed.

Lemma matches_include ws ws' inner D rest cs1 :
  str_all is_space ws = true -> str_all is_space ws' = true ->
  (forall pos, matches inner pos D rest [] cs1) ->
  matches (re_seq [RBol; RStar cls_space; re_lit "#include"; RStar cls_space;
                   RGroup "1" inner])
          0 (ws +:+ "#include" +:+ ws' +:+ D) rest [] (("1", D) :: cs1).
Proof.
  intros Hws Hws' Hinner. cbn [re_seq]. cbn [matches].
  exists EmptyString, (ws +:+ "#include" +:+ ws' +:+ D), [].
  split; [reflexivity|]. split; [auto|].
  exists ws, ("#include" +:+ ws' +:+ D), [].
  split; [reflexivity|]. split; [auto|].
  exists "#include", (ws' +:+ D), [].
  split; [reflexivity|]. split; [apply matches_re_lit; discriminate|].
  exists ws', D, []. split; [reflexivity|]. split; [auto|].
  exists cs1. split; [apply Hinner|reflexivity].
Qed.

(** X19: the scanner misses no directive.  A line made of white space,
    the word [#include], white space, a text that is not empty and holds
    no line feed between angle brackets, and anything after, yields a
    directive with [with_quotes] unset; the same between double quotes
    yields one with [with_quotes] set. *)
Theorem grep_line_complete (ws ws' text rest : string) :
  str_all is_space ws = true -> str_all is_space ws' = true ->
  text <> EmptyString -> str_all cls_any text = true ->
  (exists include,
     Include.grep_line
       (ws +:+ "#include" +:+ ws' +:+ "<" +:+ text +:+ ">" +:+ rest)
     = Some include
     /\ Include.with_quotes include = false)
  /\ (exists include,
        Include.grep_line
          (ws +:+ "#include" +:+ ws'
           +:+ String ch_dquote (text +:+ String ch_dquote rest))
        = Some include
        /\ Include.with_quotes include = true).
Proof.
  intros Hws Hws' Hne Htext. destruct text as [|a g]; [contradiction|].
  cbn [str_all] in Htext. apply andb_prop in Htext as [Ha Hg].
  split.
  - destruct (grep_line_found
                (ws +:+ "#include" +:+ ws' +:+ "<" +:+ String a g +:+ ">" +:+ rest)
                (ws +:+ "#include" +:+ ws'
                 +:+ String "<" (String a g +:+ String ">" EmptyString))
                rest (("1", String "<" (String a g +:+ String ">" EmptyString))
                        :: [("brackets", String a g)]))
      as [include Hinc].
    + repeat (rewrite append_assoc; cbn [String.append]). reflexivity.
    + unfold Include._RE_INCLUDE. apply matches_include; auto.
      intros pos. left. now apply matches_delimited.
    + exists include. split; [exact Hinc|].
      apply grep_line_delims in Hinc as (ws1 & ws1' & rest1 & H1 & H1' & Heq).
      cbn [String.append] in Heq.
      apply (span_unique is_space) in Heq as (_ & _ & Heq);
        [|first [assumption|reflexivity]..].
      injection Heq as Heq.
      unfold Include.str in Heq. destruct (Include.with_quotes include);
        [|reflexivity].
      cbn [String.append] in Heq.
      apply (span_unique is_space) in Heq as (_ & Hd & _);
        [discriminate|first [assumption|reflexivity]..].
  - destruct (grep_line_found
                (ws +:+ "#include" +:+ ws'
                 +:+ String ch_dquote (String a g +:+ String ch_dquote rest))
                (ws +:+ "#include" +:+ ws'
                 +:+ String ch_dquote (String a g +:+ String ch_dquote EmptyString))
                rest (("1", String ch_dquote
                              (String a g +:+ String ch_dquote EmptyString))
                        :: [("quotes", String a g)]))
      as [include Hinc].
    + repeat (rewrite append_assoc; cbn [String.append]). reflexivity.
    + unfold Include._RE_INCLUDE. apply matches_include; auto.
      intros pos. right. now apply matches_delimited.
    + exists include. split; [exact Hinc|].
      apply grep_line_delims in Hinc as (ws1 & ws1' & rest1 & H1 & H1' & Heq).
      cbn [String.append] in Heq.
      apply (span_unique is_space) in Heq as (_ & _ & Heq);
        [|first [assumption|reflexivity]..].
      injection Heq as Heq.
      unfold Include.str in Heq. destruct (Include.with_quotes include);
        [reflexivity|].
      cbn [String.append] in Heq.
      apply (span_unique is_space) in Heq as (_ & Hd & _);
        [discriminate|first [assumption|reflexivity]..].
Qed.

Lemma grep_line_complete_witness :
  (exists include,
     Include.grep_line
       ("  " +:+ "#include" +:+ " " +:+ "<" +:+ "a.h" +:+ ">" +:+ " // x")
     = Some include
     /\ Include.with_quotes include = false)
  /\ (exists include,
        Include.grep_line
          ("  " +:+ "#include" +:+ " "
           +:+ String ch_dquote ("a.h" +:+ String ch_dquote " // x"))
        = Some include
        /\ Include.with_quotes include = true).
Proof.
  apply (grep_line_complete "  " " " "a.h" " // x");
    [reflexivity|reflexivity|discriminate|reflexivity].
Defined.

(** ** Base names *)

Lemma str_rfind_app_none c a b :
  str_rfind c b = None -> str_rfind c (a +:+ b) = str_rfind c a.
Proof.
  intros Hb. induction a as [|x a IH]; cbn [String.append str_rfind].
  - exact Hb.
  - now rewrite IH.
Qed.

Lemma str_rfind_lt c s i : str_rfind c s = Some i -> i < String.length s.
Proof.
  revert i. induction s as [|a s IH]; intros i; cbn [str_rfind String.length].
  - discriminate.
  - destruct (str_rfind c s) as [j|].
    + intros [= <-]. specialize (IH j eq_refl). lia.
    + destruct (ch_eqb a c); [|discriminate]. intros [= <-]. lia.
Qed.

Lemma str_take_app a b : str_take (String.length a) (a +:+ b) = a.
Proof.
  induction a as [|x a IH]; cbn [String.length String.append str_take].
  - now destruct b.
  - now rewrite IH.
Qed.

Lemma str_drop_app n : forall a b,
  n <= String.length a -> str_drop n (a +:+ b) = str_drop n a +:+ b.
Proof.
  induction n as [|n IH]; intros a b Hn; [reflexivity|].
  destruct a as [|x a]; cbn [String.length] in Hn; [lia|].
  cbn [String.append str_drop]. apply IH. lia.
Qed.

Lemma str_drop_length n : forall a,
  String.length (str_drop n a) = String.length a - n.
Proof.
  induction n as [|n IH]; intros a; cbn [str_drop].
  - lia.
  - destruct a as [|x a]; cbn [String.length]; [reflexivity|apply IH].
Qed.

Lemma only_dots_upto_app seg b :
  only_dots_upto (String.length seg) (seg +:+ b)
  = str_all (fun c => ch_eqb c ch_dot) seg.
Proof.
  induction seg as [|x seg IH];
    cbn [String.length String.append only_dots_upto str_all]; [reflexivity|].
  now rewrite IH.
Qed.

(** X20: files that differ only by their extension have the same base
    name.  When the last segment of [stem] holds a character other than
    a dot and [ext] holds neither a dot nor a separator, [strip_ext]
    gives [stem] for [stem.ext]: a header and an implementation file of
    the same stem get the same key, whatever their extensions. *)
Theorem strip_ext_stem (stem ext : string) :
  str_all (fun c => ch_eqb c ch_dot) (basename stem) = false ->
  str_rfind ch_dot ext = None ->
  str_rfind ch_sep ext = None ->
  strip_ext (stem +:+ "." +:+ ext) = stem.
Proof.
  intros Hseg Hdot Hsep. unfold strip_ext, splitext.
  change (stem +:+ "." +:+ ext) with (stem +:+ String ch_dot ext).
  rewrite (str_rfind_app_last ch_dot stem ext Hdot).
  rewrite (str_rfind_app_none ch_sep stem (String ch_dot ext)).
  2:{ cbn [str_rfind]. now rewrite Hsep. }
  unfold basename in Hseg.
  set (fi := match str_rfind ch_sep stem with Some i => S i | None => 0 end).
  assert (Hfi : fi <= String.length stem).
  { subst fi. destruct (str_rfind ch_sep stem) as [i|] eqn:E; [|lia].
    apply str_rfind_lt in E. lia. }
  assert (Hbase : str_drop fi stem
                  = match str_rfind ch_sep stem with
                    | Some i => str_drop (S i) stem
                    | None => stem
                    end).
  { subst fi. now destruct (str_rfind ch_sep stem). }
  rewrite <- Hbase in Hseg.
  rewrite str_drop_app by exact Hfi.
  rewrite <- (str_drop_length fi stem), only_dots_upto_app, Hseg.
  apply Nat.leb_le in Hfi. rewrite Hfi. cbn [andb negb fst].
  apply str_take_app.
Qed.

Lemma strip_ext_stem_witness :
  strip_ext ("src/widget" +:+ "." +:+ "hpp") = "src/widget".
Proof.
  apply (strip_ext_stem "src/widget" "hpp"); reflexivity.
Defined.

(** ** The index of internal components *)

(** X21: the store and its index after a run.  In a run of [main] that
    completes, the keys of the component store are pairwise distinct, and
    every entry of [internal_components] leads from a header basename to
    the key of a stored component that has this header basename and a
    header path. *)
Theorem main_index_sound (fs : FileSystem) (config : string)
    (s : DependencyAnalysis.t) :
  main fs config (DependencyAnalysis_new config) = (s, Ok tt) ->
  NoDup (od_keys (DependencyAnalysis.components s))
  /\ forall hfile key,
       DependencyAnalysis.internal_components s !! hfile = Some key ->
       exists c, od_get key (DependencyAnalysis.components s) = Some c
                 /\ Component.hfile c = Some hfile
                 /\ is_Some (Component.hpath c).
Proof.
  intros Hmain.
  apply main_phases in Hmain as (root & s1 & s2 & _ & E1 & E2 & E3).
  destruct (made_state _ _ _ _ _ _ _ E1 E2) as (Hnd & Hok & Hcf & _).
  pose proof (analyze_loop_frame fs (DependencyAnalysis.components s2) s2 s2 s
                (Ok tt) (evolves_refl fs s2)) as Hframe.
  unfold analyze, bind, get_self in E3.
  destruct Hframe as (_ & Hev & Hkeys & _);
    [intros kc; apply elem_of_od_keys|exact E3|].
  assert (E3' : analyze fs s2 = (s, Ok tt)) by exact E3.
  apply analyze_exact in E3' as (_ & _ & _ & Hall); [|exact Hnd].
  split; [now rewrite Hkeys|].
  intros hfile key Hidx. destruct Hev as (_ & Hi & _). rewrite Hi in Hidx.
  destruct (Hok _ _ Hidx) as (c & Hc & Hf).
  destruct (Forall2_od_get _ _ _ _ _ Hall Hc) as (c' & Hc' & (Hid & _)).
  destruct Hid as (_ & Hp & Hf' & _).
  exists c'. split; [exact Hc'|]. split; [congruence|].
  rewrite Hp. destruct (Hcf _ _ Hc) as (package & _ & Hcon).
  eapply constructed_for_hpath; eauto.
Qed.

Lemma main_index_sound_witness :
  NoDup (od_keys (DependencyAnalysis.components (fst demo_run)))
  /\ forall hfile key,
       DependencyAnalysis.internal_components (fst demo_run) !! hfile
       = Some key ->
       exists c,
         od_get key (DependencyAnalysis.components (fst demo_run)) = Some c
         /\ Component.hfile c = Some hfile
         /\ is_Some (Component.hpath c).
Proof.
  apply (main_index_sound demo_fs "cppdep.xml" (fst demo_run)).
  vm_compute. reflexivity.
Defined.

(** ** Derived package names *)

Lemma str_split_no_sep c s :
  forall w, w ∈ str_split c s -> str_rfind c w = None.
Proof.
  induction s as [|a s IH]; cbn [str_split]; intros w Hw.
  - apply list_elem_of_singleton in Hw. now subst.
  - destruct (ch_eqb a c) eqn:E.
    + apply elem_of_cons in Hw as [->|Hw]; [reflexivity|auto].
    + destruct (str_split c s) as [|w0 ws] eqn:Es.
      * apply list_elem_of_singleton in Hw. subst. cbn [str_rfind]. now rewrite E.
      * apply elem_of_cons in Hw as [->|Hw].
        -- cbn [str_rfind]. rewrite (IH w0) by left. now rewrite E.
        -- apply IH. now right.
Qed.

Lemma str_join_no_sep c sep parts :
  str_rfind c sep = None ->
  (forall w, w ∈ parts -> str_rfind c w = None) ->
  str_rfind c (str_join sep parts) = None.
Proof.
  intros Hsep. induction parts as [|w ws IH]; intros Hall; [reflexivity|].
  cbn [str_join]. destruct ws as [|w' ws'].
  - apply Hall. left.
  - rewrite str_rfind_app_none; [apply Hall; left|].
    rewrite str_rfind_app_none; [exact Hsep|].
    apply IH. intros x Hx. apply Hall. now right.
Qed.

(** X22: a deduced package name holds no separator.  When a package is
    constructed without a name, the name it gets contains no [/],
    whatever the path it is deduced from. *)
Theorem deduced_package_name_no_separator (fs : FileSystem) (path : string)
    (group : PackageGroup.t) (p : Package.t) (g' : PackageGroup.t) :
  Package_init fs [path] group None = Ok (p, g') ->
  str_rfind ch_sep (Package.name p) = None.
Proof.
  unfold Package_init. cbn [Package_init_paths].
  destruct (negb (fs_isdir fs _)); [discriminate|].
  case_bool_decide; [discriminate|]. cbn [app length Nat.eqb truthy orb negb].
  destruct (common_path _) as [root|]; [|discriminate].
  unfold add_package. cbn [Package.name].
  destruct (od_mem _ _); [discriminate|].
  intros [= <- _]. cbn [Package.name default].
  apply str_join_no_sep; [reflexivity|].
  intros w Hw. apply list_elem_of_filter in Hw as [_ Hw].
  eapply str_split_no_sep; eauto.
Qed.

Lemma deduced_package_name_no_separator_witness :
  match Package_init (mkfs [("/proj/src/ui/widgets", [], [])] [] [])
                     ["./ui//widgets/"]
                     (PackageGroup.mk "core" "/proj/src" []) None with
  | Ok (p, _) => Package.name p = "ui_widgets"
                 /\ str_rfind ch_sep (Package.name p) = None
  | Raise _ => False
  end.
Proof.
  destruct (Package_init (mkfs [("/proj/src/ui/widgets", [], [])] [] [])
                         ["./ui//widgets/"]
                         (PackageGroup.mk "core" "/proj/src" []) None)
    as [[p g']|e] eqn:E.
  - split.
    + vm_compute in E. now injection E as <- _.
    + exact (deduced_package_name_no_separator _ _ _ _ _ E).
  - vm_compute in E. discriminate.
Defined.

(** ** The text of a directive is taken greedily *)

Lemma re_star_none p s : forall pos k,
  re_star p pos s k = None ->
  forall consumed rest,
    s = consumed +:+ rest -> str_all p consumed = true ->
    k consumed (pos + String.length consumed) rest = None.
Proof.
  induction s as [|c s IH]; intros pos k H consumed rest Hs Hall.
  - destruct consumed; [|discriminate]. cbn [String.append] in Hs. subst rest.
    cbn [re_star] in H. cbn [String.length]. now rewrite Nat.add_0_r.
  - cbn [re_star] in H. destruct consumed as [|d t].
    + cbn [String.append] in Hs. subst rest. cbn [String.length].
      rewrite Nat.add_0_r. destruct (p c); [|exact H].
      now destruct (re_star p (S pos) s _).
    + cbn [String.append] in Hs. injection Hs as <- ->.
      cbn [str_all] in Hall. apply andb_prop in Hall as [Hc Ht].
      rewrite Hc in H.
      destruct (re_star p (S pos) (t +:+ rest)
                  (fun consumed => k (String c consumed))) eqn:E;
        [discriminate|].
      pose proof (IH _ _ E t rest eq_refl Ht) as Hn.
      cbn [String.length]. now rewrite Nat.add_succ_r.
Qed.

Lemma re_star_greedy p s : forall pos k res,
  re_star p pos s k = Some res ->
  exists consumed rest,
    s = consumed +:+ rest /\ str_all p consumed = true
    /\ k consumed (pos + String.length consumed) rest = Some res
    /\ forall more rest',
         rest = more +:+ rest' -> more <> EmptyString ->
         str_all p more = true ->
         k (consumed +:+ more)
           (pos + String.length (consumed +:+ more)) rest' = None.
Proof.
  induction s as [|c s IH]; intros pos k res; cbn [re_star].
  - intros H. exists EmptyString, EmptyString. cbn [String.length].
    rewrite Nat.add_0_r. split_and?; auto.
    intros more rest' Hr Hne. destruct more; [contradiction|discriminate].
  - destruct (p c) eqn:Ep.
    + destruct (re_star p (S pos) s (fun consumed => k (String c consumed)))
        as [res'|] eqn:E.
      * intros [= <-].
        apply IH in E as (consumed & rest & -> & Hall & Hk & Hmax).
        exists (String c consumed), rest.
        cbn [str_all String.append String.length].
        rewrite Ep, Hall, Nat.add_succ_r. split_and?; auto.
        intros more rest' Hr Hne Hm. specialize (Hmax more rest' Hr Hne Hm).
        now rewrite Nat.add_succ_r.
      * intros H. exists EmptyString, (String c s). cbn [String.length].
        rewrite Nat.add_0_r. split_and?; auto.
        intros more rest' Hr Hne Hm. cbn [String.append].
        destruct more as [|d t]; [contradiction|].
        cbn [String.append] in Hr. injection Hr as <- ->.
        cbn [str_all] in Hm. apply andb_prop in Hm as [_ Ht].
        pose proof (re_star_none _ _ _ _ E t rest' eq_refl Ht) as Hn.
        cbn [String.length]. now rewrite Nat.add_succ_r.
    + intros H. exists EmptyString, (String c s). cbn [String.length].
      rewrite Nat.add_0_r. split_and?; auto.
      intros more rest' Hr Hne Hm. destruct more as [|d t]; [contradiction|].
      cbn [String.append] in Hr. injection Hr as <- ->.
      cbn [str_all] in Hm. apply andb_prop in Hm as [Hd _]. congruence.
Qed.

Lemma re_run_seq_inv r1 r2 pos s cs k res :
  re_run (RSeq r1 r2) pos s cs k = Some res ->
  exists c1 rest1 cs1,
    s = c1 +:+ rest1 /\ matches r1 pos c1 rest1 cs cs1
    /\ re_run r2 (pos + String.length c1) rest1 cs1
         (fun c2 pos2 s2 cs2 => k (c1 +:+ c2) pos2 s2 cs2) = Some res.
Proof.
  cbn [re_run]. intros H.
  apply re_run_matches in H as (c1 & rest1 & cs1 & -> & Hm & H). eauto 10.
Qed.

Lemma matches_re_lit_inv lit : forall pos c rest cs cs',
  lit <> EmptyString ->
  matches (re_lit lit) pos c rest cs cs' -> c = lit /\ cs' = cs.
Proof.
  induction lit as [|a lit IH]; intros pos c rest cs cs' Hne; [contradiction|].
  destruct lit as [|b lit].
  - cbn [re_lit matches]. intros (x & -> & Hx & ->).
    unfold cls_lit, ch_eqb in Hx. apply Ascii.eqb_eq in Hx. now subst.
  - cbn [re_lit matches]. intros (c1 & c2 & cs1 & -> & (x & -> & Hx & ->) & H2).
    unfold cls_lit, ch_eqb in Hx. apply Ascii.eqb_eq in Hx. subst x.
    apply IH in H2 as [-> ->]; [auto|discriminate].
Qed.

(** One alternative of the directive pattern: the opening delimiter, the
    text taken greedily, the closing delimiter. *)
Lemma re_run_delimited (dl dr : ascii) gname pos s cs k res :
  cls_any dr = true ->
  (forall c p r cs0, k c p r cs0 <> None) ->
  re_run (re_seq [RClass (cls_lit dl); RGroup gname (re_plus cls_any);
                  RClass (cls_lit dr)]) pos s cs k = Some res ->
  exists a g rest p',
    s = String dl (String a g +:+ String dr rest)
    /\ cls_any a = true /\ str_all cls_any g = true
    /\ k (String dl (String a g +:+ String dr EmptyString)) p' rest
         ((gname, String a g) :: cs) = Some res
    /\ forall r1 r2, rest = r1 +:+ String dr r2 -> str_all cls_any r1 = false.
Proof.
  intros Hdr Hk. cbn [re_seq re_plus re_run].
  destruct s as [|c s]; [discriminate|].
  destruct (cls_lit dl c) eqn:Ec; [|discriminate].
  unfold cls_lit, ch_eqb in Ec. apply Ascii.eqb_eq in Ec. subst c.
  destruct s as [|a s]; [discriminate|].
  destruct (cls_any a) eqn:Ea; [|discriminate].
  intros H. apply re_star_greedy in H as (g & rest & -> & Hg & H & Hmax).
  destruct rest as [|c rest]; [discriminate|].
  destruct (cls_lit dr c) eqn:Ec; [|discriminate].
  unfold cls_lit, ch_eqb in Ec. apply Ascii.eqb_eq in Ec. subst c.
  exists a, g, rest. eexists. split; [reflexivity|]. split; [exact Ea|].
  split; [exact Hg|]. split.
  - exact H.
  - intros r1 r2 -> . destruct (str_all cls_any r1) eqn:E1; [exfalso|reflexivity].
    specialize (Hmax (String dr r1) (String dr r2) eq_refl).
    cbn [str_all] in Hmax. rewrite E1, Hdr in Hmax.
    specialize (Hmax ltac:(discriminate) eq_refl).
    unfold cls_lit at 1, ch_eqb in Hmax.
    rewrite Ascii.eqb_refl in Hmax. now apply Hk in Hmax.
Qed.

Lemma re_run_group_alt_inv name r1 r2 pos s cs k res :
  re_run (RGroup name (RAlt r1 r2)) pos s cs k = Some res ->
  re_run r1 pos s cs (fun c pos' s' cs' => k c pos' s' ((name, c) :: cs'))
  = Some res
  \/ re_run r2 pos s cs (fun c pos' s' cs' => k c pos' s' ((name, c) :: cs'))
     = Some res.
Proof.
  cbn [re_run].
  destruct (re_run r1 pos s cs _) as [res'|]; [intros [= <-]; now left|].
  intros H. now right.
Qed.

(** X23: the text of a directive is taken greedily.  A line for which
    [Include.grep] yields a directive is white space (what [\s] matches
    in a [str] pattern, [is_space]), the word [#include], white space,
    the directive as [Include.__str__] writes it and a rest, where the
    closing delimiter of the directive does not occur again in the rest
    before a line feed: the text of the directive reaches to the last
    closing delimiter of the line. *)
Theorem grep_line_greedy (line : string) (include : Include.t) :
  Include.grep_line line = Some include ->
  exists ws ws' rest,
    str_all is_space ws = true /\ str_all is_space ws' = true
    /\ line = ws +:+ "#include" +:+ ws' +:+ Include.str include +:+ rest
    /\ forall r1 r2,
         rest = r1 +:+ String (if Include.with_quotes include
                               then ch_dquote else ">"%char) r2 ->
         str_all cls_any r1 = false.
Proof.
  unfold Include.grep_line. rewrite re_search_include.
  destruct (re_run Include._RE_INCLUDE 0 line [] (fun _ _ _ cs => Some cs))
    as [cs|] eqn:E; [|discriminate].
  unfold Include._RE_INCLUDE in E. cbn [re_seq] in E.
  apply re_run_seq_inv in E as (c0 & rest0 & cs0 & -> & (-> & -> & _) & E).
  apply re_run_seq_inv in E as (ws & rest1 & cs1 & -> & (Hws & ->) & E).
  apply re_run_seq_inv in E as (lit & rest2 & cs2 & -> & Hlit & E).
  apply (matches_re_lit_inv "#include") in Hlit as [-> ->]; [|discriminate].
  apply re_run_seq_inv in E as (ws' & rest3 & cs3 & -> & (Hws' & ->) & E).
  apply re_run_group_alt_inv in E as [E|E];
    apply re_run_delimited in E
      as (a & g & rest & p' & -> & Ha & Hg & [= <-] & Hmax);
    try reflexivity; try (intros; discriminate).
  - cbn [group String.eqb Ascii.eqb Bool.eqb truthy str_is_empty negb default].
    intros [= <-]. exists ws, ws', rest. split_and?; auto.
    unfold Include.str. cbn [Include.with_quotes Include.hfile Include.init].
    cbn [String.append]. now rewrite !append_assoc.
  - cbn [group String.eqb Ascii.eqb Bool.eqb truthy str_is_empty negb default].
    intros [= <-]. exists ws, ws', rest. split_and?; auto.
    unfold Include.str. cbn [Include.with_quotes Include.hfile Include.init].
    cbn [String.append]. now rewrite !append_assoc.
Qed.

Lemma grep_line_greedy_witness :
  exists ws ws' rest,
    str_all is_space ws = true /\ str_all is_space ws' = true
    /\ "#include <a.h> // not <b.h>"
       = ws +:+ "#include" +:+ ws'
         +:+ Include.str (Include.init "a.h> // not <b.h" false) +:+ rest
    /\ forall r1 r2,
         rest = r1 +:+ String (if Include.with_quotes
                                    (Include.init "a.h> // not <b.h" false)
                               then ch_dquote else ">"%char) r2 ->
         str_all cls_any r1 = false.
Proof.
  apply (grep_line_greedy "#include <a.h> // not <b.h>"
           (Include.init "a.h> // not <b.h" false)).
  vm_compute. reflexivity.
Defined.

(** ** No dangling edge *)

Lemma Forall2_elem_of_left {A B} (R : A -> B -> Prop) l l' x :
  Forall2 R l l' -> x ∈ l -> exists y, y ∈ l' /\ R x y.
Proof.
  induction 1 as [|x' y l l' HR _ IH]; intros Hin.
  - now apply not_elem_of_nil in Hin.
  - apply elem_of_cons in Hin as [->|Hin].
    + exists y. split; [left|exact HR].
    + destruct (IH Hin) as (y' & Hy' & HR'). exists y'. split; [now right|exact HR'].
Qed.

Lemma analyzed_all_includes_l fs s c c' i :
  analyzed fs s c c' -> i ∈ all_includes c ->
  exists i', i' ∈ all_includes c' /\ include_outcome fs s c i i'.
Proof.
  intros (_ & Hh & Hc & _) Hin. unfold all_includes in *.
  apply elem_of_app in Hin as [Hin|Hin];
    [eapply Forall2_elem_of_left in Hh as (i' & Hi & Ho)
    |eapply Forall2_elem_of_left in Hc as (i' & Hi & Ho)]; eauto;
    exists i'; (split; [apply elem_of_app; auto|exact Ho]).
Qed.

Lemma head_elem_of {A} (l : list A) x : head l = Some x -> x ∈ l.
Proof. destruct l; [discriminate|]. intros [= ->]. left. Qed.

(** X24: no edge dangles.  When the three phases of [main] complete,
    every internal edge of a stored component leads to a stored
    component, whose header basename is the basename of one of the
    component's directives; and every external edge is the external
    component of such a basename in a package of an external group of
    the configuration. *)
Theorem main_edges_closed (fs : FileSystem) (config : string)
    (s : DependencyAnalysis.t) :
  main fs config (DependencyAnalysis_new config) = (s, Ok tt) ->
  forall key c,
    od_get key (DependencyAnalysis.components s) = Some c ->
    (forall k, k ∈ Component.dep_internal_components c ->
       exists d i,
         od_get k (DependencyAnalysis.components s) = Some d
         /\ i ∈ all_includes c
         /\ Component.hfile d = Some (include_base i))
    /\ (forall e, e ∈ Component.dep_external_components c ->
          exists i group package,
            i ∈ all_includes c
            /\ group ∈ od_values (DependencyAnalysis.external_groups s)
            /\ package ∈ od_values (PackageGroup.packages group)
            /\ e = ExternalComponent.mk (include_base i)
                     (Package.group package, Package.name package)).
Proof.
  intros Hmain key c' Hget.
  apply main_phases in Hmain as (root & s1 & s2 & _ & E1 & E2 & E3).
  destruct (made_state _ _ _ _ _ _ _ E1 E2) as (Hnd & Hok & Hcf & Hcache).
  apply analyze_exact in E3 as (_ & Hev & _ & Hall); [|exact Hnd].
  destruct (Forall2_od_get_r _ _ _ _ _ Hall Hget) as (c & Hc & Han).
  destruct (Hcf _ _ Hc) as (package & _ & (_ & _ & _ & Hdi & Hde & _)).
  pose proof Han as (_ & _ & _ & Hi & He). rewrite Hdi in Hi. rewrite Hde in He.
  split.
  - intros k Hk. rewrite Hi, elem_of_union, elem_of_list_to_set in Hk.
    destruct Hk as [Hk|Hk]; [now apply elem_of_empty in Hk|].
    apply list_elem_of_omap in Hk as (i & Hin & Ht).
    apply internal_target_Some in Ht as [_ Ht].
    destruct (Hok _ _ Ht) as (d & Hd & Hdf).
    destruct (Forall2_od_get _ _ _ _ _ Hall Hd) as (d' & Hd' & ((_ & _ & Hf & _) & _)).
    destruct (analyzed_all_includes_l _ _ _ _ _ Han Hin) as (i' & Hi' & Hf' & _).
    exists d', i'. split; [exact Hd'|]. split; [exact Hi'|].
    unfold include_base in *. rewrite Hf'. congruence.
  - intros e Hin. rewrite He, elem_of_union, elem_of_list_to_set in Hin.
    destruct Hin as [Hin|Hin]; [now apply elem_of_empty in Hin|].
    apply list_elem_of_omap in Hin as (i & Hin & Ht).
    apply external_target_Some in Ht as (_ & _ & [Ht|(_ & found & Ht)]).
    { rewrite Hcache, lookup_empty in Ht. discriminate. }
    rewrite find_external_component_first in Ht. apply head_elem_of in Ht.
    apply external_hits_elem
      in Ht as (group & pkg & dp & rt & ds & fl & Hg & Hp & _ & _ & _ & _ & ->).
    destruct (analyzed_all_includes_l _ _ _ _ _ Han Hin) as (i' & Hi' & Hf' & _).
    destruct Hev as (_ & _ & _ & Hgroups & _).
    exists i', group, pkg. split; [exact Hi'|]. rewrite Hgroups.
    split; [exact Hg|]. split; [exact Hp|].
    unfold include_base in *. now rewrite Hf'.
Qed.

Lemma main_edges_closed_witness :
  match od_get "gadget" (DependencyAnalysis.components (fst demo_run)) with
  | Some c =>
      (forall k, k ∈ Component.dep_internal_components c ->
         exists d i,
           od_get k (DependencyAnalysis.components (fst demo_run)) = Some d
           /\ i ∈ all_includes c
           /\ Component.hfile d = Some (include_base i))
      /\ (forall e, e ∈ Component.dep_external_components c ->
            exists i group package,
              i ∈ all_includes c
              /\ group ∈ od_values (DependencyAnalysis.external_groups
                                      (fst demo_run))
              /\ package ∈ od_values (PackageGroup.packages group)
              /\ e = ExternalComponent.mk (include_base i)
                       (Package.group package, Package.name package))
  | None => False
  end.
Proof.
  destruct (od_get "gadget" (DependencyAnalysis.components (fst demo_run)))
    as [c|] eqn:E.
  - assert (H : main demo_fs "cppdep.xml" (DependencyAnalysis_new "cppdep.xml")
                = (fst demo_run, Ok tt)) by (vm_compute; reflexivity).
    exact (main_edges_closed demo_fs "cppdep.xml" (fst demo_run) H "gadget" c E).
  - vm_compute in E. discriminate.
Defined.

(** ** The order of the warnings *)

Lemma prints_only_refl P s : prints_only P s s.
Proof. exists []. now rewrite app_nil_r. Qed.

Lemma prints_only_trans P s1 s2 s3 :
  prints_only P s1 s2 -> prints_only P s2 s3 -> prints_only P s1 s3.
Proof.
  intros (l1 & H1 & F1) (l2 & H2 & F2). exists (l1 ++ l2).
  split; [now rewrite H2, H1, <- app_assoc|]. now apply Forall_app.
Qed.

Lemma Component_init_prints fs key hpath cpath package s s' r :
  Component_init fs key hpath cpath package s = (s', r) ->
  prints_only is_incomplete_warning s s'.
Proof.
  unfold Component_init.
  destruct (truthy hpath || truthy cpath) eqn:Et; unfold_M; simpl.
  2:{ intros [= <- <-]. apply prints_only_refl. }
  destruct (negb (truthy hpath)) eqn:Eneg; simpl;
    (match goal with
     | |- context [grep_if fs hpath ?sa] =>
         destruct (grep_if fs hpath sa) as [sb rb] eqn:Eh;
         apply grep_if_spec in Eh as [-> _]
     end);
    (destruct rb as [in_h|e];
     [|intros [= <- <-]; eexists; simpl; split;
       [reflexivity || (symmetry; apply app_nil_r)|repeat constructor]]);
    (match goal with
     | |- context [grep_if fs cpath ?sa] =>
         destruct (grep_if fs cpath sa) as [sc rc] eqn:Ec;
         apply grep_if_spec in Ec as [-> _]
     end);
    (destruct rc as [in_c|e];
     [|intros [= <- <-]; eexists; simpl; split;
       [reflexivity || (symmetry; apply app_nil_r)|repeat constructor]]);
    intros [= <- <-]; eexists; simpl; split;
    try (reflexivity || (symmetry; apply app_nil_r)); repeat constructor.
Qed.

Lemma construct_paired_prints fs package hbases : forall cbases s s' r,
  construct_paired fs package hbases cbases s = (s', r) ->
  prints_only is_incomplete_warning s s'.
Proof.
  induction hbases as [|[k0 h0] rest IH]; intros cbases s s' r H.
  - simpl in H. unfold_M. injection H as <- <-. apply prints_only_refl.
  - apply construct_paired_cons in H
      as [(_ & -> & _)|[(_ & e & Hi & _)|(Hm & s1 & c & Hi & Hrest)]].
    + apply prints_only_refl.
    + eapply Component_init_prints; eauto.
    + eapply prints_only_trans; [eapply Component_init_prints; eauto|].
      apply IH in Hrest. destruct Hrest as (l & Hl & Fl). exists l.
      now rewrite paired_store_stderr in Hl.
Qed.

Lemma construct_unpaired_prints fs package cbases : forall s s' r,
  construct_unpaired fs package cbases s = (s', r) ->
  prints_only is_incomplete_warning s s'.
Proof.
  induction cbases as [|[k0 c0] rest IH]; intros s s' r H.
  - simpl in H. unfold_M. injection H as <- <-. apply prints_only_refl.
  - apply construct_unpaired_cons in H
      as [(_ & -> & _)|[(_ & e & Hi & _)|(Hm & s1 & c & Hi & Hrest)]].
    + apply prints_only_refl.
    + eapply Component_init_prints; eauto.
    + eapply prints_only_trans; [eapply Component_init_prints; eauto|].
      apply IH in Hrest. exact Hrest.
Qed.

Lemma make_package_components_prints fs package s s' r :
  make_package_components fs package s = (s', r) ->
  prints_only is_incomplete_warning s s'.
Proof.
  unfold make_package_components. unfold bind at 1. unfold lift.
  destruct (collect_files fs (Package.paths package) [] [] [])
    as [[[hb cb] hf]|e0] eqn:Ec.
  2:{ intros [= <- _]. apply prints_only_refl. }
  unfold bind at 1. unfold modify. unfold construct_components, bind.
  match goal with
  | |- context [construct_paired fs package hb cb ?s0] =>
      destruct (construct_paired fs package hb cb s0) as [s1 [cb'|e0]] eqn:E1
  end.
  - intros E2. apply construct_paired_prints in E1.
    apply construct_unpaired_prints in E2.
    eapply prints_only_trans; [exact E1|exact E2].
  - intros [= <- _]. now apply construct_paired_prints in E1.
Qed.

Lemma make_components_prints fs s s' r :
  make_components fs s = (s', r) ->
  prints_only is_incomplete_warning s s'.
Proof.
  unfold make_components. unfold_M.
  apply (for_each_inv _ (prints_only is_incomplete_warning s)).
  - intros g t t' q Hg Ht.
    apply (for_each_inv _ (prints_only is_incomplete_warning s)); [|exact Ht].
    intros p u u' w Hp Hu Hb. eapply prints_only_trans; [exact Hu|].
    now apply make_package_components_prints in Hb.
  - apply prints_only_refl.
Qed.

Lemma check_include_issues_kind c :
  Forall (fun m => is_include_warning m = true) (check_include_issues c).
Proof.
  unfold check_include_issues.
  destruct (_ || _); [constructor|].
  destruct (negb _); [repeat constructor|].
  destruct (Component.includes_in_c c); [constructor|].
  destruct (negb _); repeat constructor.
Qed.

Lemma component_messages_kind fs s kc :
  Forall (fun m => is_include_warning m = true) (component_messages fs s kc).
Proof.
  unfold component_messages. apply Forall_app. split.
  - unfold not_found_messages. apply Forall_forall. intros m Hm.
    apply list_elem_of_In, in_map_iff in Hm as (i & <- & _). reflexivity.
  - apply check_include_issues_kind.
Qed.

(** X25: the order of the warnings of a run.  When the three phases of
    [main] complete, what was printed is a block of "incomplete
    component" warnings, from the pairing, followed by a block of
    "header not found", "missing include" and "include order" warnings,
    from the resolution, and nothing else. *)
Theorem main_warning_order (fs : FileSystem) (config : string)
    (s : DependencyAnalysis.t) :
  main fs config (DependencyAnalysis_new config) = (s, Ok tt) ->
  exists pairing resolution,
    DependencyAnalysis.stderr s = pairing ++ resolution
    /\ Forall (fun m => is_incomplete_warning m = true) pairing
    /\ Forall (fun m => is_include_warning m = true) resolution.
Proof.
  intros Hmain.
  apply main_phases in Hmain as (root & s1 & s2 & _ & E1 & E2 & E3).
  apply parse_groups_frame_rest in E1 as (_ & _ & Hs1 & _). simpl in Hs1.
  apply make_components_prints in E2 as (pairing & Hs2 & Fp).
  rewrite Hs1 in Hs2. simpl in Hs2.
  pose proof (analyze_loop_frame fs (DependencyAnalysis.components s2) s2 s2 s
                (Ok tt) (evolves_refl fs s2)) as Hframe.
  unfold analyze, bind, get_self in E3.
  destruct Hframe as (_ & _ & _ & Hs);
    [intros kc; apply elem_of_od_keys|exact E3|].
  exists pairing,
    (flat_map (component_messages fs s2) (DependencyAnalysis.components s2)).
  split; [now rewrite Hs, Hs2|]. split; [exact Fp|].
  apply Forall_forall. intros m Hm.
  apply elem_of_flat_map in Hm as (kc & _ & Hm).
  pose proof (component_messages_kind fs s2 kc) as Hk.
  rewrite Forall_forall in Hk. auto.
Qed.

Lemma main_warning_order_witness :
  exists pairing resolution,
    DependencyAnalysis.stderr (fst demo_run) = pairing ++ resolution
    /\ Forall (fun m => is_incomplete_warning m = true) pairing
    /\ Forall (fun m => is_include_warning m = true) resolution.
Proof.
  apply (main_warning_order demo_fs "cppdep.xml" (fst demo_run)).
  vm_compute. reflexivity.
Defined.

(** ** Files below the root of a package *)




(** ** The packages of a parsed configuration *)








(** ** The pairing of a package, file by file *)

Lemma collect_files_found fs paths hb cb hf :
  collect_files fs paths [] [] [] = Ok (hb, cb, hf) ->
  (forall k v, (k, v) ∈ hb -> v ∈ map snd (all_hfiles fs paths))
  /\ (forall k v, (k, v) ∈ cb -> v ∈ map snd (all_cfiles fs paths))
  /\ (forall k, k ∈ bases (all_hfiles fs paths) -> k ∈ od_keys hb)
  /\ (forall k, k ∈ bases (all_cfiles fs paths) -> k ∈ od_keys cb).
Proof.
  intros H. pose proof (collect_files_cbases _ _ _ _ _ _ _ _ H) as Hcb.
  apply collect_files_ok in H as (Hk & _ & Hh). cbn [app] in Hcb.
  change (od_keys cb = bases (all_cfiles fs paths)) in Hk.
  pose proof (f_equal fst Hh) as Ehb. cbn [fst] in Ehb.
  split_and!.
  - intros k v Hin. rewrite Ehb in Hin.
    apply find_hfiles_step_values in Hin as [Hin|Hin]; [|exact Hin].
    now apply not_elem_of_nil in Hin.
  - intros k v Hin. rewrite Hcb in Hin.
    apply list_elem_of_fmap in Hin as ([n p] & [= -> ->] & Hin).
    apply list_elem_of_fmap. now exists (n, p).
  - intros k Hin. rewrite Ehb. apply find_hfiles_step_keys. now right.
  - intros k Hin. now rewrite Hk.
Qed.

Lemma construct_unpaired_raise fs package cbases : forall s s' e,
  construct_unpaired fs package cbases s = (s', Raise e) ->
  e = AssertionError
  \/ exists p, p ∈ od_values cbases /\ fs_open fs p = Raise e.
Proof.
  induction cbases as [|[k0 c0] rest IH]; intros s s' e H.
  - simpl in H. unfold_M. discriminate.
  - apply construct_unpaired_cons in H
      as [(_ & _ & [= <-])|[(_ & e0 & Hi & [= <-])|(_ & s1 & c & _ & Hrest)]].
    + now left.
    + apply Component_init_spec in Hi as (_ & _ & _ & _ & _ & _ & He).
      destruct (He e eq_refl) as [->|(p & [[=]|[= <-]] & Ho)]; [now left|right].
      exists c0. split; [apply list_elem_of_here|exact Ho].
    + apply IH in Hrest as [->|(p & Hp & Ho)]; [now left|right].
      exists p. split; [now apply list_elem_of_further|exact Ho].
Qed.

Lemma construct_paired_raise fs package hbases : forall cbases s s' e,
  construct_paired fs package hbases cbases s = (s', Raise e) ->
  e = AssertionError
  \/ exists p, (p ∈ od_values hbases \/ p ∈ od_values cbases)
               /\ fs_open fs p = Raise e.
Proof.
  induction hbases as [|[k0 h0] rest IH]; intros cbases s s' e H.
  - simpl in H. unfold_M. discriminate.
  - apply construct_paired_cons in H
      as [(_ & _ & [= <-])|[(_ & e0 & Hi & [= <-])|(_ & s1 & c & _ & Hrest)]].
    + now left.
    + apply Component_init_spec in Hi as (_ & _ & _ & _ & _ & _ & He).
      destruct (He e eq_refl) as [->|(p & [[= <-]|Hc] & Ho)]; [now left|right..].
      * exists h0. split; [left; apply list_elem_of_here|exact Ho].
      * exists p. split; [right; eapply od_get_values; eauto|exact Ho].
    + apply IH in Hrest as [->|(p & [Hp|Hp] & Ho)]; [now left|right..].
      * exists p. split; [left; now apply list_elem_of_further|exact Ho].
      * exists p. split; [right|exact Ho].
        destruct (od_mem k0 cbases); [|exact Hp]. eapply od_values_del; eauto.
Qed.

Lemma construct_components_raise fs package hbases cbases s s' e :
  construct_components fs package hbases cbases s = (s', Raise e) ->
  e = AssertionError
  \/ exists p, (p ∈ od_values hbases \/ p ∈ od_values cbases)
               /\ fs_open fs p = Raise e.
Proof.
  unfold construct_components. unfold bind at 1.
  destruct (construct_paired fs package hbases cbases s) as [s1 [cb|e0]] eqn:E1.
  - intros E2. apply construct_unpaired_raise in E2 as [->|(p & Hp & Ho)];
      [now left|right].
    exists p. split; [right|exact Ho].
    apply construct_paired_exact in E1 as (-> & _).
    apply list_elem_of_fmap in Hp as ([k v] & -> & Hin).
    apply elem_of_leftover in Hin as [Hin _].
    apply list_elem_of_fmap. now exists (k, v).
  - intros [= <- <-]. eapply construct_paired_raise; eauto.
Qed.

(** A base name that is already a key of the store stops the pairing. *)
Lemma construct_components_dup fs package hbases cbases s key :
  od_mem key (DependencyAnalysis.components s) = true ->
  od_mem key hbases = true \/ od_mem key cbases = true ->
  exists e, snd (construct_components fs package hbases cbases s) = Raise e.
Proof.
  intros Hs Hk. unfold construct_components, bind.
  destruct (construct_paired fs package hbases cbases s) as [s1 r1] eqn:E1.
  pose proof (construct_paired_dup _ _ _ _ _ _ _ _ Hs E1) as Hp.
  destruct r1 as [cb'|e]; simpl; [|eauto].
  destruct Hp as (P1 & P2 & P3 & P4).
  destruct Hk as [Hk|Hk]; [congruence|].
  destruct (construct_unpaired fs package cb' s1) as [s2 r2] eqn:E2.
  destruct (construct_unpaired_dup _ _ _ _ _ _ _ P4 (P2 Hk) E2)
    as (e & -> & He).
  eauto.
Qed.

(** The components that a completed pairing has added: each has the
    path of a header among [hbases], or no header and the path of an
    implementation file among [cbases]. *)
Lemma construct_components_new fs package hbases cbases s s' :
  construct_components fs package hbases cbases s = (s', Ok tt) ->
  (forall k, k ∈ od_keys hbases \/ k ∈ od_keys cbases ->
             od_mem k (DependencyAnalysis.components s') = true)
  /\ (forall k c, od_get k (DependencyAnalysis.components s) = Some c ->
                  od_get k (DependencyAnalysis.components s') = Some c)
  /\ forall k c, od_get k (DependencyAnalysis.components s') = Some c ->
       od_get k (DependencyAnalysis.components s) = Some c
       \/ (constructed_for package c
           /\ ((exists h, Component.hpath c = Some h /\ h ∈ od_values hbases)
               \/ (Component.hpath c = None
                   /\ exists p, Component.cpath c = Some p
                                /\ p ∈ od_values cbases))).
Proof.
  intros H. pose proof (construct_components_extends _ _ _ _ _ _ _ H)
    as (Hold & _).
  unfold construct_components in H. unfold bind at 1 in H.
  destruct (construct_paired fs package hbases cbases s) as [s1 [cb|e]] eqn:E1;
    [|discriminate].
  pose proof (construct_unpaired_extends _ _ _ _ _ _ H) as (Hold2 & _).
  apply construct_paired_exact in E1 as (-> & Hk1 & Hall1).
  apply construct_unpaired_exact in H as (Hk2 & Hall2).
  assert (Hkeys : forall k,
             k ∈ od_keys (DependencyAnalysis.components s')
             <-> k ∈ od_keys (DependencyAnalysis.components s)
                 \/ k ∈ od_keys hbases
                 \/ (k ∈ od_keys cbases /\ k ∉ od_keys hbases)).
  { intros k. rewrite Hk2, Hk1, od_keys_leftover, !elem_of_app.
    rewrite list_elem_of_filter. tauto. }
  split_and!.
  - intros k Hk. apply od_mem_true, Hkeys.
    destruct (decide (k ∈ od_keys hbases)); [tauto|].
    destruct Hk; [contradiction|tauto].
  - exact Hold.
  - intros k c Hc.
    assert (Hin : k ∈ od_keys (DependencyAnalysis.components s')).
    { apply od_get_elem_of in Hc. now apply (elem_of_od_keys _ (k, c)). }
    apply Hkeys in Hin as [Hin|[Hin|[Hin Hn]]].
    + left. destruct (od_get k (DependencyAnalysis.components s)) as [c0|] eqn:E0.
      * apply Hold in E0. congruence.
      * apply od_get_None in E0. contradiction.
    + right. apply list_elem_of_fmap in Hin as ([k' h] & -> & Hin).
      destruct (Hall1 _ _ Hin) as (c1 & Hg & Hh & _ & Hcf).
      apply Hold2 in Hg. cbn [fst] in Hc. rewrite Hc in Hg. injection Hg as ->.
      split; [exact Hcf|]. left. exists h. split; [exact Hh|].
      apply list_elem_of_fmap. now exists (k', h).
    + right. apply list_elem_of_fmap in Hin as ([k' p] & -> & Hin).
      destruct (Hall2 k' p) as (c1 & Hg & Hh & Hcp & Hcf).
      { apply elem_of_leftover. auto. }
      cbn [fst] in Hc. rewrite Hc in Hg. injection Hg as ->.
      split; [exact Hcf|]. right. split; [exact Hh|]. exists p.
      split; [exact Hcp|]. apply list_elem_of_fmap. now exists (k', p).
Qed.

Lemma package_files_found fs p v :
  v ∈ map snd (all_hfiles fs (Package.paths p))
  \/ v ∈ map snd (all_cfiles fs (Package.paths p)) ->
  exists name, (name, v) ∈ package_files fs p.
Proof.
  unfold package_files.
  intros [H|H]; apply list_elem_of_fmap in H as ([name v'] & -> & H);
    exists name; apply elem_of_app; auto.
Qed.

Lemma package_files_nonempty fs p name path :
  (name, path) ∈ package_files fs p -> path <> EmptyString.
Proof.
  unfold package_files, all_hfiles, all_cfiles. intros H.
  apply elem_of_app in H as [H|H];
    apply elem_of_flat_map in H as (dir & _ & H);
    eapply find_paths_nonempty; eauto; reflexivity.
Qed.

Lemma package_files_bases fs p k :
  k ∈ bases (package_files fs p)
  <-> k ∈ bases (all_hfiles fs (Package.paths p))
      \/ k ∈ bases (all_cfiles fs (Package.paths p)).
Proof.
  unfold package_files, bases. rewrite map_app. apply elem_of_app.
Qed.

(** How the pairing of one package ends: with every base name of its
    source files a key of the store, the components of the store as they
    were and the new ones built from these files; or with a failed
    assertion or the exception that reading one of these files raised. *)
Lemma make_package_components_cases fs p s s' r :
  make_package_components fs p s = (s', r) ->
  match r with
  | Ok _ =>
      (forall k, k ∈ bases (package_files fs p) ->
                 od_mem k (DependencyAnalysis.components s') = true)
      /\ (forall k c, od_get k (DependencyAnalysis.components s) = Some c ->
                      od_get k (DependencyAnalysis.components s') = Some c)
      /\ forall k c, od_get k (DependencyAnalysis.components s') = Some c ->
           od_get k (DependencyAnalysis.components s) = Some c
           \/ (constructed_for p c
               /\ exists name path,
                    (name, path) ∈ package_files fs p
                    /\ py_or (Component.hpath c) (Component.cpath c)
                       = Some path)
  | Raise e =>
      e = AssertionError
      \/ exists name path,
           (name, path) ∈ package_files fs p /\ fs_open fs path = Raise e
  end.
Proof.
  unfold make_package_components. unfold bind at 1. unfold lift.
  destruct (collect_files fs (Package.paths p) [] [] [])
    as [[[hb cb] hf]|e0] eqn:Ec.
  2:{ intros [= _ <-]. left. eapply collect_files_exn; eauto. }
  apply collect_files_found in Ec as (Hhv & Hcv & Hhk & Hck).
  unfold bind at 1. unfold modify.
  set (s0 := DependencyAnalysis.set_internal_hfiles _ s).
  change (DependencyAnalysis.components s)
    with (DependencyAnalysis.components s0).
  clearbody s0. intros H. destruct r as [[]|e].
  - apply construct_components_new in H as (Hmem & Hold & Hnew).
    split_and!; [|exact Hold|].
    + intros k Hk. apply Hmem. apply package_files_bases in Hk.
      destruct Hk as [Hk|Hk]; [left; now apply Hhk|right; now apply Hck].
    + intros k c Hc. apply Hnew in Hc as [Hc|[Hcf Hsrc]]; [now left|right].
      split; [exact Hcf|].
      destruct Hsrc as [(h & Hh & Hin)|(Hh & q & Hq & Hin)].
      * apply list_elem_of_fmap in Hin as ([k' h'] & -> & Hin).
        destruct (package_files_found fs p h') as [name Hname];
          [left; eauto|].
        exists name, h'. split; [exact Hname|].
        apply package_files_nonempty in Hname.
        cbn [snd] in Hh. rewrite Hh. unfold py_or. cbn [truthy].
        destruct h'; [contradiction|reflexivity].
      * apply list_elem_of_fmap in Hin as ([k' q'] & -> & Hin).
        destruct (package_files_found fs p q') as [name Hname];
          [right; eauto|].
        exists name, q'. split; [exact Hname|].
        cbn [snd] in Hq. rewrite Hh, Hq. reflexivity.
  - apply construct_components_raise in H as [->|(q & Hq & Ho)]; [now left|].
    right. destruct (package_files_found fs p q) as [name Hname].
    { destruct Hq as [Hq|Hq];
        apply list_elem_of_fmap in Hq as ([k' q'] & -> & Hin); eauto. }
    eauto.
Qed.

Lemma make_package_components_dup fs p s key :
  od_mem key (DependencyAnalysis.components s) = true ->
  key ∈ bases (package_files fs p) ->
  exists e, snd (make_package_components fs p s) = Raise e.
Proof.
  intros Hs Hk. unfold make_package_components. unfold bind at 1. unfold lift.
  destruct (collect_files fs (Package.paths p) [] [] [])
    as [[[hb cb] hf]|e0] eqn:Ec; [|simpl; eauto].
  apply collect_files_found in Ec as (_ & _ & Hhk & Hck).
  unfold bind at 1. unfold modify.
  apply construct_components_dup with (key := key); [exact Hs|].
  rewrite !od_mem_true. apply package_files_bases in Hk.
  destruct Hk as [Hk|Hk]; [left; now apply Hhk|right; now apply Hck].
Qed.

(** ** The pairing of all packages *)

Lemma for_each_app {A} (body : A -> M unit) (l1 l2 : list A) s :
  for_each body (l1 ++ l2) s
  = match for_each body l1 s with
    | (s1, Ok _) => for_each body l2 s1
    | (s1, Raise e) => (s1, Raise e)
    end.
Proof.
  revert s. induction l1 as [|x l1 IH]; intros s; simpl; [reflexivity|].
  unfold bind. destruct (body x s) as [s1 [[]|e]]; [apply IH|reflexivity].
Qed.

Lemma for_each_flat_map {A B} (f : A -> list B) (body : B -> M unit) l s :
  for_each (fun x => for_each body (f x)) l s = for_each body (flat_map f l) s.
Proof.
  revert s. induction l as [|x l IH]; intros s; simpl; [reflexivity|].
  rewrite for_each_app. unfold bind.
  destruct (for_each body (f x) s) as [s1 [[]|e]]; [apply IH|reflexivity].
Qed.

Lemma make_components_flat fs s :
  make_components fs s
  = for_each (make_package_components fs) (internal_packages s) s.
Proof.
  unfold make_components, bind, get_self, internal_packages.
  apply for_each_flat_map.
Qed.

Lemma elem_of_internal_packages s p :
  p ∈ internal_packages s <-> internal_package s p.
Proof. unfold internal_packages, internal_package. apply elem_of_flat_map. Qed.


Lemma pairing_raise fs l : forall s s' e,
  for_each (make_package_components fs) l s = (s', Raise e) ->
  e = AssertionError
  \/ exists p name path,
       p ∈ l /\ (name, path) ∈ package_files fs p
       /\ fs_open fs path = Raise e.
Proof.
  induction l as [|a l IH]; intros s s' e; cbn [for_each].
  - unfold ret. discriminate.
  - unfold bind at 1.
    destruct (make_package_components fs a s) as [s1 [[]|e0]] eqn:Ea.
    + intros H. apply IH in H as [->|(p & name & path & Hp & Hrest)];
        [now left|right].
      exists p, name, path. split; [now apply list_elem_of_further|exact Hrest].
    + intros [= _ <-].
      apply make_package_components_cases in Ea
        as [->|(name & path & Hf & Ho)]; [now left|right].
      exists a, name, path. split_and!; auto. apply list_elem_of_here.
Qed.

(** A base name shared by two packages, or by a package and the store,
    stops the pairing. *)
Lemma pairing_dup fs l : forall s s' r key,
  for_each (make_package_components fs) l s = (s', r) ->
  (od_mem key (DependencyAnalysis.components s) = true
   /\ exists p, p ∈ l /\ key ∈ bases (package_files fs p))
  \/ (exists p q, p ∈ l /\ q ∈ l /\ p <> q
                  /\ key ∈ bases (package_files fs p)
                  /\ key ∈ bases (package_files fs q)) ->
  exists e, r = Raise e.
Proof.
  induction l as [|a l IH]; intros s s' r key; cbn [for_each].
  - intros _ [(_ & p & Hp & _)|(p & q & Hp & _)];
      now apply not_elem_of_nil in Hp.
  - unfold bind at 1.
    destruct (make_package_components fs a s) as [s1 [[]|e0]] eqn:Ea.
    2:{ intros [= _ <-] _. eauto. }
    intros H Hdup. apply (IH _ _ _ key H).
    pose proof (make_package_components_cases _ _ _ _ _ Ea) as (Hm1 & Ho1 & _).
    assert (Hkeep : od_mem key (DependencyAnalysis.components s) = true ->
                    od_mem key (DependencyAnalysis.components s1) = true).
    { unfold od_mem. intros Hk.
      destruct (od_get key (DependencyAnalysis.components s)) as [c|] eqn:E;
        [|discriminate].
      now rewrite (Ho1 _ _ E). }
    destruct Hdup as [(Hs & p & Hp & Hk)|(p & q & Hp & Hq & Hne & Hkp & Hkq)].
    + apply elem_of_cons in Hp as [->|Hp].
      * destruct (make_package_components_dup fs a s key Hs Hk) as [e He].
        rewrite Ea in He. discriminate.
      * left. split; [auto|]. eauto.
    + apply elem_of_cons in Hp as [->|Hp]; apply elem_of_cons in Hq as [->|Hq].
      * contradiction.
      * left. split; [now apply Hm1|]. eauto.
      * left. split; [now apply Hm1|]. eauto.
      * right. exists p, q. auto.
Qed.


Lemma package_files_find fs p name path :
  (name, path) ∈ package_files fs p ->
  exists dir, dir ∈ Package.paths p
              /\ (name, path) ∈ find fs dir _RE_HFILE ++ find fs dir _RE_CFILE.
Proof.
  unfold package_files, all_hfiles, all_cfiles. intros H.
  apply elem_of_app in H as [H|H];
    apply elem_of_flat_map in H as (dir & Hd & H);
    exists dir; (split; [exact Hd|]); apply elem_of_app; auto.
Qed.


Ltac elem_of_cases H :=
  apply list_elem_of_In in H; cbn [In] in H;
  repeat match type of H with
         | _ \/ _ => destruct H as [H|H]
         end;
  try contradiction.



(** The exception: a root that ends with a separator.  For the
    directories [/ab] and [/abc/d] the common path is [/], and dropping
    [len(root) + 1] characters takes the first character of the relative
    path with it: [/ab/x.h] is named [b/x]. *)
Example component_name_at_separator_root :
  common_path ["/ab"; "/abc/d"] = Ok "/"
  /\ strip_ext (str_drop (String.length "/" + 1) "/ab/x.h") = "b/x".
Proof. split; vm_compute; reflexivity. Qed.

(** ** Base names shared by two packages *)

(** C10, as the code has it.  When two internal packages of the parsed
    configuration have source files with the same extensionless base
    name and every source file found under the directories of the
    internal packages can be opened and read, the run raises
    [AssertionError]; the guard does not handle it, so the process
    aborts with a traceback and status 1.  The assertion on the global
    components map is what stops the pairing: from any state in which a
    base name of the package is already a key of that map, the pairing of
    the package raises, and raises [AssertionError] when its files can be
    read.  The cross-package header index, in contrast, silently keeps
    the entry it already has. *)
Theorem cross_package_duplicate_assertion (fs : FileSystem) (config : string)
    (p q : Package.t) (key : string) :
  snd (DependencyAnalysis_init fs config (DependencyAnalysis_new config))
  = Ok tt ->
  internal_package (parsed fs config) p ->
  internal_package (parsed fs config) q ->
  p <> q ->
  key ∈ bases (package_files fs p) ->
  key ∈ bases (package_files fs q) ->
  readable fs (map snd (flat_map (package_files fs)
                                 (internal_packages (parsed fs config)))) ->
  (exists t,
     main fs config (DependencyAnalysis_new config) = (t, Raise AssertionError)
     /\ main_guard fs config
        = {| exit_code := 1;
             err_stream := DependencyAnalysis.stderr t
                           ++ [Traceback AssertionError] |})
  /\ (forall package hbases cbases s,
        od_mem key (DependencyAnalysis.components s) = true ->
        od_mem key hbases = true \/ od_mem key cbases = true ->
        (exists e,
           snd (construct_components fs package hbases cbases s) = Raise e)
        /\ (readable fs (od_values hbases ++ od_values cbases) ->
            snd (construct_components fs package hbases cbases s)
            = Raise AssertionError))
  /\ (forall hfiles internal_hfiles hfile hpath,
        internal_hfiles !! hfile = Some hpath ->
        merge_hfiles hfiles internal_hfiles !! hfile = Some hpath).
Proof.
  intros Hinit Hp Hq Hne Hkp Hkq Hread. split_and!.
  - unfold main_guard, main. unfold bind at 1 3.
    destruct (DependencyAnalysis_init fs config (DependencyAnalysis_new config))
      as [s1 r1] eqn:E1.
    assert (Hs1 : parsed fs config = s1) by (unfold parsed; now rewrite E1).
    cbn [snd] in Hinit. subst r1. unfold bind at 1 2.
    destruct (make_components fs s1) as [s2 r2] eqn:E2.
    rewrite make_components_flat in E2. rewrite Hs1 in *.
    destruct (pairing_dup fs _ _ _ _ key E2) as [e ->].
    { right. exists p, q. rewrite !elem_of_internal_packages. auto. }
    apply pairing_raise in E2 as [->|(p0 & name & path & Hp0 & Hf & Ho)].
    + eauto.
    + exfalso. assert (Hok : is_ok (fs_open fs path) = true).
      { apply Hread. apply list_elem_of_fmap. exists (name, path).
        split; [reflexivity|]. apply elem_of_flat_map. eauto. }
      rewrite Ho in Hok. discriminate.
  - intros package hbases cbases s Hs Hk.
    destruct (construct_components_dup fs package hbases cbases s key Hs Hk)
      as [e He].
    split; [eauto|]. intros Hr. rewrite He. f_equal.
    destruct (construct_components fs package hbases cbases s) as [s' r] eqn:E.
    cbn [snd] in He. subst r.
    apply construct_components_raise in E as [->|(path & Hin & Ho)];
      [reflexivity|].
    assert (Hok : is_ok (fs_open fs path) = true).
    { apply Hr. apply elem_of_app. exact Hin. }
    rewrite Ho in Hok. discriminate.
  - intros hfiles ih hfile hpath Hl. now rewrite merge_hfiles_lookup, Hl.
Qed.

Lemma cross_package_duplicate_witness :
  exists t,
    main xpkg_fs "cppdep.xml" (DependencyAnalysis_new "cppdep.xml")
    = (t, Raise AssertionError)
    /\ main_guard xpkg_fs "cppdep.xml"
       = {| exit_code := 1;
            err_stream := DependencyAnalysis.stderr t
                          ++ [Traceback AssertionError] |}.
Proof.
  apply (cross_package_duplicate_assertion xpkg_fs "cppdep.xml"
           xpkg_p xpkg_q "a").
  - vm_compute. reflexivity.
  - apply elem_of_internal_packages. vm_compute. apply list_elem_of_here.
  - apply elem_of_internal_packages. vm_compute.
    apply list_elem_of_further, list_elem_of_here.
  - discriminate.
  - vm_compute. apply list_elem_of_here.
  - vm_compute. apply list_elem_of_here.
  - intros path Hin. vm_compute in Hin. elem_of_cases Hin; subst path;
      vm_compute; reflexivity.
Defined.

(** C10, counterexample: [a.h] of package [p] and [a.cpp] of package [q]
    share the base name [a], but the header [0.h] of [q], which is paired
    before [a.cpp] is reached, cannot be opened: the run ends with that
    [IOError], which the guard handles, and no [AssertionError] is
    raised. *)
Lemma cross_package_duplicate_unreadable :
  snd (DependencyAnalysis_init xio_fs "cppdep.xml"
         (DependencyAnalysis_new "cppdep.xml")) = Ok tt
  /\ internal_package (parsed xio_fs "cppdep.xml") xpkg_p
  /\ internal_package (parsed xio_fs "cppdep.xml") xpkg_q
  /\ xpkg_p <> xpkg_q
  /\ "a" ∈ bases (package_files xio_fs xpkg_p)
  /\ "a" ∈ bases (package_files xio_fs xpkg_q)
  /\ snd (main xio_fs "cppdep.xml" (DependencyAnalysis_new "cppdep.xml"))
     = Raise (IOError "[Errno 13] Permission denied: '/r/q/0.h'")
  /\ main_guard xio_fs "cppdep.xml"
     = {| exit_code := 1;
          err_stream :=
            [Diagnostic "IO Error:"
                        "[Errno 13] Permission denied: '/r/q/0.h'"] |}.
Proof.
  split_and!.
  - vm_compute. reflexivity.
  - apply elem_of_internal_packages. vm_compute. apply list_elem_of_here.
  - apply elem_of_internal_packages. vm_compute.
    apply list_elem_of_further, list_elem_of_here.
  - discriminate.
  - vm_compute. apply list_elem_of_here.
  - vm_compute. apply list_elem_of_further, list_elem_of_here.
  - vm_compute. reflexivity.
  - vm_compute. reflexivity.
Qed.

(** ** Where the exceptions of file pairing come from *)

(** X12: when [make_components] raises, the exception is a failed
    assertion or the exception that opening or reading a file raised, and
    this file is a header or implementation file that [find] yields for a
    directory of an internal package.  File pairing raises nothing of its
    own but [AssertionError]. *)
Theorem make_components_exceptions (fs : FileSystem)
    (s s' : DependencyAnalysis.t) (e : exn) :
  make_components fs s = (s', Raise e) ->
  e = AssertionError
  \/ exists package dir name path,
       internal_package s package
       /\ dir ∈ Package.paths package
       /\ (name, path) ∈ find fs dir _RE_HFILE ++ find fs dir _RE_CFILE
       /\ fs_open fs path = Raise e.
Proof.
  rewrite make_components_flat. intros H.
  apply pairing_raise in H as [->|(p & name & path & Hp & Hf & Ho)];
    [now left|right].
  destruct (package_files_find _ _ _ _ Hf) as (dir & Hdir & Hfind).
  exists p, dir, name, path. split_and!; auto.
  now apply elem_of_internal_packages.
Qed.

Lemma make_components_exceptions_witness :
  IOError "[Errno 13] Permission denied: '/r/q/0.h'" = AssertionError
  \/ exists package dir name path,
       internal_package (parsed xio_fs "cppdep.xml") package
       /\ dir ∈ Package.paths package
       /\ (name, path) ∈ find xio_fs dir _RE_HFILE ++ find xio_fs dir _RE_CFILE
       /\ fs_open xio_fs path
          = Raise (IOError "[Errno 13] Permission denied: '/r/q/0.h'").
Proof.
  apply (make_components_exceptions xio_fs (parsed xio_fs "cppdep.xml")
           (fst (make_components xio_fs (parsed xio_fs "cppdep.xml")))).
  vm_compute. reflexivity.
Defined.
